(** * ttobot: the multi-server MCP client, its schema converter and the
      Ollama tool-call adapter

    A shallow embedding of
      - [pkg/mcp/client.go]  (registry of sessions, [Tools], [MCPToolExecutor]),
      - [pkg/mcp/convert.go] ([ConvertViaJSON]),
      - [lib/tool/tool.go]   ([Tool], [ParameterSchema], [PropertyDefinition]),
      - [pkg/ollama/client.go] ([convertToOllamaTools], [Chat], [ExecuteToolCall],
                               [HandleToolCallsInResponse]),
      - [lib/mcp/config.go]  (the loaders, [CreateCommand], [expandEnvironmentVariables]).

    Go strings are byte strings: they are [string] here.  A Go [error] is
    modelled by its message, which is what [fmt.Errorf] builds.  Calls are
    taken one at a time, as [serversLock] serializes them; logging is left
    out. *)

From Stdlib Require Import ZArith Lia List Ascii String Permutation.
From stdpp Require Import base option list sorting gmap strings fin_maps.

Local Open Scope string_scope.
Local Open Scope list_scope.

(** ** Errors *)

Definition error := string.

Inductive result (A : Type) : Type :=
| Ok (a : A)
| Err (e : error).
Arguments Ok {A} a.
Arguments Err {A} e.

#[global] Instance result_ret : MRet result := fun A a => Ok a.
#[global] Instance result_bind : MBind result := fun A B k r =>
  match r with
  | Ok a => k a
  | Err e => Err e
  end.

#[global] Instance result_fmap : FMap result := fun A B f r =>
  match r with
  | Ok a => Ok (f a)
  | Err e => Err e
  end.

(** ** [time.Time] and [Time.Format]

    [time.Now()] returns the wall clock in the process's local time zone.
    A reading is the instant (seconds since the Unix epoch) together with
    the offset, in seconds east of UTC, of the local zone at that instant. *)

Module GoTime.

Local Open Scope Z_scope.

Record Time := { unix : Z; zone_offset : Z }.

(** [t.UTC()]: the same instant, rendered in UTC. *)
Definition UTC (t : Time) : Time := {| unix := unix t; zone_offset := 0 |}.

Record Civil := { year : Z; month : Z; day : Z; hour : Z; minute : Z; second : Z }.

(** Proleptic Gregorian date of a day number counted from 1970-01-01: the
    400-year era of the day, and the day's place [doe] within the era. *)
Definition civil_of_doe (era doe : Z) : Z * Z * Z :=
  let yoe := (doe - doe / 1460 + doe / 36524 - doe / 146096) / 365 in
  let doy := doe - (365 * yoe + yoe / 4 - yoe / 100) in
  let mp := (5 * doy + 2) / 153 in
  let d := doy - (153 * mp + 2) / 5 + 1 in
  let m := if mp <? 10 then mp + 3 else mp - 9 in
  let y := yoe + era * 400 + (if m <=? 2 then 1 else 0) in
  (y, m, d).

Definition civil_from_days (days : Z) : Z * Z * Z :=
  let z := days + 719468 in
  let era := z / 146097 in
  civil_of_doe era (z - era * 146097).

(** The clock fields [Format] prints: those of the reading's own location. *)
Definition civil (t : Time) : Civil :=
  let abs := unix t + zone_offset t in
  let '(y, m, d) := civil_from_days (abs / 86400) in
  let sod := abs mod 86400 in
  {| year := y; month := m; day := d;
     hour := sod / 3600; minute := (sod mod 3600) / 60; second := sod mod 60 |}.

Definition digit (d : Z) : ascii := ascii_of_nat (48 + Z.to_nat d).

Fixpoint digits (fuel : nat) (u : Z) (acc : string) : string :=
  match fuel with
  | O => acc
  | S fuel' =>
      let acc' := String (digit (u mod 10)) acc in
      if u / 10 =? 0 then acc' else digits fuel' (u / 10) acc'
  end.

Fixpoint zeros (n : nat) : string :=
  match n with
  | O => EmptyString
  | S n' => String "0" (zeros n')
  end.

(** [appendInt]: decimal, zero-padded to [width], with a sign when negative. *)
Definition appendInt (x : Z) (width : nat) : string :=
  let u := Z.abs x in
  let ds := digits (S (Z.to_nat (Z.log2 u))) u EmptyString in
  (if x <? 0 then "-" else "") +:+ zeros (width - String.length ds) +:+ ds.

(** [t.Format("20060102-150405")]. *)
Definition Format (t : Time) : string :=
  let c := civil t in
  appendInt (year c) 4 +:+ appendInt (month c) 2 +:+ appendInt (day c) 2 +:+ "-"
  +:+ appendInt (hour c) 2 +:+ appendInt (minute c) 2 +:+ appendInt (second c) 2.

(** Checks run over a range of integers. *)
Fixpoint check_range (check : Z -> bool) (n : nat) (lo : Z) : bool :=
  match n with
  | O => true
  | S n' => check lo && check_range check n' (lo + 1)
  end.

Definition is_digit (c : ascii) : bool :=
  let n := nat_of_ascii c in ((48 <=? n)%nat && (n <=? 57)%nat)%bool.

Fixpoint string_forall (p : ascii -> bool) (s : string) : bool :=
  match s with
  | EmptyString => true
  | String c r => p c && string_forall p r
  end.

(** [x] prints as exactly [width] decimal digits. *)
Definition prints_as_digits (width : nat) (x : Z) : bool :=
  (String.length (appendInt x width) =? width)%nat && string_forall is_digit (appendInt x width).

(** The day [doe] of an era falls on a month 1..12 and a day 1..31. *)
Definition month_day_ok (doe : Z) : bool :=
  let '(_, m, d) := civil_of_doe 0 doe in
  (1 <=? m) && (m <=? 12) && (1 <=? d) && (d <=? 31).

End GoTime.

(** ** [encoding/hex] and [crypto/rand] *)

Module hex.

Definition hextable : string := "0123456789abcdef".

Definition nibble (n : N) : ascii :=
  match String.get (N.to_nat n) hextable with
  | Some c => c
  | None => "0"%char
  end.

(** [hex.EncodeToString]: two lower-case digits per byte, high nibble first. *)
Fixpoint EncodeToString (src : list Byte.byte) : string :=
  match src with
  | [] => EmptyString
  | b :: rest =>
      let v := Byte.to_N b in
      String (nibble (N.shiftr v 4)) (String (nibble (N.land v 15)) (EncodeToString rest))
  end.

Definition is_hex_digit (c : ascii) : bool :=
  let n := nat_of_ascii c in
  ((48 <=? n)%nat && (n <=? 57)%nat) || ((97 <=? n)%nat && (n <=? 102)%nat).

Definition all_hex (s : string) : bool := GoTime.string_forall is_hex_digit s.

End hex.

(** The entropy source read by [rand.Read]: the stream of bytes it hands out. *)
Definition entropy := nat -> Byte.byte.

(** [rand.Read(buf)] fills the whole of [buf]. *)
Definition rand_Read (src : entropy) (len : nat) : list Byte.byte :=
  map src (seq 0 len).

(** [s[:n]] on a string at least [n] bytes long. *)
Definition prefix (n : nat) (s : string) : string := String.substring 0 n s.

(** ** Go slices and maps

    A slice or a map is either [nil] or allocated; both kinds have length 0
    when they hold nothing, and [encoding/json] tells them apart. *)

Abbreviation slice A := (option (list A)) (only parsing).
Abbreviation gomap V := (option (gmap string V)) (only parsing).

Definition elems {A} (s : slice A) : list A := default [] s.
Definition entries {V} (m : gomap V) : gmap string V := default ∅ m.

(** ** [encoding/json], on the value a JSON text denotes

    [json.Marshal] writes a text and [json.Unmarshal] parses one; the text
    itself is not modelled, only the JSON value it stands for. *)

Module json.

(** A finite [float64], as the dyadic number [mantissa * 2 ^ exponent]. *)
Record float64 := { mantissa : Z; exponent : Z }.

#[warnings="-register-all"] Inductive value : Type :=
| Null
| Bool (b : bool)
| Number (n : float64)
| Str (s : string)
| Array (items : list value)
| Object (members : list (string * value)).

(** The Go type [any] as far as this program fills it: with what
    [Unmarshal] stores in an [any], [nil] being [Null] and a
    [map[string]any] being held as the list of its members. *)
Abbreviation any := value (only parsing).

Definition is_nil (v : any) : bool :=
  match v with Null => true | _ => false end.

(** The name [%T] prints for a value of the type (abridged for struct
    types without a name). *)
Class GoType (A : Type) := type_name : string.
Class Marshaler (A : Type) := Marshal : A -> result value.
(** [Unmarshal data to]: [to] is the value behind the target pointer. *)
Class Unmarshaler (A : Type) := Unmarshal : value -> A -> result A.

Definition kind (v : value) : string :=
  match v with
  | Null => "null"
  | Bool _ => "bool"
  | Number _ => "number"
  | Str _ => "string"
  | Array _ => "array"
  | Object _ => "object"
  end.

Definition UnmarshalTypeError (v : value) (ty : string) : error :=
  "json: cannot unmarshal " +:+ kind v +:+ " into Go value of type " +:+ ty.

(** *** Encoding *)

(** Strings are written coerced to valid UTF-8: the encoder walks the
    bytes with [utf8.DecodeRuneInString] and writes the replacement
    character U+FFFD for every byte at which no well-formed encoding
    starts. *)
Definition between (lo hi : nat) (b : ascii) : bool :=
  ((lo <=? nat_of_ascii b)%nat && (nat_of_ascii b <=? hi)%nat)%bool.

Definition continuation : ascii -> bool := between 128 191.

(** The width of the well-formed encoding that starts with the byte [b]
    followed by [rest]; 0 when there is none, where the decoder returns
    [RuneError] with width 1. *)
Definition rune_width (b : ascii) (rest : string) : nat :=
  let n := nat_of_ascii b in
  if (n <? 128)%nat then 1
  else if (n <? 194)%nat then 0
  else if (n <? 224)%nat then
    match rest with
    | String b1 _ => if continuation b1 then 2 else 0
    | _ => 0
    end
  else if (n <? 240)%nat then
    match rest with
    | String b1 (String b2 _) =>
        if (between (if (n =? 224)%nat then 160 else 128) (if (n =? 237)%nat then 159 else 191) b1
            && continuation b2)%bool
        then 3 else 0
    | _ => 0
    end
  else if (n <? 245)%nat then
    match rest with
    | String b1 (String b2 (String b3 _)) =>
        if (between (if (n =? 240)%nat then 144 else 128) (if (n =? 244)%nat then 143 else 191) b1
            && continuation b2 && continuation b3)%bool
        then 4 else 0
    | _ => 0
    end
  else 0.

(** U+FFFD in UTF-8. *)
Definition replacement : string := String "239" (String "191" (String "189" EmptyString)).

(** [pending] bytes of the encoding under way are still to be copied. *)
Fixpoint coerce_from (pending : nat) (s : string) : string :=
  match s with
  | EmptyString => EmptyString
  | String b rest =>
      match pending with
      | S k => String b (coerce_from k rest)
      | O =>
          match rune_width b rest with
          | O => replacement +:+ coerce_from 0 rest
          | S k => String b (coerce_from k rest)
          end
      end
  end.

Definition coerce (s : string) : string := coerce_from 0 s.

(** The strings that are written as they are. *)
Definition valid (s : string) : bool := String.eqb (coerce s) s.

Definition marshal_string (s : string) : value := Str (coerce s).

(** What is written for a value held in an [any]. *)
Fixpoint marshal_any (v : any) : value :=
  match v with
  | Str s => marshal_string s
  | Array items => Array (map marshal_any items)
  | Object members => Object (map (fun kv => (coerce (fst kv), marshal_any (snd kv))) members)
  | _ => v
  end.

Fixpoint valid_any (v : any) : bool :=
  match v with
  | Str s => valid s
  | Array items => forallb valid_any items
  | Object members => forallb (fun kv => valid (fst kv) && valid_any (snd kv))%bool members
  | _ => true
  end.

Definition key_le (a b : string * value) : Prop := String.leb a.1 b.1 = true.

#[global] Instance key_le_dec a b : Decision (key_le a b).
Proof. unfold key_le. apply _. Defined.

(** A map is written with its keys sorted, each key coerced as it is
    written. *)
Definition marshal_map {V} (enc : V -> value) (m : gmap string V) : value :=
  Object ((fun kv => (coerce kv.1, kv.2)) <$> merge_sort key_le (map_to_list (enc <$> m))).

Definition marshal_strings (s : slice string) : value :=
  match s with
  | None => Null
  | Some l => Array (map marshal_string l)
  end.

Definition marshal_anys (s : slice any) : value :=
  match s with
  | None => Null
  | Some l => Array (map marshal_any l)
  end.

(** One struct field: left out when tagged [omitempty] and empty. *)
Definition field (name : string) (omit : bool) (v : value) : list (string * value) :=
  if omit then [] else [(name, v)].

Definition empty_slice {A} (s : slice A) : bool :=
  match elems s with [] => true | _ => false end.

Definition empty_string (s : string) : bool :=
  match s with EmptyString => true | _ => false end.

(** *** Decoding *)

Definition lower (c : ascii) : ascii :=
  let n := nat_of_ascii c in
  if ((65 <=? n)%nat && (n <=? 90)%nat)%bool then ascii_of_nat (n + 32) else c.

Fixpoint foldName (s : string) : string :=
  match s with
  | EmptyString => EmptyString
  | String c r => String (lower c) (foldName r)
  end.

Fixpoint index_where {A} (p : A -> bool) (l : list A) : option nat :=
  match l with
  | [] => None
  | x :: r => if p x then Some O else S <$> index_where p r
  end.

(** The struct field a key selects: the one of that name, or else the
    first whose name equals it up to (ASCII) letter case. *)
Definition find_field (names : list string) (key : string) : option nat :=
  match index_where (String.eqb key) names with
  | Some i => Some i
  | None => index_where (fun n => String.eqb (foldName key) (foldName n)) names
  end.

Definition unmarshal_string (v : value) (to : string) : result string :=
  match v with
  | Null => Ok to
  | Str s => Ok s
  | _ => Err (UnmarshalTypeError v "string")
  end.

Definition unmarshal_any (v : value) (to : any) : result any := Ok v.

(** Elements are decoded over the ones the slice already has. *)
Fixpoint unmarshal_elems {A} (dec : value -> A -> result A) (zero : A)
    (vs : list value) (old : list A) : result (list A) :=
  match vs with
  | [] => Ok []
  | v :: vs' =>
      x ← dec v (default zero (head old));
      xs ← unmarshal_elems dec zero vs' (tail old);
      Ok (x :: xs)
  end.

Definition unmarshal_slice {A} (dec : value -> A -> result A) (zero : A) (ty : string)
    (v : value) (to : slice A) : result (slice A) :=
  match v with
  | Null => Ok None
  | Array vs => Some <$> unmarshal_elems dec zero vs (elems to)
  | _ => Err (UnmarshalTypeError v ty)
  end.

(** Each member is decoded into a fresh element and stored under its key;
    the entries the map already has stay. *)
Fixpoint unmarshal_members {V} (dec : value -> V -> result V) (zero : V)
    (kvs : list (string * value)) (m : gmap string V) : result (gmap string V) :=
  match kvs with
  | [] => Ok m
  | (k, v) :: kvs' =>
      x ← dec v zero;
      unmarshal_members dec zero kvs' (<[k := x]> m)
  end.

Definition unmarshal_map {V} (dec : value -> V -> result V) (zero : V) (ty : string)
    (v : value) (to : gomap V) : result (gomap V) :=
  match v with
  | Null => Ok None
  | Object kvs => Some <$> unmarshal_members dec zero kvs (entries to)
  | _ => Err (UnmarshalTypeError v ty)
  end.

(** A struct takes the members of an object one by one, in order. *)
Fixpoint unmarshal_fields {S} (set : string -> value -> S -> result S)
    (kvs : list (string * value)) (to : S) : result S :=
  match kvs with
  | [] => Ok to
  | (k, v) :: kvs' =>
      to' ← set k v to;
      unmarshal_fields set kvs' to'
  end.

Definition unmarshal_struct {S} (set : string -> value -> S -> result S) (ty : string)
    (v : value) (to : S) : result S :=
  match v with
  | Null => Ok to
  | Object kvs => unmarshal_fields set kvs to
  | _ => Err (UnmarshalTypeError v ty)
  end.

#[global] Instance value_type : GoType value := "*jsonschema.Schema".
#[global] Instance value_marshal : Marshaler value := fun v => Ok v.

End json.

(** ** [lib/tool]: the common tool structure *)

Module tool.

Import json.

Abbreviation Arguments := (gmap string json.value) (only parsing).

(** [ToolExecutor]: the interface a tool's execution strategy implements.
    [St] is the state the strategy runs in. *)
Class ToolExecutor (St E : Type) := Execute : E -> Arguments -> St -> St * result string.

Record PropertyDefinition := {
  prop_Type : string;          (* json:"type" *)
  prop_Description : string;   (* json:"description,omitempty" *)
  prop_Items : any;            (* json:"items,omitempty" *)
  prop_Enum : slice any        (* json:"enum,omitempty" *)
}.

Record ParameterSchema := {
  Type_ : string;                             (* json:"type" *)
  Required : slice string;                    (* json:"required,omitempty" *)
  Properties : gomap PropertyDefinition;      (* json:"properties,omitempty" *)
  Defs : any;                                 (* json:"$defs,omitempty" *)
  Items : any                                 (* json:"items,omitempty" *)
}.

Record ToolFunction := {
  fn_Name : string;
  fn_Description : string;
  Parameters : ParameterSchema
}.

Record Tool (E : Type) := {
  Name : string;
  Description : string;
  Title : string;
  Function : ToolFunction;
  Executor : option E          (* the interface value, [None] when nil *)
}.
Arguments Name {E} _.
Arguments Description {E} _.
Arguments Title {E} _.
Arguments Function {E} _.
Arguments Executor {E} _.

(** [Tool.Execute]. *)
Definition Tool_Execute {St E} `{ToolExecutor St E} (t : Tool E) (arguments : Arguments)
    (st : St) : St * result string :=
  match Executor t with
  | None => (st, Err ("no executor available for tool " +:+ Name t))
  | Some e => Execute e arguments st
  end.

(** The zero values [var p PropertyDefinition] and [var s ParameterSchema]. *)
Definition zero_PropertyDefinition : PropertyDefinition :=
  {| prop_Type := ""; prop_Description := ""; prop_Items := Null; prop_Enum := None |}.

Definition zero_ParameterSchema : ParameterSchema :=
  {| Type_ := ""; Required := None; Properties := None; Defs := Null; Items := Null |}.

(** *** The JSON form the struct tags give *)

Definition marshal_PropertyDefinition (p : PropertyDefinition) : value :=
  Object (field "type" false (marshal_string (prop_Type p))
       ++ field "description" (empty_string (prop_Description p))
            (marshal_string (prop_Description p))
       ++ field "items" (is_nil (prop_Items p)) (marshal_any (prop_Items p))
       ++ field "enum" (empty_slice (prop_Enum p)) (marshal_anys (prop_Enum p))).

Definition marshal_ParameterSchema (s : ParameterSchema) : value :=
  Object (field "type" false (marshal_string (Type_ s))
       ++ field "required" (empty_slice (Required s)) (marshal_strings (Required s))
       ++ field "properties" (bool_decide (entries (Properties s) = ∅))
            (marshal_map marshal_PropertyDefinition (entries (Properties s)))
       ++ field "$defs" (is_nil (Defs s)) (marshal_any (Defs s))
       ++ field "items" (is_nil (Items s)) (marshal_any (Items s))).

(** The schemas all of whose strings are valid UTF-8. *)
Definition valid_PropertyDefinition (p : PropertyDefinition) : bool :=
  valid (prop_Type p) && valid (prop_Description p)
  && valid_any (prop_Items p) && forallb valid_any (elems (prop_Enum p)).

Definition valid_ParameterSchema (s : ParameterSchema) : bool :=
  valid (Type_ s) && forallb valid (elems (Required s))
  && forallb (fun kv => valid kv.1 && valid_PropertyDefinition kv.2)
       (map_to_list (entries (Properties s)))
  && valid_any (Defs s) && valid_any (Items s).

Definition set_PropertyDefinition (key : string) (v : value) (p : PropertyDefinition)
    : result PropertyDefinition :=
  match find_field ["type"; "description"; "items"; "enum"] key with
  | Some 0 =>
      x ← unmarshal_string v (prop_Type p);
      Ok {| prop_Type := x; prop_Description := prop_Description p;
            prop_Items := prop_Items p; prop_Enum := prop_Enum p |}
  | Some 1 =>
      x ← unmarshal_string v (prop_Description p);
      Ok {| prop_Type := prop_Type p; prop_Description := x;
            prop_Items := prop_Items p; prop_Enum := prop_Enum p |}
  | Some 2 =>
      x ← unmarshal_any v (prop_Items p);
      Ok {| prop_Type := prop_Type p; prop_Description := prop_Description p;
            prop_Items := x; prop_Enum := prop_Enum p |}
  | Some 3 =>
      x ← unmarshal_slice unmarshal_any Null "[]interface {}" v (prop_Enum p);
      Ok {| prop_Type := prop_Type p; prop_Description := prop_Description p;
            prop_Items := prop_Items p; prop_Enum := x |}
  | _ => Ok p
  end.

Definition unmarshal_PropertyDefinition : value -> PropertyDefinition -> result PropertyDefinition :=
  unmarshal_struct set_PropertyDefinition "tool.PropertyDefinition".

Definition set_ParameterSchema (key : string) (v : value) (s : ParameterSchema)
    : result ParameterSchema :=
  match find_field ["type"; "required"; "properties"; "$defs"; "items"] key with
  | Some 0 =>
      x ← unmarshal_string v (Type_ s);
      Ok {| Type_ := x; Required := Required s; Properties := Properties s;
            Defs := Defs s; Items := Items s |}
  | Some 1 =>
      x ← unmarshal_slice unmarshal_string "" "[]string" v (Required s);
      Ok {| Type_ := Type_ s; Required := x; Properties := Properties s;
            Defs := Defs s; Items := Items s |}
  | Some 2 =>
      x ← unmarshal_map unmarshal_PropertyDefinition zero_PropertyDefinition
             "map[string]tool.PropertyDefinition" v (Properties s);
      Ok {| Type_ := Type_ s; Required := Required s; Properties := x;
            Defs := Defs s; Items := Items s |}
  | Some 3 =>
      x ← unmarshal_any v (Defs s);
      Ok {| Type_ := Type_ s; Required := Required s; Properties := Properties s;
            Defs := x; Items := Items s |}
  | Some 4 =>
      x ← unmarshal_any v (Items s);
      Ok {| Type_ := Type_ s; Required := Required s; Properties := Properties s;
            Defs := Defs s; Items := x |}
  | _ => Ok s
  end.

#[global] Instance ParameterSchema_type : GoType ParameterSchema := "*tool.ParameterSchema".
#[global] Instance ParameterSchema_marshal : Marshaler ParameterSchema :=
  fun s => Ok (marshal_ParameterSchema s).
#[global] Instance ParameterSchema_unmarshal : Unmarshaler ParameterSchema :=
  unmarshal_struct set_ParameterSchema "tool.ParameterSchema".

End tool.

(** ** The parameter shape of the inference API

    The struct that [convertToOllamaTools] fills in for [api.ToolFunction]:
    the same members as [tool.ParameterSchema], declared independently
    ([required] and [properties] are always written, a property's [type]
    is an [api.PropertyType]). *)

Module api.

Import json.

(** [api.PropertyType]: a list of type names, written as a bare string when
    it has exactly one element and read back from either form. *)
Abbreviation PropertyType := (slice string) (only parsing).

Definition marshal_PropertyType (pt : PropertyType) : value :=
  match pt with
  | Some [s] => marshal_string s
  | _ => marshal_strings pt
  end.

Definition unmarshal_PropertyType (v : value) (to : PropertyType) : result PropertyType :=
  match unmarshal_string v "" with
  | Ok s => Ok (Some [s])
  | Err _ => unmarshal_slice unmarshal_string "" "[]string" v None
  end.

Record Property := {
  prop_Type : PropertyType;    (* json:"type" *)
  prop_Items : any;            (* json:"items,omitempty" *)
  prop_Description : string;   (* json:"description" *)
  prop_Enum : slice any        (* json:"enum,omitempty" *)
}.

Record Parameters := {
  Type_ : string;                  (* json:"type" *)
  Defs : any;                      (* json:"$defs,omitempty" *)
  Items : any;                     (* json:"items,omitempty" *)
  Required : slice string;         (* json:"required" *)
  Properties : gomap Property      (* json:"properties" *)
}.

Definition zero_Property : Property :=
  {| prop_Type := None; prop_Items := Null; prop_Description := ""; prop_Enum := None |}.

Definition zero_Parameters : Parameters :=
  {| Type_ := ""; Defs := Null; Items := Null; Required := None; Properties := None |}.

Definition marshal_Property (p : Property) : value :=
  Object (field "type" false (marshal_PropertyType (prop_Type p))
       ++ field "items" (is_nil (prop_Items p)) (marshal_any (prop_Items p))
       ++ field "description" false (marshal_string (prop_Description p))
       ++ field "enum" (empty_slice (prop_Enum p)) (marshal_anys (prop_Enum p))).

Definition marshal_properties (m : gomap Property) : value :=
  match m with
  | None => Null
  | Some m => marshal_map marshal_Property m
  end.

Definition marshal_Parameters (s : Parameters) : value :=
  Object (field "type" false (marshal_string (Type_ s))
       ++ field "$defs" (is_nil (Defs s)) (marshal_any (Defs s))
       ++ field "items" (is_nil (Items s)) (marshal_any (Items s))
       ++ field "required" false (marshal_strings (Required s))
       ++ field "properties" false (marshal_properties (Properties s))).

Definition set_Property (key : string) (v : value) (p : Property) : result Property :=
  match find_field ["type"; "items"; "description"; "enum"] key with
  | Some 0 =>
      x ← unmarshal_PropertyType v (prop_Type p);
      Ok {| prop_Type := x; prop_Items := prop_Items p;
            prop_Description := prop_Description p; prop_Enum := prop_Enum p |}
  | Some 1 =>
      x ← unmarshal_any v (prop_Items p);
      Ok {| prop_Type := prop_Type p; prop_Items := x;
            prop_Description := prop_Description p; prop_Enum := prop_Enum p |}
  | Some 2 =>
      x ← unmarshal_string v (prop_Description p);
      Ok {| prop_Type := prop_Type p; prop_Items := prop_Items p;
            prop_Description := x; prop_Enum := prop_Enum p |}
  | Some 3 =>
      x ← unmarshal_slice unmarshal_any Null "[]interface {}" v (prop_Enum p);
      Ok {| prop_Type := prop_Type p; prop_Items := prop_Items p;
            prop_Description := prop_Description p; prop_Enum := x |}
  | _ => Ok p
  end.

Definition unmarshal_Property : value -> Property -> result Property :=
  unmarshal_struct set_Property "struct".

Definition set_Parameters (key : string) (v : value) (s : Parameters) : result Parameters :=
  match find_field ["type"; "$defs"; "items"; "required"; "properties"] key with
  | Some 0 =>
      x ← unmarshal_string v (Type_ s);
      Ok {| Type_ := x; Defs := Defs s; Items := Items s;
            Required := Required s; Properties := Properties s |}
  | Some 1 =>
      x ← unmarshal_any v (Defs s);
      Ok {| Type_ := Type_ s; Defs := x; Items := Items s;
            Required := Required s; Properties := Properties s |}
  | Some 2 =>
      x ← unmarshal_any v (Items s);
      Ok {| Type_ := Type_ s; Defs := Defs s; Items := x;
            Required := Required s; Properties := Properties s |}
  | Some 3 =>
      x ← unmarshal_slice unmarshal_string "" "[]string" v (Required s);
      Ok {| Type_ := Type_ s; Defs := Defs s; Items := Items s;
            Required := x; Properties := Properties s |}
  | Some 4 =>
      x ← unmarshal_map unmarshal_Property zero_Property "map[string]struct" v (Properties s);
      Ok {| Type_ := Type_ s; Defs := Defs s; Items := Items s;
            Required := Required s; Properties := x |}
  | _ => Ok s
  end.

#[global] Instance Parameters_type : GoType Parameters := "*struct".
#[global] Instance Parameters_marshal : Marshaler Parameters :=
  fun s => Ok (marshal_Parameters s).
#[global] Instance Parameters_unmarshal : Unmarshaler Parameters :=
  unmarshal_struct set_Parameters "struct".

(** [api.Message] and [api.ToolCall], with the members this code touches. *)
Record Message := { Role : string; Content : string }.

Record ToolCallFunction := { call_Name : string; call_Arguments : tool.Arguments }.

Record ToolCall := { call_Function : ToolCallFunction }.

Record ChatResponse := { resp_Content : string; ToolCalls : list ToolCall }.

End api.

(** ** [pkg/mcp/convert.go] *)

Definition ConvertViaJSON {A B} `{json.GoType A, json.Marshaler A, json.GoType B, json.Unmarshaler B}
    (from : A) (to : B) : result B :=
  match json.Marshal from with
  | Err err => Err ("failed to marshal from type " +:+ json.type_name (A := A) +:+ ": " +:+ err)
  | Ok data =>
      match json.Unmarshal data to with
      | Err err => Err ("failed to unmarshal to type " +:+ json.type_name (A := B) +:+ ": " +:+ err)
      | Ok to' => Ok to'
      end
  end.

(** ** [pkg/mcp/client.go]: the registry of sessions *)

Module mcp.

Import json.

(** A [*mcp.ClientSession]: the address of the session object. *)
Abbreviation session := nat (only parsing).

(** [exec.Cmd], the launch descriptor wrapped by [mcp.NewCommandTransport]. *)
Record Cmd := { Path : string; Args : list string; Env : slice string }.

(** [mcp.Tool], as the SDK hands it over. [InputSchema] is a
    [*jsonschema.Schema], held as the JSON value it marshals to. *)
Record Tool := {
  tool_Name : string;
  tool_Description : string;
  tool_Title : string;
  InputSchema : option value
}.

Record CallToolParams := { Name : string; Arguments : tool.Arguments }.

(** [mcp.Content]: a [*mcp.TextContent], or any other content, of which
    this code only uses [MarshalJSON()]. *)
Inductive Content :=
| TextContent (Text : string)
| OtherContent (MarshalJSON : result string).

Record CallToolResult := { Content_ : slice Content; IsError : bool }.

(** What has happened on the provider side so far. *)
Record History := {
  sessions : nat;                              (* sessions created; the next address *)
  dialed : list Cmd;                           (* transports given to [client.Connect] *)
  closed : list session;                       (* sessions on which [Close] was called *)
  listed : list session;                       (* sessions asked for their tools *)
  calls : list (session * CallToolParams)      (* [CallTool] requests, in order *)
}.

(** The behaviour of everything outside the process: the SDK handshake
    (failing, or giving a session with the id the provider furnished), the
    clock, the entropy source, and the providers' answers. *)
Record Provider := {
  handshake : History -> Cmd -> result string;
  now : History -> GoTime.Time;
  random : History -> entropy;
  list_tools : History -> session -> list (option Tool * option error);
  call_tool : History -> session -> CallToolParams -> result CallToolResult
}.

Record World := { env : Provider; past : History }.

Definition with_past (w : World) (h : History) : World := {| env := env w; past := h |}.

Definition initial (p : Provider) : World :=
  {| env := p;
     past := {| sessions := 0; dialed := []; closed := []; listed := []; calls := [] |} |}.

(** [generateUUID]. *)
Definition generateUUID (src : entropy) : string :=
  hex.EncodeToString (rand_Read src 16).

(** [generateServerID]. *)
Definition generateServerID (originalID : string) (clock : GoTime.Time) (src : entropy) : string :=
  if bool_decide (originalID ≠ "") then originalID
  else
    let timestamp := GoTime.Format clock in
    let uuid := generateUUID src in
    "mcp-server-" +:+ timestamp +:+ "-" +:+ prefix 8 uuid.

Record Client := {
  servers : gmap string session;
  serverIDs : gmap session string      (* Maps session to our generated ID *)
}.

(** [NewClient]. *)
Definition NewClient : Client := {| servers := ∅; serverIDs := ∅ |}.

(** [client.Connect(ctx, ct)] of the SDK: the transport is dialed; on
    success a new session object exists. *)
Definition sdk_Connect (ct : Cmd) (w : World) : World * result (session * string) :=
  let h := past w in
  let h1 := {| sessions := sessions h; dialed := dialed h ++ [ct]; closed := closed h;
               listed := listed h; calls := calls h |} in
  match handshake (env w) h ct with
  | Err err => (with_past w h1, Err err)
  | Ok id =>
      let ss := sessions h in
      (with_past w {| sessions := S ss; dialed := dialed h1; closed := closed h1;
                      listed := listed h1; calls := calls h1 |}, Ok (ss, id))
  end.

(** [ss.Close()]. *)
Definition Close (ss : session) (w : World) : World :=
  let h := past w in
  with_past w {| sessions := sessions h; dialed := dialed h; closed := closed h ++ [ss];
                 listed := listed h; calls := calls h |}.

(** [connectWithTransport]: the client after the call, and the error returned. *)
Definition connectWithTransport (c : Client) (ct : Cmd) (w : World)
    : World * Client * option error :=
  match sdk_Connect ct w with
  | (w1, Err err) => (w1, c, Some ("failed to connect to MCP server: " +:+ err))
  | (w1, Ok (ss, originalID)) =>
      let serverID := generateServerID originalID (now (env w1) (past w1)) (random (env w1) (past w1)) in
      match servers c !! serverID with
      | Some _ => (Close ss w1, c, Some ("server with ID " +:+ serverID +:+ " already exists"))
      | None =>
          (w1, {| servers := <[serverID := ss]> (servers c);
                  serverIDs := <[ss := serverID]> (serverIDs c) |}, None)
      end
  end.

(** [Connect] and [ConnectWithCommand]. *)
Definition Connect (c : Client) (filepath : string) (args : list string) (w : World) :=
  connectWithTransport c {| Path := filepath; Args := args; Env := None |} w.

Definition ConnectWithCommand (c : Client) (cmd : Cmd) (w : World) :=
  connectWithTransport c cmd w.

(** [MCPToolExecutor]; its [client] member is the one [Client] object. *)
Record MCPToolExecutor := {
  serverID : string;
  toolName : string;
  originalTool : Tool
}.

(** The tool built for one native tool of server [id]. *)
Definition commonTool (id : string) (mcpTool : Tool) : tool.Tool MCPToolExecutor :=
  let toolName := id +:+ ":" +:+ tool_Name mcpTool in
  {| tool.Name := toolName;
     tool.Description := tool_Description mcpTool;
     tool.Title := tool_Title mcpTool;
     tool.Function :=
       {| tool.fn_Name := toolName;
          tool.fn_Description := tool_Description mcpTool;
          tool.Parameters :=
            {| tool.Type_ := "object"; tool.Required := Some [];
               tool.Properties := Some ∅; tool.Defs := Null; tool.Items := Null |} |};
     tool.Executor :=
       Some {| serverID := id; toolName := tool_Name mcpTool; originalTool := mcpTool |} |}.

Definition with_Parameters (t : tool.Tool MCPToolExecutor) (p : tool.ParameterSchema)
    : tool.Tool MCPToolExecutor :=
  {| tool.Name := tool.Name t; tool.Description := tool.Description t;
     tool.Title := tool.Title t;
     tool.Function :=
       {| tool.fn_Name := tool.fn_Name (tool.Function t);
          tool.fn_Description := tool.fn_Description (tool.Function t);
          tool.Parameters := p |};
     tool.Executor := tool.Executor t |}.

(** The body of the inner loop of [Tools], over what one server's
    iterator yields. *)
Fixpoint server_tools (id : string) (yields : list (option Tool * option error))
    (acc : list (tool.Tool MCPToolExecutor)) : result (list (tool.Tool MCPToolExecutor)) :=
  match yields with
  | [] => Ok acc
  | (_, Some err) :: _ => Err ("failed to list tools: " +:+ err)
  | (None, None) :: rest => server_tools id rest acc
  | (Some mcpTool, None) :: rest =>
      let t := commonTool id mcpTool in
      match InputSchema mcpTool with
      | None => server_tools id rest (acc ++ [t])
      | Some schema =>
          match ConvertViaJSON schema (tool.Parameters (tool.Function t)) with
          | Err err =>
              Err ("failed to convert input schema for tool " +:+ tool_Name mcpTool +:+ ": " +:+ err)
          | Ok p => server_tools id rest (acc ++ [with_Parameters t p])
          end
      end
  end.

Definition note_listed (ss : session) (w : World) : World :=
  let h := past w in
  with_past w {| sessions := sessions h; dialed := dialed h; closed := closed h;
                 listed := listed h ++ [ss]; calls := calls h |}.

(** The outer loop of [Tools], over the servers in the order the map
    iteration happens to visit them. *)
Fixpoint all_tools (c : Client) (order : list (string * session))
    (acc : list (tool.Tool MCPToolExecutor)) (w : World)
    : World * result (list (tool.Tool MCPToolExecutor)) :=
  match order with
  | [] => (w, Ok acc)
  | (_, server) :: rest =>
      let yields := list_tools (env w) (past w) server in
      let w1 := note_listed server w in
      match server_tools (default "" (serverIDs c !! server)) yields acc with
      | Err err => (w1, Err err)
      | Ok acc' => all_tools c rest acc' w1
      end
  end.

(** [Client.Tools]. A Go map is ranged over in an unspecified order:
    [order] is the one taken, a permutation of the entries of [servers]. *)
Definition Tools (c : Client) (order : list (string * session)) (w : World)
    : World * result (list (tool.Tool MCPToolExecutor)) :=
  if bool_decide (size (servers c) = 0) then (w, Err "no servers connected")
  else
    match all_tools c order [] w with
    | (w1, Err err) => (w1, Err err)
    | (w1, Ok res) =>
        if bool_decide (length res = 0) then (w1, Err "no tools found")
        else (w1, Ok res)
    end.

(** [server.CallTool(ctx, params)]. *)
Definition CallTool (server : session) (params : CallToolParams) (w : World)
    : World * result CallToolResult :=
  let h := past w in
  (with_past w {| sessions := sessions h; dialed := dialed h; closed := closed h;
                  listed := listed h; calls := calls h ++ [(server, params)] |},
   call_tool (env w) h server params).

(** The loop of [Execute] over the content of a result. *)
Fixpoint content_string (cs : list Content) : string :=
  match cs with
  | [] => ""
  | TextContent text :: rest => text +:+ content_string rest
  | OtherContent (Ok jsonBytes) :: rest => jsonBytes +:+ content_string rest
  | OtherContent (Err _) :: rest => content_string rest
  end.

(** [MCPToolExecutor.Execute], run against the client [c] it points to. *)
Definition Execute (e : MCPToolExecutor) (arguments : tool.Arguments) (c : Client) (w : World)
    : World * result string :=
  match servers c !! serverID e with
  | None => (w, Err ("server " +:+ serverID e +:+ " not found"))
  | Some server =>
      let params := {| Name := toolName e; Arguments := arguments |} in
      match CallTool server params w with
      | (w1, Err err) => (w1, Err ("failed to call tool " +:+ toolName e +:+ ": " +:+ err))
      | (w1, Ok res) =>
          match Content_ res with
          | Some content => (w1, Ok (content_string content))
          | None => (w1, Ok "Tool executed successfully")
          end
      end
  end.

#[global] Instance MCPToolExecutor_ToolExecutor : tool.ToolExecutor (Client * World) MCPToolExecutor :=
  fun e arguments st =>
    let '(w, r) := Execute e arguments st.1 st.2 in ((st.1, w), r).

(** A run of [connectWithTransport] over a sequence of transports: the
    client at the end and the error of each call. *)
Fixpoint connect_all (c : Client) (cts : list Cmd) (w : World)
    : World * Client * list (option error) :=
  match cts with
  | [] => (w, c, [])
  | ct :: rest =>
      let '(w1, c1, err) := connectWithTransport c ct w in
      let '(w2, c2, errs) := connect_all c1 rest w1 in
      (w2, c2, err :: errs)
  end.

Definition succeeded (err : option error) : bool :=
  match err with None => true | Some _ => false end.

(** The two maps of the registry are inverse to each other. *)
Definition registry_inv (c : Client) : Prop :=
  (∀ id ss, servers c !! id = Some ss → serverIDs c !! ss = Some id) ∧
  (∀ ss id, serverIDs c !! ss = Some id → servers c !! id = Some ss).

(** [lib/mcp.Config]. *)
Record Config := {
  cfg_Name : string;
  Command : string;
  cfg_Args : list string;
  Environment : gomap string
}.

End mcp.

(** ** [pkg/ollama/client.go]: dispatching the tool calls of a response *)

Module ollama.

Section Adapter.

Context {St E : Type} `{tool.ToolExecutor St E}.

Record Client := {
  model : string;
  tools : list (tool.Tool E)
}.

(** [ExecuteToolCall]. *)
Definition ExecuteToolCall (c : Client) (toolCall : api.ToolCall) (st : St)
    : St * result string :=
  let name := api.call_Name (api.call_Function toolCall) in
  match find (fun t => String.eqb (tool.fn_Name (tool.Function t)) name) (tools c) with
  | None => (st, Err ("tool " +:+ name +:+ " not found"))
  | Some targetTool =>
      match tool.Tool_Execute targetTool (api.call_Arguments (api.call_Function toolCall)) st with
      | (st1, Err err) => (st1, Err ("tool execution failed: " +:+ err))
      | (st1, Ok res) => (st1, Ok res)
      end
  end.

(** The loop of [HandleToolCallsInResponse]. *)
Fixpoint tool_messages (c : Client) (toolCalls : list api.ToolCall)
    (newMessages : list api.Message) (st : St) : St * list api.Message :=
  match toolCalls with
  | [] => (st, newMessages)
  | toolCall :: rest =>
      let '(st1, r) := ExecuteToolCall c toolCall st in
      let content :=
        match r with
        | Ok res => res
        | Err err => "Tool execution failed: " +:+ err
        end in
      tool_messages c rest (newMessages ++ [{| api.Role := "tool"; api.Content := content |}]) st1
  end.

(** [HandleToolCallsInResponse]: the messages (a nil slice when there is
    nothing to do) and the error, which is always nil. *)
Definition HandleToolCallsInResponse (c : Client) (response : api.ChatResponse) (st : St)
    : St * (slice api.Message * option error) :=
  match api.ToolCalls response with
  | [] => (st, (None, None))
  | toolCalls =>
      let '(st1, newMessages) := tool_messages c toolCalls [] st in
      (st1, (Some newMessages, None))
  end.

End Adapter.

Arguments Client E : clear implicits.

End ollama.

(** ** Display names, as the inference side reads them *)

(** The part of a display name before its first [':'] (all of it when it
    has none). *)
Fixpoint before_colon (s : string) : string :=
  match s with
  | EmptyString => EmptyString
  | String c r => if Ascii.eqb c ":" then EmptyString else String c (before_colon r)
  end.

Fixpoint has_colon (s : string) : bool :=
  match s with
  | EmptyString => false
  | String c r => Ascii.eqb c ":" || has_colon r
  end.

(** ** What [Execute] returns, said directly *)

(** The text a content fragment contributes: its own text, or its JSON
    form when it has one. *)
Definition fragment_text (c : mcp.Content) : option string :=
  match c with
  | mcp.TextContent text => Some text
  | mcp.OtherContent (Ok jsonBytes) => Some jsonBytes
  | mcp.OtherContent (Err _) => None
  end.

Definition join (l : list string) : string := foldr String.append "" l.

(** ** A small deployment, used to run the definitions

    Each provider furnishes its executable's path as its id (none for the
    path [""]); the executable [bad] cannot be started. The first session
    offers [ping], the second [ping] and [status]. *)

Module Demo.

Import mcp.

Definition ping : Tool :=
  {| tool_Name := "ping"; tool_Description := "answers"; tool_Title := ""; InputSchema := None |}.

Definition status : Tool :=
  {| tool_Name := "status"; tool_Description := "reports"; tool_Title := "";
     InputSchema :=
       Some (json.Object [("type", json.Str "object");
                          ("required", json.Array [json.Str "verbose"]);
                          ("properties",
                           json.Object [("verbose", json.Object [("type", json.Str "boolean")])])]) |}.

Definition provider : Provider :=
  {| handshake := λ _ ct, if String.eqb (Path ct) "bad" then Err "exec: not found" else Ok (Path ct);
     now := λ _, {| GoTime.unix := 0; GoTime.zone_offset := 3600 |};
     random := λ _ _, Byte.x00;
     list_tools := λ _ ss,
       match ss with
       | 0 => [(Some ping, None)]
       | 1 => [(Some ping, None); (Some status, None)]
       | _ => []
       end;
     call_tool := λ _ ss params,
       if String.eqb (Name params) "status" then Err "connection closed"
       else Ok {| Content_ := Some [TextContent "pong"]; IsError := false |} |}.

Definition cmd (path : string) : Cmd := {| Path := path; Args := []; Env := None |}.

(** The registry after connecting the providers [A] and [B]. *)
Definition connected_AB : World * Client * list (option error) :=
  connect_all NewClient [cmd "A"; cmd "B"] (initial provider).

Definition world_AB : World := connected_AB.1.1.
Definition client_AB : Client := connected_AB.1.2.

(** The registry after connecting providers with the ids [a] and [a:b]. *)
Definition connected_colon : World * Client * list (option error) :=
  connect_all NewClient [cmd "a"; cmd "a:b"] (initial provider).

Definition world_colon : World := connected_colon.1.1.
Definition client_colon : Client := connected_colon.1.2.

(** Providers that offer no tool at all. *)
Definition silent : Provider :=
  {| handshake := handshake provider; now := now provider; random := random provider;
     list_tools := λ _ _, [];
     call_tool := call_tool provider |}.

Definition connected_silent : World * Client * list (option error) :=
  connect_all NewClient [cmd "A"; cmd "B"] (initial silent).

(** Providers whose results carry no content list. *)
Definition bare : Provider :=
  {| handshake := handshake provider; now := now provider; random := random provider;
     list_tools := list_tools provider;
     call_tool := λ _ _ _, Ok {| Content_ := None; IsError := false |} |}.

Definition connected_bare : World * Client * list (option error) :=
  connect_all NewClient [cmd "A"] (initial bare).

(** Providers answering with text, other content and an error flag. *)
Definition mixed_result : CallToolResult :=
  {| Content_ := Some [TextContent "a"; OtherContent (Ok "{}"); OtherContent (Err "unsupported");
                       TextContent "b"];
     IsError := true |}.

Definition mixed : Provider :=
  {| handshake := handshake provider; now := now provider; random := random provider;
     list_tools := list_tools provider;
     call_tool := λ _ _ _, Ok mixed_result |}.

Definition connected_mixed : World * Client * list (option error) :=
  connect_all NewClient [cmd "A"] (initial mixed).

Definition executor_A_ping : MCPToolExecutor :=
  {| serverID := "A"; toolName := "ping"; originalTool := ping |}.

(** The inference adapter holding the tools listed from [A] and [B], and a
    response asking for [B:ping] and then [B:status]. *)
Definition adapter : ollama.Client MCPToolExecutor :=
  {| ollama.model := "qwen3:14b";
     ollama.tools :=
       match (Tools client_AB (map_to_list (servers client_AB)) world_AB).2 with
       | Ok res => res
       | Err _ => []
       end |}.

Definition call (name : string) : api.ToolCall :=
  {| api.call_Function := {| api.call_Name := name; api.call_Arguments := ∅ |} |}.

Definition response_two : api.ChatResponse :=
  {| api.resp_Content := ""; api.ToolCalls := [call "B:ping"; call "B:status"] |}.

(** Launch descriptors for the same executables. *)
Definition config (name command : string) : Config :=
  {| cfg_Name := name; Command := command; cfg_Args := []; Environment := None |}.

(** The registry after connecting a provider that furnishes no id. *)
Definition connected_anonymous : World * Client * list (option error) :=
  connect_all NewClient [cmd ""] (initial provider).

(** A schema with required names, properties, an enum and a nested item
    schema. *)
Definition tags_property : tool.PropertyDefinition :=
  {| tool.prop_Type := "array"; tool.prop_Description := "labels to attach";
     tool.prop_Items := json.Object [("type", json.Str "string"); ("minLength", json.Number {| json.mantissa := 1; json.exponent := 0 |})];
     tool.prop_Enum := None |}.

Definition mode_property : tool.PropertyDefinition :=
  {| tool.prop_Type := "string"; tool.prop_Description := "";
     tool.prop_Items := json.Null;
     tool.prop_Enum := Some [json.Str "fast"; json.Str "safe"; json.Null] |}.

Definition schema : tool.ParameterSchema :=
  {| tool.Type_ := "object";
     tool.Required := Some ["mode"; "tags"];
     tool.Properties := Some (<["mode" := mode_property]> (<["tags" := tags_property]> ∅));
     tool.Defs := json.Null;
     tool.Items := json.Object [("type", json.Str "integer")] |}.

(** The same schema, requiring a name that is not valid UTF-8: the byte
    ff after an [a]. *)
Definition misnamed : tool.ParameterSchema :=
  {| tool.Type_ := "object";
     tool.Required := Some ["mode"; String "a" (String "255" EmptyString)];
     tool.Properties := Some (<["mode" := mode_property]> (<["tags" := tags_property]> ∅));
     tool.Defs := json.Null;
     tool.Items := json.Object [("type", json.Str "integer")] |}.

End Demo.

(** ** Notions used to state the properties *)

Section Notions.

Import mcp.

(** What links a client to the provider side: registered sessions exist,
    closed ones are not registered. *)
Record consistent (c : Client) (w : World) : Prop := {
  cons_inv : registry_inv c;
  cons_live : ∀ ss id, serverIDs c !! ss = Some id → ss < sessions (past w);
  cons_closed : ∀ ss, ss ∈ closed (past w) → ss < sessions (past w) ∧ serverIDs c !! ss = None
}.

(** What [Tools] makes of the native tool [mcpTool] of the server [id]. *)
Definition tool_of (id : string) (mcpTool : Tool) (t : tool.Tool MCPToolExecutor) : Prop :=
  tool.Name t = id +:+ ":" +:+ tool_Name mcpTool
  ∧ tool.fn_Name (tool.Function t) = id +:+ ":" +:+ tool_Name mcpTool
  ∧ tool.Executor t =
      Some {| serverID := id; toolName := tool_Name mcpTool; originalTool := mcpTool |}.

(** The facets of a parameter schema: a property's type, description,
    nested item schema and enum values, and a schema's type, required
    names, named properties, definitions and item schema. A nil slice or
    map and an allocated one that holds nothing show the same contents. *)
Definition property_facets (p : tool.PropertyDefinition)
    : string * string * json.value * list json.value :=
  (tool.prop_Type p, tool.prop_Description p, tool.prop_Items p, elems (tool.prop_Enum p)).

Definition schema_facets (s : tool.ParameterSchema)
    : string * list string * gmap string (string * string * json.value * list json.value)
      * json.value * json.value :=
  (tool.Type_ s, elems (tool.Required s), property_facets <$> entries (tool.Properties s),
   tool.Defs s, tool.Items s).

(** What a schema becomes in the inference API's shape, and what comes
    back from there: an allocated but empty slice or map returns as nil. *)
Definition nonempty {A} (s : slice A) : slice A :=
  if json.empty_slice s then None else s.

Definition transcoded_property (p : tool.PropertyDefinition) : api.Property :=
  {| api.prop_Type := Some [tool.prop_Type p];
     api.prop_Items := tool.prop_Items p;
     api.prop_Description := tool.prop_Description p;
     api.prop_Enum := nonempty (tool.prop_Enum p) |}.

Definition transcoded (s : tool.ParameterSchema) : api.Parameters :=
  {| api.Type_ := tool.Type_ s;
     api.Defs := tool.Defs s;
     api.Items := tool.Items s;
     api.Required := nonempty (tool.Required s);
     api.Properties :=
       if bool_decide (entries (tool.Properties s) = ∅) then None
       else Some (transcoded_property <$> entries (tool.Properties s)) |}.

Definition returned_property (p : tool.PropertyDefinition) : tool.PropertyDefinition :=
  {| tool.prop_Type := tool.prop_Type p;
     tool.prop_Description := tool.prop_Description p;
     tool.prop_Items := tool.prop_Items p;
     tool.prop_Enum := nonempty (tool.prop_Enum p) |}.

Definition returned (s : tool.ParameterSchema) : tool.ParameterSchema :=
  {| tool.Type_ := tool.Type_ s;
     tool.Required := nonempty (tool.Required s);
     tool.Properties :=
       if bool_decide (entries (tool.Properties s) = ∅) then None
       else Some (returned_property <$> entries (tool.Properties s));
     tool.Defs := tool.Defs s;
     tool.Items := tool.Items s |}.

(** The message [HandleToolCallsInResponse] adds for one tool call. *)
Definition tool_message (r : result string) : api.Message :=
  {| api.Role := "tool";
     api.Content := match r with
                    | Ok res => res
                    | Err err => "Tool execution failed: " +:+ err
                    end |}.

End Notions.

(** ** More runs of the small deployment *)

Module Runs.

Import mcp.

(** [A], then [A] again, an executable that cannot be started, then [B]. *)
Definition mixed_outcomes : World * Client * list (option error) :=
  connect_all NewClient [Demo.cmd "A"; Demo.cmd "A"; Demo.cmd "bad"; Demo.cmd "B"]
    (initial Demo.provider).

(** Further connects on top of the registry holding [A] and [B]. *)
Definition more_on_AB : World * Client * list (option error) :=
  connect_all Demo.client_AB [Demo.cmd "A"; Demo.cmd "bad"; Demo.cmd "C"] Demo.world_AB.

(** The provider side after a listing on [A] and [B], and further
    connects from there: [B] again, an executable that cannot be started,
    and [C]. *)
Definition listed_AB : World :=
  (Tools Demo.client_AB (map_to_list (servers Demo.client_AB)) Demo.world_AB).1.

Definition later_on_AB : World * Client * list (option error) :=
  connect_all Demo.client_AB [Demo.cmd "B"; Demo.cmd "bad"; Demo.cmd "C"] listed_AB.

End Runs.

(** ** Notions about a listing *)

Section Listing.

Import mcp.

(** A yield at which the loop of [Tools] returns an error: one that
    carries an error, or a tool whose input schema does not convert. *)
Definition stops_listing (y : option Tool * option error) : bool :=
  match y with
  | (_, Some _) => true
  | (None, None) => false
  | (Some mcpTool, None) =>
      match InputSchema mcpTool with
      | None => false
      | Some schema =>
          match ConvertViaJSON schema (tool.Parameters (tool.Function (commonTool "" mcpTool))) with
          | Ok _ => false
          | Err _ => true
          end
      end
  end.

(** The names of the tools in what an iterator yields. *)
Definition native_names (yields : list (option Tool * option error)) : list string :=
  omap (λ y, tool_Name <$> y.1) yields.

(** A provider with a tool that comes with an input schema whose [type]
    is a list, and one whose listing breaks off. *)
Definition typed_by_list : Tool :=
  {| tool_Name := "probe"; tool_Description := ""; tool_Title := "";
     InputSchema := Some (json.Object [("type", json.Array [json.Str "object"; json.Str "null"])]) |}.

(** A tool whose input schema names its types after another member, under
    a capitalised key. *)
Definition typed_late : Tool :=
  {| tool_Name := "late"; tool_Description := ""; tool_Title := "";
     InputSchema :=
       Some (json.Object [("description", json.Str "a probe");
                          ("Type", json.Array [json.Str "object"; json.Str "null"])]) |}.

Definition unreliable : Provider :=
  {| handshake := handshake Demo.provider; now := now Demo.provider; random := random Demo.provider;
     list_tools := λ _ ss,
       match ss with
       | 0 => [(Some Demo.ping, None)]
       | 1 => [(Some Demo.status, None); (None, Some "EOF")]
       | _ => [(Some typed_by_list, None)]
       end;
     call_tool := call_tool Demo.provider |}.

Definition connected_unreliable : World * Client * list (option error) :=
  connect_all NewClient [Demo.cmd "A"; Demo.cmd "B"] (initial unreliable).

End Listing.

(** The tools of [A] and [B] when the map is visited from [B] to [A]. *)
Definition listed_BA : list (tool.Tool mcp.MCPToolExecutor) :=
  match (mcp.Tools Demo.client_AB [("B", 1); ("A", 0)] Demo.world_AB).2 with
  | Ok res => res
  | Err _ => []
  end.

(** ** [pkg/ollama/client.go]: the request sent to the inference endpoint *)

Module chat.

(** [api.ToolFunction], [api.Tool] and [api.ChatRequest], with the members
    this code sets. *)
Record ToolFunction := {
  Name : string;
  Description : string;
  Parameters : api.Parameters
}.

Record Tool := { Type_ : string; Function : ToolFunction }.

Record ChatRequest := {
  Model : string;
  Messages : list api.Message;
  Stream : option bool;
  Tools : slice Tool
}.

(** The endpoint behind [api.Client.Chat]: for a request, the responses it
    hands to the callback, in order, and the error it returns at the end. *)
Abbreviation Endpoint := (ChatRequest → list api.ChatResponse * option error) (only parsing).

(** The property the loop of [convertToOllamaTools] stores for [propDef]. *)
Definition convert_property (propDef : tool.PropertyDefinition) : api.Property :=
  {| api.prop_Type := Some [tool.prop_Type propDef];
     api.prop_Items := tool.prop_Items propDef;
     api.prop_Description := tool.prop_Description propDef;
     api.prop_Enum := tool.prop_Enum propDef |}.

(** The declaration [convertToOllamaTools] builds for one tool: the
    properties are copied one by one into a map made for them. *)
Definition convert_tool {E} (t : tool.Tool E) : Tool :=
  {| Type_ := "function";
     Function :=
       {| Name := tool.fn_Name (tool.Function t);
          Description := tool.fn_Description (tool.Function t);
          Parameters :=
            {| api.Type_ := tool.Type_ (tool.Parameters (tool.Function t));
               api.Defs := tool.Defs (tool.Parameters (tool.Function t));
               api.Items := tool.Items (tool.Parameters (tool.Function t));
               api.Required := tool.Required (tool.Parameters (tool.Function t));
               api.Properties :=
                 Some (convert_property
                         <$> entries (tool.Properties (tool.Parameters (tool.Function t)))) |} |} |}.

(** [convertToOllamaTools]. *)
Definition convertToOllamaTools {E} (c : ollama.Client E) : list Tool :=
  convert_tool <$> ollama.tools c.

(** The callback of [Chat], on what it has kept so far. *)
Definition keep (kept : api.ChatResponse * string) (resp : api.ChatResponse)
    : api.ChatResponse * string :=
  (resp,
   if bool_decide (api.resp_Content resp ≠ "") then kept.2 +:+ api.resp_Content resp
   else kept.2).

(** [Chat]. *)
Definition Chat {E} (endpoint : Endpoint) (c : ollama.Client E) (messages : list api.Message)
    : result api.ChatResponse :=
  let req :=
    {| Model := ollama.model c;
       Messages := messages;
       Stream := Some false;
       Tools := if bool_decide (0 < length (ollama.tools c)) then Some (convertToOllamaTools c)
                else None |} in
  let '(responses, err) := endpoint req in
  let '(finalResponse, responseContent) :=
    foldl keep ({| api.resp_Content := ""; api.ToolCalls := [] |}, "") responses in
  match err with
  | Some err => Err ("chat request failed: " +:+ err)
  | None =>
      Ok {| api.resp_Content := responseContent; api.ToolCalls := api.ToolCalls finalResponse |}
  end.

End chat.

(** ** Samples for the adapter *)

Module Samples.

(** A native tool whose input schema is the JSON form of [Demo.schema]. *)
Definition tagger : mcp.Tool :=
  {| mcp.tool_Name := "tagger"; mcp.tool_Description := "attaches labels"; mcp.tool_Title := "";
     mcp.InputSchema := Some (tool.marshal_ParameterSchema Demo.schema) |}.

(** An endpoint that answers in three pieces, asking for a tool in the
    first and in the last. *)
Definition pieces : list api.ChatResponse :=
  [ {| api.resp_Content := "Hel"; api.ToolCalls := [Demo.call "A:ping"] |};
    {| api.resp_Content := ""; api.ToolCalls := [] |};
    {| api.resp_Content := "lo"; api.ToolCalls := [Demo.call "B:ping"] |} ].

Definition endpoint : chat.ChatRequest → list api.ChatResponse * option error :=
  λ _, (pieces, None).

Definition question : list api.Message :=
  [ {| api.Role := "user"; api.Content := "ping both" |} ].

End Samples.

(** ** [lib/mcp/config.go]: loading the configuration *)

Module config.

Import mcp.

Record OllamaConfig := { URL : string; Model : string }.

Record ConfigFile := { Servers : list Config; Ollama : OllamaConfig }.

(** What the loaders ask of the machine: [os.ReadFile], [yaml.Unmarshal]
    into an empty [ConfigFile], whether [os.Stat] finds a path,
    [os.UserHomeDir], [filepath.Join] and [os.Getenv]. *)
Record Host := {
  ReadFile : string → result string;
  yaml_Unmarshal : string → result ConfigFile;
  Stat : string → bool;
  UserHomeDir : result string;
  Join : list string → string;
  Getenv : string → string
}.

(** [%d] of an index. *)
Definition itoa (i : nat) : string := GoTime.appendInt (Z.of_nat i) 0.

(** The validation loop of the loaders, from the server at index [i] on. *)
Fixpoint validate (i : nat) (servers : list Config) : option error :=
  match servers with
  | [] => None
  | config :: rest =>
      if bool_decide (cfg_Name config = "") then
        Some ("server at index " +:+ itoa i +:+ " has empty name")
      else if bool_decide (Command config = "") then
        Some ("server " +:+ cfg_Name config +:+ " has empty command")
      else validate (S i) rest
  end.

(** [LoadConfigFromFile]. *)
Definition LoadConfigFromFile (host : Host) (filePath : string) : result (list Config) :=
  match ReadFile host filePath with
  | Err err => Err ("failed to read config file " +:+ filePath +:+ ": " +:+ err)
  | Ok data =>
      match yaml_Unmarshal host data with
      | Err err => Err ("failed to parse YAML config: " +:+ err)
      | Ok configFile =>
          match validate 0 (Servers configFile) with
          | Some err => Err err
          | None => Ok (Servers configFile)
          end
      end
  end.

(** [LoadConfigWithOllamaFromFile]. *)
Definition LoadConfigWithOllamaFromFile (host : Host) (filePath : string)
    : result (list Config * OllamaConfig) :=
  match ReadFile host filePath with
  | Err err => Err ("failed to read config file " +:+ filePath +:+ ": " +:+ err)
  | Ok data =>
      match yaml_Unmarshal host data with
      | Err err => Err ("failed to parse YAML config: " +:+ err)
      | Ok configFile =>
          match validate 0 (Servers configFile) with
          | Some err => Err err
          | None =>
              let url := if bool_decide (URL (Ollama configFile) = "") then "http://localhost:11434"
                         else URL (Ollama configFile) in
              let model := if bool_decide (Model (Ollama configFile) = "") then "llama3.2"
                           else Model (Ollama configFile) in
              Ok (Servers configFile, {| URL := url; Model := model |})
          end
      end
  end.

(** The paths [LoadConfigFromDefaultPath] tries, in order. *)
Definition possiblePaths (host : Host) : list string :=
  ["mcp.yaml"; "mcp.yml"; "config/mcp.yaml"; "config/mcp.yml"]
  ++ match UserHomeDir host with
     | Ok homeDir =>
         [Join host [homeDir; ".mcp.yaml"]; Join host [homeDir; ".mcp.yml"];
          Join host [homeDir; ".config"; "mcp.yaml"]; Join host [homeDir; ".config"; "mcp.yml"]]
     | Err _ => []
     end.

(** The loop of [LoadConfigFromDefaultPath]. *)
Fixpoint first_found (host : Host) (paths : list string) : result (list Config) :=
  match paths with
  | [] => Err "no MCP configuration file found in default paths"
  | path :: rest =>
      if Stat host path then LoadConfigFromFile host path else first_found host rest
  end.

(** [LoadConfigFromDefaultPath]. *)
Definition LoadConfigFromDefaultPath (host : Host) : result (list Config) :=
  first_found host (possiblePaths host).

(** The start of [main]: the configuration file, else the default paths,
    else the configuration written into the program ([hardcoded]). *)
Definition settings (host : Host) (hardcoded : list Config) : list Config * OllamaConfig :=
  match LoadConfigWithOllamaFromFile host "mcp.yaml" with
  | Ok (configs, ollamaConfig) => (configs, ollamaConfig)
  | Err _ =>
      let configs :=
        match LoadConfigFromDefaultPath host with
        | Ok configs => configs
        | Err _ => hardcoded
        end in
      (configs, {| URL := "http://localhost:11434"; Model := "qwen3:14b" |})
  end.

(** The configuration written into the command-line [main]. *)
Definition memory_server : list Config :=
  [ {| cfg_Name := "memory-server"; Command := "npx";
       cfg_Args := ["-y"; "@modelcontextprotocol/server-memory"]; Environment := None |} ].

(** *** [expandEnvironmentVariables] *)

(** The text up to the first ['}'], and what follows that brace. *)
Fixpoint until_brace (s : string) : option (string * string) :=
  match s with
  | EmptyString => None
  | String c r =>
      if Ascii.eqb c "}" then Some (EmptyString, r)
      else match until_brace r with
           | Some (name, rest) => Some (String c name, rest)
           | None => None
           end
  end.

(** The first replacement: each match of a dollar, an opening brace, one
    or more characters other than a closing brace, and a closing brace,
    from left to right, by the value of the variable named between the
    braces. *)
Fixpoint expand_braces (fuel : nat) (getenv : string → string) (s : string) : string :=
  match fuel with
  | O => s
  | S fuel' =>
      match s with
      | EmptyString => EmptyString
      | String c r =>
          if Ascii.eqb c "$" then
            match r with
            | String b r' =>
                if Ascii.eqb b "{" then
                  match until_brace r' with
                  | Some (String n name, rest) =>
                      getenv (String n name) +:+ expand_braces fuel' getenv rest
                  | _ => String c (expand_braces fuel' getenv r)
                  end
                else String c (expand_braces fuel' getenv r)
            | EmptyString => String c EmptyString
            end
          else String c (expand_braces fuel' getenv r)
      end
  end.

Definition is_name_start (c : ascii) : bool :=
  let n := nat_of_ascii c in
  ((65 <=? n)%nat && (n <=? 90)%nat) || ((97 <=? n)%nat && (n <=? 122)%nat) || (n =? 95)%nat.

Definition is_name_char (c : ascii) : bool :=
  is_name_start c || GoTime.is_digit c.

(** The longest run of name characters at the head, and the rest. *)
Fixpoint name_run (s : string) : string * string :=
  match s with
  | EmptyString => (EmptyString, EmptyString)
  | String c r =>
      if is_name_char c then let '(name, rest) := name_run r in (String c name, rest)
      else (EmptyString, s)
  end.

(** The second replacement: each match of a dollar, a letter or
    underscore, and the letters, digits and underscores that follow, from
    left to right, by the value of the variable so named. *)
Fixpoint expand_names (fuel : nat) (getenv : string → string) (s : string) : string :=
  match fuel with
  | O => s
  | S fuel' =>
      match s with
      | EmptyString => EmptyString
      | String c r =>
          if Ascii.eqb c "$" then
            match r with
            | String b r' =>
                if is_name_start b then
                  let '(name, rest) := name_run r' in
                  getenv (String b name) +:+ expand_names fuel' getenv rest
                else String c (expand_names fuel' getenv r)
            | EmptyString => String c EmptyString
            end
          else String c (expand_names fuel' getenv r)
      end
  end.

(** [expandEnvironmentVariables]: the two replacements, one after the other. *)
Definition expandEnvironmentVariables (getenv : string → string) (value : string) : string :=
  let expanded := expand_braces (String.length value) getenv value in
  expand_names (String.length expanded) getenv expanded.

Fixpoint has_char (x : ascii) (s : string) : bool :=
  match s with
  | EmptyString => false
  | String c r => Ascii.eqb c x || has_char x r
  end.

(** *** The environment of the process

    The variables of the process (on Unix) as [os.Environ] lists them,
    name and value, in the order of that list; a name occurs once. What a launched
    command makes of them is the provider's affair: the handshake is asked
    at a point of the history, which tells the launches apart. *)
Abbreviation Process := (list (string * string)) (only parsing).

(** [os.Getenv]: the value of the variable, empty when it is not set or
    the name is empty. *)
Fixpoint value_of (key : string) (e : Process) : string :=
  match e with
  | [] => ""
  | (k, v) :: rest => if String.eqb k key then v else value_of key rest
  end.

Definition os_Getenv (e : Process) (key : string) : string :=
  if bool_decide (key = "") then "" else value_of key e.

(** The variable [key] set to [value]: in place when it is there, else at
    the end. *)
Fixpoint put (key value : string) (e : Process) : Process :=
  match e with
  | [] => [(key, value)]
  | (k, v) :: rest => if String.eqb k key then (key, value) :: rest else (k, v) :: put key value rest
  end.

(** What [os.Setenv] accepts: it refuses an empty name, a name with ['=']
    or a NUL and a value with a NUL. *)
Definition settable (key value : string) : bool :=
  negb (bool_decide (key = "") || has_char "=" key || has_char "000" key
        || has_char "000" value).

(** [os.Setenv]; the error it returns when it refuses is dropped by
    [applyEnvironment]. *)
Definition os_Setenv (key value : string) (e : Process) : Process :=
  if settable key value then put key value e else e.

(** [os.Environ]. *)
Definition os_Environ (e : Process) : list string :=
  (λ kv, kv.1 +:+ "=" +:+ kv.2) <$> e.

(** The order in which one [range] statement visits the entries of a
    map: some arrangement of the entries, which Go does not fix. *)
Abbreviation Visit := (list (string * string)) (only parsing).

(** [applyEnvironment], its loop visiting the entries in the order
    [visit]. *)
Definition applyEnvironment (c : Config) (visit : Visit) (e : Process) : Process :=
  match Environment c with
  | None => e
  | Some _ =>
      foldl (λ e kv, os_Setenv kv.1 (expandEnvironmentVariables (os_Getenv e) kv.2) e) e visit
  end.

(** [CreateCommand]: the environment of the process after the call, and
    the command. [visits] are the orders of its two loops over
    [Environment]: the one in [applyEnvironment] and the one that fills
    [cmd.Env]. *)
Definition CreateCommand (c : Config) (visits : Visit * Visit) (e : Process) : Process * Cmd :=
  let e1 := applyEnvironment c visits.1 e in
  let expandedCommand := expandEnvironmentVariables (os_Getenv e1) (Command c) in
  let expandedArgs := expandEnvironmentVariables (os_Getenv e1) <$> cfg_Args c in
  (e1,
   {| Path := expandedCommand;
      Args := expandedArgs;
      Env := match Environment c with
             | None => None
             | Some _ =>
                 Some (os_Environ e1
                       ++ ((λ kv, kv.1 +:+ "=" +:+ expandEnvironmentVariables (os_Getenv e1) kv.2)
                             <$> visits.2))
             end |}).

(** The visits Go can make of the environment of [c]. *)
Definition visits_of (c : Config) (visits : Visit * Visit) : Prop :=
  visits.1 ≡ₚ map_to_list (entries (Environment c))
  ∧ visits.2 ≡ₚ map_to_list (entries (Environment c)).

End config.

(** ** [pkg/mcp/client.go]: connecting from configurations

    The state is the environment of the process and the provider side.
    [visits i] are the visits of the two loops of [CreateCommand] for the
    configuration at index [i]. *)

Module launch.

Import mcp config.

(** [ConnectFromConfig]. *)
Definition ConnectFromConfig (c : Client) (config : Config) (visits : Visit * Visit)
    (st : Process * World) : (Process * World) * Client * option error :=
  let '(e1, cmd) := CreateCommand config visits st.1 in
  let '(w1, c1, err) := ConnectWithCommand c cmd st.2 in
  ((e1, w1), c1, err).

(** [ConnectFromConfigs]. *)
Fixpoint ConnectFromConfigs (c : Client) (configs : list Config) (visits : nat → Visit * Visit)
    (st : Process * World) : (Process * World) * Client * option error :=
  match configs with
  | [] => (st, c, None)
  | config :: rest =>
      match ConnectFromConfig c config (visits 0) st with
      | (st1, c1, Some err) =>
          (st1, c1, Some ("failed to connect to server " +:+ cfg_Name config +:+ ": " +:+ err))
      | (st1, c1, None) => ConnectFromConfigs c1 rest (λ i, visits (S i)) st1
      end
  end.

(** The commands [CreateCommand] builds for [configs] one after the
    other, each in the environment the earlier ones have left, and the
    environment after the last. *)
Fixpoint commands (configs : list Config) (visits : nat → Visit * Visit) (e : Process)
    : Process * list Cmd :=
  match configs with
  | [] => (e, [])
  | config :: rest =>
      let '(e1, cmd) := CreateCommand config (visits 0) e in
      let '(e2, cmds) := commands rest (λ i, visits (S i)) e1 in
      (e2, cmd :: cmds)
  end.

(** Configurations of which the second launches what the first has put
    into the variable [BIN], and the visits of their loops. *)
Definition cfg_first : Config :=
  {| cfg_Name := "first"; Command := "A"; cfg_Args := [];
     Environment := Some {["BIN" := "bad"]} |}.

Definition cfg_broken : Config :=
  {| cfg_Name := "broken"; Command := "$BIN"; cfg_Args := ["--root"; "${HOME}/x"];
     Environment := None |}.

Definition cfg_last : Config := Demo.config "last" "B".

Definition visits (i : nat) : Visit * Visit :=
  match i with
  | 0 => ([("BIN", "bad")], [("BIN", "bad")])
  | _ => ([], [])
  end.

Definition home : Process := [("HOME", "/home/u")].

End launch.

(** ** A machine to load the configuration from *)

Module Hosts.

Import config.

Definition good_file : ConfigFile :=
  {| Servers := [Demo.config "first" "A"; Demo.config "last" "B"];
     Ollama := {| URL := ""; Model := "qwen3:8b" |} |}.

Definition bad_file : ConfigFile :=
  {| Servers := [Demo.config "first" "A"; Demo.config "" "B"; Demo.config "third" ""];
     Ollama := {| URL := ""; Model := "" |} |}.

(** [mcp.yaml] holds a server without a name, [mcp.yml] is in order, and
    there is no other file. *)
Definition host : Host :=
  {| ReadFile := λ path,
       if String.eqb path "mcp.yaml" then Ok "bad"
       else if String.eqb path "mcp.yml" then Ok "good"
       else Err "open: no such file or directory";
     yaml_Unmarshal := λ data,
       if String.eqb data "good" then Ok good_file
       else if String.eqb data "bad" then Ok bad_file
       else Err "yaml: unmarshal errors";
     Stat := λ path, String.eqb path "mcp.yaml" || String.eqb path "mcp.yml";
     UserHomeDir := Ok "/home/u";
     Join := String.concat "/";
     Getenv := λ name, if String.eqb name "HOME" then "/home/u" else "" |}.

(** The same machine without [mcp.yaml]. *)
Definition host_yml : Host :=
  {| ReadFile := ReadFile host; yaml_Unmarshal := yaml_Unmarshal host;
     Stat := λ path, String.eqb path "mcp.yml";
     UserHomeDir := UserHomeDir host; Join := Join host; Getenv := Getenv host |}.

End Hosts.

(** ** Display names, read back *)

(** The part of a display name after its first [':'] (nothing when it has
    none). *)
Fixpoint after_colon (s : string) : string :=
  match s with
  | EmptyString => EmptyString
  | String c r => if Ascii.eqb c ":" then r else after_colon r
  end.

(** The request a tool call stands for when its name is read as
    [<id>:<native name>]: to the session registered under the id, for the
    native name, with the call's arguments. *)
Definition request_of (c : mcp.Client) (toolCall : api.ToolCall)
    : option (nat * mcp.CallToolParams) :=
  let name := api.call_Name (api.call_Function toolCall) in
  match mcp.servers c !! before_colon name with
  | Some ss =>
      Some (ss, {| mcp.Name := after_colon name;
                   mcp.Arguments := api.call_Arguments (api.call_Function toolCall) |})
  | None => None
  end.

(** * Properties *)

Import mcp.

(** ** The registry *)

Lemma consistent_initial p : consistent NewClient (initial p).
Proof.
  split; simpl.
  - split; simpl; intros ? ?; rewrite lookup_empty; discriminate.
  - intros ? ?; rewrite lookup_empty; discriminate.
  - intros ss Hin. by apply elem_of_nil in Hin.
Qed.

Lemma sdk_Connect_Ok ct w w1 ss id :
  sdk_Connect ct w = (w1, Ok (ss, id)) →
  ss = sessions (past w) ∧ sessions (past w1) = S ss ∧
  closed (past w1) = closed (past w) ∧ dialed (past w1) = dialed (past w) ++ [ct] ∧
  env w1 = env w.
Proof.
  unfold sdk_Connect. destruct (handshake _ _ _); [|discriminate].
  intros [= <- <- <-]. simpl. done.
Qed.

Lemma sdk_Connect_Err ct w w1 err :
  sdk_Connect ct w = (w1, Err err) →
  sessions (past w1) = sessions (past w) ∧
  closed (past w1) = closed (past w) ∧ dialed (past w1) = dialed (past w) ++ [ct] ∧
  env w1 = env w.
Proof.
  unfold sdk_Connect. destruct (handshake _ _ _); [discriminate|].
  intros [= <- <-]. simpl. done.
Qed.

(** The outcome of one connect, case by case. *)
Lemma connectWithTransport_cases c ct w :
  (∃ w1 err, sdk_Connect ct w = (w1, Err err) ∧
     connectWithTransport c ct w = (w1, c, Some ("failed to connect to MCP server: " +:+ err)))
  ∨ (∃ w1 ss originalID old,
       sdk_Connect ct w = (w1, Ok (ss, originalID)) ∧
       servers c !! generateServerID originalID (now (env w1) (past w1)) (random (env w1) (past w1))
         = Some old ∧
       connectWithTransport c ct w =
         (Close ss w1, c,
          Some ("server with ID "
                +:+ generateServerID originalID (now (env w1) (past w1)) (random (env w1) (past w1))
                +:+ " already exists")))
  ∨ (∃ w1 ss originalID,
       sdk_Connect ct w = (w1, Ok (ss, originalID)) ∧
       servers c !! generateServerID originalID (now (env w1) (past w1)) (random (env w1) (past w1))
         = None ∧
       connectWithTransport c ct w =
         (w1,
          {| servers :=
               <[generateServerID originalID (now (env w1) (past w1)) (random (env w1) (past w1)) := ss]>
                 (servers c);
             serverIDs :=
               <[ss := generateServerID originalID (now (env w1) (past w1)) (random (env w1) (past w1))]>
                 (serverIDs c) |},
          None)).
Proof.
  unfold connectWithTransport.
  destruct (sdk_Connect ct w) as [w1 [[ss originalID]|err]] eqn:Hsdk.
  - destruct (servers c !! _) as [old|] eqn:Hlook.
    + right; left. by exists w1, ss, originalID, old.
    + right; right. by exists w1, ss, originalID.
  - left. by exists w1, err.
Qed.

Lemma registry_inv_insert c id ss :
  registry_inv c → servers c !! id = None → serverIDs c !! ss = None →
  registry_inv {| servers := <[id := ss]> (servers c); serverIDs := <[ss := id]> (serverIDs c) |}.
Proof.
  intros [Hf Hb] Hid Hss. split; simpl.
  - intros id' ss'. rewrite lookup_insert. case_decide as Hd.
    + intros [= <-]. subst. by rewrite lookup_insert_eq.
    + intros Hl. rewrite lookup_insert_ne; [by apply Hf|].
      intros ->. apply Hf in Hl. congruence.
  - intros ss' id'. rewrite lookup_insert. case_decide as Hd.
    + intros [= <-]. subst. by rewrite lookup_insert_eq.
    + intros Hl. rewrite lookup_insert_ne; [by apply Hb|].
      intros ->. apply Hb in Hl. congruence.
Qed.

Lemma connectWithTransport_consistent c ct w w' c' err :
  consistent c w → connectWithTransport c ct w = (w', c', err) → consistent c' w'.
Proof.
  intros [Hinv Hlive Hclosed] Hrun.
  destruct (connectWithTransport_cases c ct w)
    as [(w1 & e & Hsdk & Heq) | [(w1 & ss & oid & old & Hsdk & Hlook & Heq)
                                | (w1 & ss & oid & Hsdk & Hlook & Heq)]];
    rewrite Heq in Hrun; injection Hrun as <- <- <-.
  - apply sdk_Connect_Err in Hsdk as (Hs & Hc & _).
    split; [done| |]; rewrite ?Hs, ?Hc; done.
  - apply sdk_Connect_Ok in Hsdk as (-> & Hs & Hc & _).
    split; [done| |]; simpl; rewrite ?Hs, ?Hc.
    + intros ss id Hl. apply Hlive in Hl. lia.
    + intros ss Hin. apply elem_of_app in Hin as [Hin|Hin].
      * destruct (Hclosed _ Hin). split; [lia|done].
      * apply list_elem_of_singleton in Hin as ->. split; [lia|].
        destruct (serverIDs c !! sessions (past w)) as [id|] eqn:Hl; [|done].
        apply Hlive in Hl. lia.
  - apply sdk_Connect_Ok in Hsdk as (-> & Hs & Hc & _).
    assert (serverIDs c !! sessions (past w) = None) as Hfresh.
    { destruct (serverIDs c !! sessions (past w)) as [id|] eqn:Hl; [|done].
      apply Hlive in Hl. lia. }
    split; simpl; rewrite ?Hs, ?Hc.
    + by apply registry_inv_insert.
    + intros ss id. rewrite lookup_insert. case_decide; [intros; lia|].
      intros Hl. apply Hlive in Hl. lia.
    + intros ss Hin. destruct (Hclosed _ Hin) as [Hlt Hnone]. split; [lia|].
      rewrite lookup_insert_ne; [done|lia].
Qed.

Lemma connect_all_consistent cts : ∀ c w w' c' errs,
  consistent c w → connect_all c cts w = (w', c', errs) → consistent c' w'.
Proof.
  induction cts as [|ct rest IH]; intros c w w' c' errs Hc; simpl.
  - by intros [= <- <- <-].
  - destruct (connectWithTransport c ct w) as [[w1 c1] err] eqn:Hstep.
    destruct (connect_all c1 rest w1) as [[w2 c2] errs'] eqn:Hrest.
    intros [= <- <- <-].
    eapply IH; [|exact Hrest]. eapply connectWithTransport_consistent; eauto.
Qed.

Lemma connect_all_size cts : ∀ c w w' c' errs,
  connect_all c cts w = (w', c', errs) →
  size (servers c') = size (servers c) + length (filter (λ e, succeeded e = true) errs)
  ∧ length errs = length cts.
Proof.
  induction cts as [|ct rest IH]; intros c w w' c' errs; simpl.
  - intros [= <- <- <-]. simpl. lia.
  - destruct (connectWithTransport c ct w) as [[w1 c1] err] eqn:Hstep.
    destruct (connect_all c1 rest w1) as [[w2 c2] errs'] eqn:Hrest.
    intros [= <- <- <-]. apply IH in Hrest as [Hsize Hlen].
    rewrite Hsize. simpl. split; [|lia].
    destruct (connectWithTransport_cases c ct w)
      as [(w0 & e & _ & Heq) | [(w0 & ss & oid & old & _ & _ & Heq)
                               | (w0 & ss & oid & _ & Hlook & Heq)]];
      rewrite Heq in Hstep; injection Hstep as <- <- <-.
    + rewrite filter_cons_False; [done|]. simpl. discriminate.
    + rewrite filter_cons_False; [done|]. simpl. discriminate.
    + rewrite filter_cons_True by done. simpl.
      rewrite map_size_insert_None by done. lia.
Qed.

(** C10. After any sequence of connects, successful or not, the two maps of
    the registry are inverse to each other; one more connect keeps them
    so, and a connect that fails (a rejected duplicate in particular)
    leaves both maps as they were. *)
Theorem registry_maps_inverse (p : Provider) (cts : list Cmd) w c errs (ct : Cmd) w' c' err :
  connect_all NewClient cts (initial p) = (w, c, errs) →
  connectWithTransport c ct w = (w', c', err) →
  (∀ id ss, servers c !! id = Some ss ↔ serverIDs c !! ss = Some id)
  ∧ (∀ id ss, servers c' !! id = Some ss ↔ serverIDs c' !! ss = Some id)
  ∧ (is_Some err → servers c' = servers c ∧ serverIDs c' = serverIDs c).
Proof.
  intros Hrun Hstep.
  pose proof (connect_all_consistent _ _ _ _ _ _ (consistent_initial p) Hrun) as Hc.
  pose proof (connectWithTransport_consistent _ _ _ _ _ _ Hc Hstep) as Hc'.
  split; [|split].
  - intros id ss. destruct (cons_inv _ _ Hc) as [Hf Hb]. split; eauto.
  - intros id ss. destruct (cons_inv _ _ Hc') as [Hf Hb]. split; eauto.
  - intros Herr.
    destruct (connectWithTransport_cases c ct w)
      as [(w0 & e & _ & Heq) | [(w0 & ss & oid & old & _ & _ & Heq)
                               | (w0 & ss & oid & _ & _ & Heq)]];
      rewrite Heq in Hstep; injection Hstep as <- <- <-; [done|done|].
    by destruct Herr as [? [=]].
Qed.

(** C2. A connect whose id is already registered closes the new session and
    fails with the duplicate-id error; the registry is unchanged, and the
    session registered earlier under that id stays registered and is not
    closed. After any sequence of connects the registry holds as many
    entries as connects have succeeded. *)
Theorem duplicate_id_rejected (p : Provider) (cts : list Cmd) w c errs :
  connect_all NewClient cts (initial p) = (w, c, errs) →
  size (servers c) = length (filter (λ e, succeeded e = true) errs)
  ∧ ∀ ct w1 ss originalID old,
      sdk_Connect ct w = (w1, Ok (ss, originalID)) →
      servers c !! generateServerID originalID (now (env w1) (past w1)) (random (env w1) (past w1))
        = Some old →
      connectWithTransport c ct w =
        (Close ss w1, c,
         Some ("server with ID "
               +:+ generateServerID originalID (now (env w1) (past w1)) (random (env w1) (past w1))
               +:+ " already exists"))
      ∧ closed (past (Close ss w1)) = closed (past w) ++ [ss]
      ∧ old ≠ ss
      ∧ old ∉ closed (past (Close ss w1)).
Proof.
  intros Hrun.
  pose proof (connect_all_consistent _ _ _ _ _ _ (consistent_initial p) Hrun) as Hc.
  split.
  { apply connect_all_size in Hrun as [Hsize _]. rewrite Hsize. simpl.
    rewrite map_size_empty. lia. }
  intros ct w1 ss originalID old Hsdk Hlook.
  assert (old < sessions (past w) ∧ old ∉ closed (past w)) as [Hlt Hopen].
  { destruct (cons_inv _ _ Hc) as [Hf _]. apply Hf in Hlook. split.
    - eapply cons_live; eauto.
    - intros Hin. apply (cons_closed _ _ Hc) in Hin as [_ Hnone]. congruence. }
  split.
  { unfold connectWithTransport. rewrite Hsdk. by rewrite Hlook. }
  apply sdk_Connect_Ok in Hsdk as (-> & _ & Hcl & _).
  simpl. rewrite Hcl. split; [done|]. split; [lia|].
  intros Hin. apply elem_of_app in Hin as [Hin|Hin]; [done|].
  apply list_elem_of_singleton in Hin. lia.
Qed.

(** ** Display names and routing *)

Lemma append_length (s t : string) : String.length (s +:+ t) = String.length s + String.length t.
Proof. induction s as [|c s IH]; simpl; [done|]. by rewrite IH. Qed.

Lemma append_inj_l (s1 s2 t : string) : s1 +:+ t = s2 +:+ t → s1 = s2.
Proof.
  revert s2. induction s1 as [|c s1 IH]; intros [|c2 s2] Heq; simpl in *.
  - done.
  - apply (f_equal String.length) in Heq. simpl in Heq.
    rewrite !append_length in Heq. simpl in Heq. lia.
  - apply (f_equal String.length) in Heq. simpl in Heq.
    rewrite !append_length in Heq. simpl in Heq. lia.
  - injection Heq as -> Heq. f_equal. by apply IH.
Qed.

Lemma before_colon_display (id name : string) :
  has_colon id = false → before_colon (id +:+ ":" +:+ name) = id.
Proof.
  induction id as [|c id IH]; simpl; [done|].
  destruct (Ascii.eqb c ":"); simpl; [discriminate|].
  intros H. by rewrite IH.
Qed.

Lemma server_tools_sound id yields : ∀ acc res,
  server_tools id yields acc = Ok res →
  ∃ new, res = acc ++ new ∧
    ∀ t, t ∈ new → ∃ mcpTool, (Some mcpTool, None) ∈ yields ∧ tool_of id mcpTool t.
Proof.
  induction yields as [|[[mcpTool|] [err|]] rest IH]; intros acc res; simpl.
  - intros [= <-]. exists []. rewrite app_nil_r. split; [done|].
    intros t Hin. by apply elem_of_nil in Hin.
  - discriminate.
  - destruct (InputSchema mcpTool) as [schema|].
    + destruct (ConvertViaJSON _ _) as [ps|e]; [|discriminate].
      intros Hrec. apply IH in Hrec as (new & -> & Hnew).
      exists (with_Parameters (commonTool id mcpTool) ps :: new).
      split; [by rewrite <- app_assoc|].
      intros t Hin. apply elem_of_cons in Hin as [->|Hin].
      * exists mcpTool. split; [left|]. by repeat split.
      * destruct (Hnew _ Hin) as (m & Hm & Ht). exists m. split; [by right|done].
    + intros Hrec. apply IH in Hrec as (new & -> & Hnew).
      exists (commonTool id mcpTool :: new).
      split; [by rewrite <- app_assoc|].
      intros t Hin. apply elem_of_cons in Hin as [->|Hin].
      * exists mcpTool. split; [left|]. by repeat split.
      * destruct (Hnew _ Hin) as (m & Hm & Ht). exists m. split; [by right|done].
  - discriminate.
  - intros Hrec. apply IH in Hrec as (new & -> & Hnew).
    exists new. split; [done|].
    intros t Hin. destruct (Hnew _ Hin) as (m & Hm & Ht). exists m. split; [by right|done].
Qed.

Lemma all_tools_sound c order : ∀ acc w w1 res,
  all_tools c order acc w = (w1, Ok res) →
  env w1 = env w ∧
  ∃ new, res = acc ++ new ∧
    ∀ t, t ∈ new →
      ∃ key ss h mcpTool, (key, ss) ∈ order ∧ (Some mcpTool, None) ∈ list_tools (env w) h ss
        ∧ tool_of (default "" (serverIDs c !! ss)) mcpTool t.
Proof.
  induction order as [|[key ss] rest IH]; intros acc w w1 res; simpl.
  - intros [= <- <-]. split; [done|]. exists []. rewrite app_nil_r. split; [done|].
    intros t Hin. by apply elem_of_nil in Hin.
  - destruct (server_tools _ _ acc) as [acc'|e] eqn:Hserver; [|discriminate].
    intros Hrec. apply IH in Hrec as (Henv & new & -> & Hnew).
    apply server_tools_sound in Hserver as (new0 & -> & Hnew0).
    split; [done|]. exists (new0 ++ new). split; [by rewrite app_assoc|].
    intros t Hin. apply elem_of_app in Hin as [Hin|Hin].
    + destruct (Hnew0 _ Hin) as (m & Hm & Ht).
      exists key, ss, (past w), m. split; [left|done].
    + destruct (Hnew _ Hin) as (k & s & h & m & Hk & Hm & Ht).
      exists k, s, h, m. split; [by right|done].
Qed.

(** Every tool [Tools] returns comes from a native tool of a registered
    session and carries that session's id. *)
Lemma Tools_sound c order w w1 res :
  registry_inv c → order ≡ₚ map_to_list (servers c) →
  Tools c order w = (w1, Ok res) →
  ∀ t, t ∈ res →
    ∃ id ss h mcpTool, servers c !! id = Some ss
      ∧ (Some mcpTool, None) ∈ list_tools (env w) h ss ∧ tool_of id mcpTool t.
Proof.
  intros [Hf _] Hperm. unfold Tools. case_bool_decide; [discriminate|].
  destruct (all_tools c order [] w) as [w2 [res'|e]] eqn:Hall; [|discriminate].
  case_bool_decide; [discriminate|]. intros [= <- <-] t Hin.
  apply all_tools_sound in Hall as (_ & new & -> & Hnew). simpl in Hin.
  destruct (Hnew _ Hin) as (key & ss & h & m & Hk & Hm & Ht).
  rewrite Hperm in Hk. apply elem_of_map_to_list in Hk.
  exists key, ss, h, m. rewrite (Hf _ _ Hk) in Ht. done.
Qed.

Lemma Execute_registered e arguments c w ss :
  servers c !! serverID e = Some ss →
  ∃ w1 r, Execute e arguments c w = (w1, r)
    ∧ calls (past w1) = calls (past w) ++ [(ss, {| Name := toolName e; Arguments := arguments |})]
    ∧ env w1 = env w.
Proof.
  intros Hl. unfold Execute. rewrite Hl. unfold CallTool.
  destruct (call_tool _ _ _ _) as [res|err]; [destruct (Content_ res)|];
    eexists _, _; (split; [reflexivity|done]).
Qed.

(** C1 (amended). In every registry reached by connects, each tool that
    [Tools] returns is named [<id>:<native name>] for a registered
    connection [id] and a native tool of it, so the same native name under
    another id gives another display name; executing the tool sends exactly
    one call, to that connection, with the native name and the given
    arguments. The id is the part of the display name before its first
    [':'] whenever the id itself has no [':']. With [A] offering [ping] and
    [B] offering [ping] and [status], [Tools] returns [A:ping], [B:ping],
    [B:status] in whatever order the map is visited, and executing [B:ping]
    calls only [B]'s [ping]. *)
Theorem tools_display_names_and_routing :
  (∀ (p : Provider) (cts : list Cmd) w c errs order w1 res,
     connect_all NewClient cts (initial p) = (w, c, errs) →
     order ≡ₚ map_to_list (servers c) →
     Tools c order w = (w1, Ok res) →
     ∀ t, t ∈ res →
       ∃ id ss h mcpTool e,
         servers c !! id = Some ss ∧ serverIDs c !! ss = Some id
         ∧ (Some mcpTool, None) ∈ list_tools (env w) h ss
         ∧ tool.Name t = id +:+ ":" +:+ tool_Name mcpTool
         ∧ tool.Executor t = Some e ∧ serverID e = id ∧ toolName e = tool_Name mcpTool
         ∧ (∀ id', id' ≠ id → id' +:+ ":" +:+ tool_Name mcpTool ≠ tool.Name t)
         ∧ (∀ arguments w2, ∃ w3 r,
              tool.Tool_Execute t arguments (c, w2) = ((c, w3), r)
              ∧ calls (past w3)
                = calls (past w2) ++ [(ss, {| Name := tool_Name mcpTool; Arguments := arguments |})])
         ∧ (has_colon id = false → before_colon (tool.Name t) = id))
  ∧ (∀ order, order ≡ₚ map_to_list (servers Demo.client_AB) →
       ∃ res, (Tools Demo.client_AB order Demo.world_AB).2 = Ok res
         ∧ tool.Name <$> res ≡ₚ ["A:ping"; "B:ping"; "B:status"]
         ∧ ∀ t, t ∈ res → tool.Name t = "B:ping" →
             calls (past (tool.Tool_Execute t ∅ (Demo.client_AB, Demo.world_AB)).1.2)
             = [(1, {| Name := "ping"; Arguments := ∅ |})]).
Proof.
  split.
  - intros p cts w c errs order w1 res Hrun Hperm Htools t Hin.
    pose proof (connect_all_consistent _ _ _ _ _ _ (consistent_initial p) Hrun) as Hc.
    destruct (Tools_sound _ _ _ _ _ (cons_inv _ _ Hc) Hperm Htools t Hin)
      as (id & ss & h & mcpTool & Hl & Hm & Hname & Hfn & Hex).
    exists id, ss, h, mcpTool, {| serverID := id; toolName := tool_Name mcpTool; originalTool := mcpTool |}.
    destruct (cons_inv _ _ Hc) as [Hf _].
    repeat split; try done.
    + by apply Hf.
    + intros id' Hne Heq. rewrite Hname in Heq. by apply append_inj_l in Heq.
    + intros arguments w2.
      destruct (Execute_registered
                  {| serverID := id; toolName := tool_Name mcpTool; originalTool := mcpTool |}
                  arguments c w2 ss Hl) as (w3 & r & Hexec & Hcalls & _).
      exists w3, r. split; [|done].
      unfold tool.Tool_Execute. rewrite Hex.
      unfold tool.Execute, MCPToolExecutor_ToolExecutor. simpl. by rewrite Hexec.
    + intros Hcolon. rewrite Hname. by apply before_colon_display.
  - intros order Hperm.
    assert (map_to_list (servers Demo.client_AB) = [("A", 0); ("B", 1)]) as Hlist
      by (vm_compute; reflexivity).
    rewrite Hlist in Hperm. symmetry in Hperm.
    apply Permutation_length_2_inv in Hperm as [-> | ->].
    + eexists. split; [vm_compute; reflexivity|]. split; [done|].
      intros t Hin Hname.
      repeat (apply elem_of_cons in Hin as [-> | Hin]); try discriminate Hname;
        [vm_compute; reflexivity | by apply elem_of_nil in Hin].
    + eexists. split; [vm_compute; reflexivity|]. split.
      { simpl. apply Permutation_sym. apply (Permutation_cons_append ["B:ping"; "B:status"] "A:ping"). }
      intros t Hin Hname.
      repeat (apply elem_of_cons in Hin as [-> | Hin]); try discriminate Hname;
        [vm_compute; reflexivity | by apply elem_of_nil in Hin].
Qed.

Lemma tools_display_names_and_routing_witness :
  ∃ id ss h mcpTool e,
    servers Demo.client_AB !! id = Some ss ∧ serverIDs Demo.client_AB !! ss = Some id
    ∧ (Some mcpTool, None) ∈ list_tools (env Demo.world_AB) h ss
    ∧ "B:ping" = id +:+ ":" +:+ tool_Name mcpTool
    ∧ Some {| serverID := "B"; toolName := "ping"; originalTool := Demo.ping |} = Some e
    ∧ serverID e = id ∧ toolName e = tool_Name mcpTool
    ∧ (∀ id', id' ≠ id → id' +:+ ":" +:+ tool_Name mcpTool ≠ "B:ping")
    ∧ (∀ arguments w2, ∃ w3 r,
         tool.Tool_Execute (commonTool "B" Demo.ping) arguments (Demo.client_AB, w2) = ((Demo.client_AB, w3), r)
         ∧ calls (past w3)
           = calls (past w2) ++ [(ss, {| Name := tool_Name mcpTool; Arguments := arguments |})])
    ∧ (has_colon id = false → before_colon "B:ping" = id).
Proof.
  apply (proj1 tools_display_names_and_routing Demo.provider [Demo.cmd "A"; Demo.cmd "B"]
           Demo.world_AB Demo.client_AB Demo.connected_AB.2
           (map_to_list (servers Demo.client_AB))
           (Tools Demo.client_AB (map_to_list (servers Demo.client_AB)) Demo.world_AB).1
           [commonTool "A" Demo.ping; commonTool "B" Demo.ping;
            with_Parameters (commonTool "B" Demo.status)
              {| tool.Type_ := "object"; tool.Required := Some ["verbose"];
                 tool.Properties :=
                   Some {["verbose" := {| tool.prop_Type := "boolean"; tool.prop_Description := "";
                                          tool.prop_Items := json.Null; tool.prop_Enum := None |}]};
                 tool.Defs := json.Null; tool.Items := json.Null |}]
           ltac:(vm_compute; reflexivity) ltac:(reflexivity) ltac:(vm_compute; reflexivity)
           (commonTool "B" Demo.ping)).
  right. left.
Defined.

(** C1, as stated, fails when an id has a [':']: with the connections [a]
    and [a:b], the tool named [a:b:ping] belongs to [a:b]; the part of its
    name before the first [':'] is [a], the id of the other connection,
    and executing the tool calls [a:b] (session 1), not [a] (session 0). *)
Lemma colon_in_id_prefix_is_not_owner :
  ∃ res t,
    (Tools Demo.client_colon (map_to_list (servers Demo.client_colon)) Demo.world_colon).2 = Ok res
    ∧ t ∈ res
    ∧ tool.Name t = "a:b:ping"
    ∧ before_colon (tool.Name t) = "a"
    ∧ servers Demo.client_colon !! "a" = Some 0
    ∧ servers Demo.client_colon !! "a:b" = Some 1
    ∧ calls (past (tool.Tool_Execute t ∅ (Demo.client_colon, Demo.world_colon)).1.2)
      = [(1, {| Name := "ping"; Arguments := ∅ |})].
Proof.
  eexists _, (commonTool "a:b" Demo.ping).
  split; [vm_compute; reflexivity|].
  split; [left|].
  repeat split; vm_compute; reflexivity.
Qed.

(** ** Listing without connections or without tools *)

Lemma all_tools_none c order : ∀ w,
  (∀ key ss h, (key, ss) ∈ order → list_tools (env w) h ss = []) →
  ∃ w1, all_tools c order [] w = (w1, Ok [])
    ∧ listed (past w1) = listed (past w) ++ order.*2 ∧ env w1 = env w.
Proof.
  induction order as [|[key ss] rest IH]; intros w Hnone; simpl.
  - exists w. by rewrite app_nil_r.
  - rewrite (Hnone key ss (past w)) by left. simpl.
    destruct (IH (note_listed ss w)) as (w1 & Hall & Hlisted & Henv).
    { intros k s h Hin. apply (Hnone k s h). by right. }
    exists w1. rewrite Hall. split; [done|]. split; [|done].
    rewrite Hlisted. simpl. by rewrite <- app_assoc.
Qed.

(** C3. [Tools] on a registry without connections fails with "no servers
    connected"; on a registry with connections that all report no tool it
    asks every connection and then fails with "no tools found"; the two
    errors differ. *)
Theorem tools_no_connections_no_tools :
  (∀ c order w, servers c = ∅ → Tools c order w = (w, Err "no servers connected"))
  ∧ (∀ c order w,
       servers c ≠ ∅ → order ≡ₚ map_to_list (servers c) →
       (∀ id ss h, servers c !! id = Some ss → list_tools (env w) h ss = []) →
       ∃ w1, Tools c order w = (w1, Err "no tools found")
         ∧ listed (past w1) = listed (past w) ++ order.*2)
  ∧ "no servers connected" ≠ "no tools found".
Proof.
  split; [|split].
  - intros c order w Hempty. unfold Tools. rewrite Hempty, map_size_empty.
    by rewrite bool_decide_eq_true_2.
  - intros c order w Hne Hperm Hnone. unfold Tools.
    rewrite bool_decide_eq_false_2 by (by rewrite map_size_empty_iff).
    destruct (all_tools_none c order w) as (w1 & Hall & Hlisted & _).
    { intros key ss h Hin. rewrite Hperm in Hin. apply elem_of_map_to_list in Hin. eauto. }
    exists w1. by rewrite Hall.
  - discriminate.
Qed.

Lemma tools_no_connections_no_tools_witness :
  Tools NewClient [] (initial Demo.provider) = (initial Demo.provider, Err "no servers connected")
  ∧ ∃ w1, Tools Demo.connected_silent.1.2 (map_to_list (servers Demo.connected_silent.1.2))
            Demo.connected_silent.1.1 = (w1, Err "no tools found")
      ∧ listed (past w1)
        = listed (past Demo.connected_silent.1.1) ++ (map_to_list (servers Demo.connected_silent.1.2)).*2.
Proof.
  split.
  - apply (proj1 tools_no_connections_no_tools NewClient [] (initial Demo.provider)). reflexivity.
  - apply (proj1 (proj2 tools_no_connections_no_tools)).
    + intros H. apply (f_equal (λ m, m !! "A")) in H. vm_compute in H. discriminate.
    + reflexivity.
    + reflexivity.
Defined.

(** ** Executing a listed tool *)

Lemma content_string_join cs : content_string cs = join (omap fragment_text cs).
Proof.
  induction cs as [|[text|[jsonBytes|e]] rest IH]; simpl; [done| | |done];
    unfold join in *; simpl; by rewrite IH.
Qed.

(** C7 (amended). When the provider's call succeeds, [Execute] returns no
    error, whatever the result's [IsError] flag says. If the result has a
    content list, the string returned is the in-order concatenation of the
    fragments' texts: the text of a text fragment, the JSON form of any
    other fragment, nothing for a fragment whose JSON form cannot be made.
    If the result has no content list, the string is "Tool executed
    successfully". *)
Theorem execute_concatenates_content e arguments c w server res :
  servers c !! serverID e = Some server →
  call_tool (env w) (past w) server {| Name := toolName e; Arguments := arguments |} = Ok res →
  ∃ w1,
    Execute e arguments c w
    = (w1, Ok match Content_ res with
              | Some content => join (omap fragment_text content)
              | None => "Tool executed successfully"
              end)
    ∧ calls (past w1) = calls (past w) ++ [(server, {| Name := toolName e; Arguments := arguments |})].
Proof.
  intros Hl Hcall. unfold Execute, CallTool. rewrite Hl, Hcall.
  destruct (Content_ res) as [content|]; rewrite ?content_string_join;
    eexists; (split; [reflexivity|]); reflexivity.
Qed.

Lemma execute_concatenates_content_witness :
  ∃ w1,
    Execute Demo.executor_A_ping ∅ Demo.connected_mixed.1.2 Demo.connected_mixed.1.1
    = (w1, Ok "a{}b")
    ∧ calls (past w1)
      = calls (past Demo.connected_mixed.1.1) ++ [(0, {| Name := "ping"; Arguments := ∅ |})].
Proof.
  apply (execute_concatenates_content Demo.executor_A_ping ∅ Demo.connected_mixed.1.2
           Demo.connected_mixed.1.1 0 Demo.mixed_result); reflexivity.
Defined.

(** C7, as stated, fails for a result without a content list: its
    fragments concatenate to the empty string, and [Execute] returns
    "Tool executed successfully". *)
Lemma nil_content_is_not_concatenated :
  call_tool (env Demo.connected_bare.1.1) (past Demo.connected_bare.1.1) 0
    {| Name := "ping"; Arguments := ∅ |} = Ok {| Content_ := None; IsError := false |}
  ∧ join (omap fragment_text (elems (Content_ {| Content_ := None; IsError := false |}))) = ""
  ∧ (Execute Demo.executor_A_ping ∅ Demo.connected_bare.1.2 Demo.connected_bare.1.1).2
    = Ok "Tool executed successfully"
  ∧ (Execute Demo.executor_A_ping ∅ Demo.connected_bare.1.2 Demo.connected_bare.1.1).2
    ≠ Ok (join (omap fragment_text (elems (Content_ {| Content_ := None; IsError := false |})))).
Proof. repeat split; try (vm_compute; reflexivity). vm_compute. discriminate. Qed.

(** ** Dispatching the tool calls of a response *)

Section Dispatch.

Context {St E : Type} `{tool.ToolExecutor St E}.

Implicit Types (c : ollama.Client E) (st : St).

Lemma tool_messages_acc c toolCalls : ∀ acc st,
  ollama.tool_messages c toolCalls acc st
  = ((ollama.tool_messages c toolCalls [] st).1, acc ++ (ollama.tool_messages c toolCalls [] st).2).
Proof.
  induction toolCalls as [|toolCall rest IH]; intros acc st; simpl.
  - by rewrite app_nil_r.
  - destruct (ollama.ExecuteToolCall c toolCall st) as [st1 r].
    rewrite (IH (acc ++ _)), (IH [_]). simpl. by rewrite <- app_assoc.
Qed.

Lemma tool_messages_cons c toolCall rest st :
  ollama.tool_messages c (toolCall :: rest) [] st
  = ((ollama.tool_messages c rest [] (ollama.ExecuteToolCall c toolCall st).1).1,
     tool_message (ollama.ExecuteToolCall c toolCall st).2
       :: (ollama.tool_messages c rest [] (ollama.ExecuteToolCall c toolCall st).1).2).
Proof.
  simpl. destruct (ollama.ExecuteToolCall c toolCall st) as [st1 r].
  rewrite tool_messages_acc. simpl. by destruct r.
Qed.

Lemma tool_messages_length c toolCalls : ∀ st,
  length (ollama.tool_messages c toolCalls [] st).2 = length toolCalls.
Proof.
  induction toolCalls as [|toolCall rest IH]; intros st; [done|].
  rewrite tool_messages_cons. simpl. by rewrite IH.
Qed.

Lemma tool_messages_lookup c toolCalls : ∀ st i toolCall,
  toolCalls !! i = Some toolCall →
  (ollama.tool_messages c toolCalls [] st).2 !! i
  = Some (tool_message
            (ollama.ExecuteToolCall c toolCall
               (ollama.tool_messages c (take i toolCalls) [] st).1).2).
Proof.
  induction toolCalls as [|first rest IH]; intros st i toolCall; [done|].
  rewrite tool_messages_cons. destruct i as [|i]; simpl.
  - by intros [= ->].
  - intros Hl. rewrite (IH _ _ _ Hl).
    destruct (ollama.ExecuteToolCall c first st) as [st1 r]. simpl.
    by rewrite (tool_messages_acc c (take i rest) [_]).
Qed.

(** C4. [HandleToolCallsInResponse] never returns an error. It returns one
    message per tool call of the response, in the order of the calls: the
    i-th message has the role "tool" and holds the result of executing the
    i-th call after the calls before it, or, when that execution failed,
    the text "Tool execution failed: " followed by the error. For a
    response without tool calls it returns nothing and does nothing. *)
Theorem handle_tool_calls_one_message_each c (response : api.ChatResponse) st :
  ∃ st' msgs,
    ollama.HandleToolCallsInResponse c response st = (st', (msgs, None))
    ∧ length (elems msgs) = length (api.ToolCalls response)
    ∧ (∀ i toolCall,
         api.ToolCalls response !! i = Some toolCall →
         elems msgs !! i
         = Some {| api.Role := "tool";
                   api.Content :=
                     match (ollama.ExecuteToolCall c toolCall
                              (ollama.tool_messages c (take i (api.ToolCalls response)) [] st).1).2
                     with
                     | Ok res => res
                     | Err err => "Tool execution failed: " +:+ err
                     end |})
    ∧ (api.ToolCalls response = [] → msgs = None ∧ st' = st).
Proof.
  unfold ollama.HandleToolCallsInResponse.
  destruct (api.ToolCalls response) as [|toolCall rest] eqn:Hcalls.
  - exists st, None. repeat split; try done.
  - destruct (ollama.tool_messages c (toolCall :: rest) [] st) as [st1 newMessages] eqn:Hrun.
    exists st1, (Some newMessages). split; [done|].
    assert (newMessages = (ollama.tool_messages c (toolCall :: rest) [] st).2) as ->
      by (by rewrite Hrun).
    split; [apply tool_messages_length|]. split; [|discriminate].
    intros i tc Hl. exact (tool_messages_lookup _ _ _ _ _ Hl).
Qed.

End Dispatch.

Lemma handle_tool_calls_one_message_each_witness :
  ∃ st' msgs,
    ollama.HandleToolCallsInResponse Demo.adapter Demo.response_two (Demo.client_AB, Demo.world_AB)
    = (st', (msgs, None))
    ∧ length (elems msgs) = 2
    ∧ elems msgs !! 0 = Some {| api.Role := "tool"; api.Content := "pong" |}
    ∧ elems msgs !! 1
      = Some {| api.Role := "tool";
                api.Content := "Tool execution failed: tool execution failed: "
                               +:+ "failed to call tool status: connection closed" |}.
Proof.
  destruct (handle_tool_calls_one_message_each Demo.adapter Demo.response_two
              (Demo.client_AB, Demo.world_AB)) as (st' & msgs & Heq & Hlen & Hith & _).
  exists st', msgs. split; [exact Heq|]. split; [exact Hlen|]. split.
  - exact (Hith 0 (Demo.call "B:ping") eq_refl).
  - exact (Hith 1 (Demo.call "B:status") eq_refl).
Defined.

(** ** Connecting from a list of configurations *)

Lemma connectWithTransport_dialed c ct w w' c' err :
  connectWithTransport c ct w = (w', c', err) →
  dialed (past w') = dialed (past w) ++ [ct].
Proof.
  intros Hstep.
  destruct (connectWithTransport_cases c ct w)
    as [(w0 & e & Hsdk & Heq) | [(w0 & ss & oid & old & Hsdk & _ & Heq)
                               | (w0 & ss & oid & Hsdk & _ & Heq)]];
    rewrite Heq in Hstep; injection Hstep as <- <- <-.
  - by apply sdk_Connect_Err in Hsdk as (_ & _ & Hd & _).
  - by apply sdk_Connect_Ok in Hsdk as (_ & _ & _ & Hd & _).
  - by apply sdk_Connect_Ok in Hsdk as (_ & _ & _ & Hd & _).
Qed.

Lemma connect_all_dialed cts : ∀ c w w' c' errs,
  connect_all c cts w = (w', c', errs) →
  dialed (past w') = dialed (past w) ++ cts.
Proof.
  induction cts as [|ct rest IH]; intros c w w' c' errs; simpl.
  - intros [= <- <- <-]. by rewrite app_nil_r.
  - destruct (connectWithTransport c ct w) as [[w1 c1] err] eqn:Hstep.
    destruct (connect_all c1 rest w1) as [[w2 c2] errs'] eqn:Hrest.
    intros [= <- <- <-]. rewrite (IH _ _ _ _ _ Hrest).
    rewrite (connectWithTransport_dialed _ _ _ _ _ _ Hstep). by rewrite <- app_assoc.
Qed.

(** A connect that succeeds registers the session just created and keeps
    every session registered before. *)
Lemma connectWithTransport_registers c ct w w' c' :
  connectWithTransport c ct w = (w', c', None) →
  sessions (past w') = S (sessions (past w))
  ∧ is_Some (serverIDs c' !! sessions (past w))
  ∧ ∀ ss, is_Some (serverIDs c !! ss) → is_Some (serverIDs c' !! ss).
Proof.
  intros Hstep.
  destruct (connectWithTransport_cases c ct w)
    as [(w0 & e & Hsdk & Heq) | [(w0 & ss & oid & old & Hsdk & _ & Heq)
                               | (w0 & ss & oid & Hsdk & _ & Heq)]];
    rewrite Heq in Hstep; try discriminate Hstep. injection Hstep as <- <-.
  apply sdk_Connect_Ok in Hsdk as (-> & Hs & _). simpl.
  split; [done|]. split.
  - rewrite lookup_insert_eq. eauto.
  - intros ss' Hsome. rewrite lookup_insert. by case_decide.
Qed.

Lemma connect_all_registers cts : ∀ c w w' c' errs,
  connect_all c cts w = (w', c', errs) → Forall (λ e, e = None) errs →
  (∀ i, i < length cts → is_Some (serverIDs c' !! (sessions (past w) + i)))
  ∧ ∀ ss, is_Some (serverIDs c !! ss) → is_Some (serverIDs c' !! ss).
Proof.
  induction cts as [|ct rest IH]; intros c w w' c' errs; simpl.
  - intros [= <- <- <-] _. split; [intros; lia|done].
  - destruct (connectWithTransport c ct w) as [[w1 c1] err] eqn:Hstep.
    destruct (connect_all c1 rest w1) as [[w2 c2] errs'] eqn:Hrest.
    intros [= <- <- <-] Hall. apply Forall_cons in Hall as [-> Hall].
    apply connectWithTransport_registers in Hstep as (Hs & Hnew & Hkeep).
    destruct (IH _ _ _ _ _ Hrest Hall) as [Hrange Hkeep'].
    split; [|by eauto].
    intros [|i] Hi.
    + rewrite Nat.add_0_r. by apply Hkeep'.
    + replace (sessions (past w) + S i) with (sessions (past w1) + i) by lia.
      apply Hrange. lia.
Qed.

Lemma ConnectFromConfigs_all configs : ∀ c visits e w e' cmds w' c' errs,
  launch.commands configs visits e = (e', cmds) →
  connect_all c cmds w = (w', c', errs) → Forall (λ e, e = None) errs →
  launch.ConnectFromConfigs c configs visits (e, w) = ((e', w'), c', None).
Proof.
  induction configs as [|config rest IH]; intros c visits e w e' cmds w' c' errs;
    cbn [launch.commands launch.ConnectFromConfigs].
  - intros [= <- <-]. simpl. by intros [= <- <- <-].
  - unfold launch.ConnectFromConfig, ConnectWithCommand. cbn [fst snd].
    destruct (config.CreateCommand config (visits 0) e) as [e1 cmd].
    destruct (launch.commands rest (λ i, visits (S i)) e1) as [e2 cmds'] eqn:Hcmds.
    intros [= <- <-]. cbn [connect_all].
    destruct (connectWithTransport c cmd w) as [[w1 c1] err] eqn:Hstep.
    destruct (connect_all c1 cmds' w1) as [[w2 c2] errs'] eqn:Hrest.
    intros [= <- <- <-] Hall. apply Forall_cons in Hall as [-> Hall].
    by apply (IH _ _ _ _ _ _ _ _ _ Hcmds Hrest).
Qed.

Lemma ConnectFromConfigs_abort pre :
  ∀ c visits e w e0 cmds w1 c1 errs cfg post e1 cmd w2 c2 err,
  launch.commands pre visits e = (e0, cmds) →
  connect_all c cmds w = (w1, c1, errs) → Forall (λ e, e = None) errs →
  config.CreateCommand cfg (visits (length pre)) e0 = (e1, cmd) →
  ConnectWithCommand c1 cmd w1 = (w2, c2, Some err) →
  launch.ConnectFromConfigs c (pre ++ cfg :: post) visits (e, w)
  = ((e1, w2), c2, Some ("failed to connect to server " +:+ cfg_Name cfg +:+ ": " +:+ err)).
Proof.
  induction pre as [|config rest IH];
    intros c visits e w e0 cmds w1 c1 errs cfg post e1 cmd w2 c2 err;
    cbn [launch.commands launch.ConnectFromConfigs app length].
  - intros [= <- <-]. cbn [connect_all]. intros [= <- <- <-] _ Hcmd Hfail.
    unfold launch.ConnectFromConfig. cbn [fst snd]. by rewrite Hcmd, Hfail.
  - unfold launch.ConnectFromConfig at 1. unfold ConnectWithCommand at 1. cbn [fst snd].
    destruct (config.CreateCommand config (visits 0) e) as [e' cmd'].
    destruct (launch.commands rest (λ i, visits (S i)) e') as [e2 cmds'] eqn:Hcmds.
    intros [= <- <-]. cbn [connect_all].
    destruct (connectWithTransport c cmd' w) as [[w0 c0] e0'] eqn:Hstep.
    destruct (connect_all c0 cmds' w0) as [[w3 c3] errs'] eqn:Hrest.
    intros [= <- <- <-] Hall Hcmd Hfail. apply Forall_cons in Hall as [-> Hall].
    unfold ConnectWithCommand. rewrite Hstep.
    by apply (IH _ _ _ _ _ _ _ _ _ _ _ _ _ _ _ _ Hcmds Hrest Hall Hcmd Hfail).
Qed.

Lemma commands_length configs : ∀ visits e,
  length (launch.commands configs visits e).2 = length configs.
Proof.
  induction configs as [|config rest IH]; intros visits e; cbn [launch.commands]; [done|].
  destruct (config.CreateCommand config (visits 0) e) as [e1 cmd].
  specialize (IH (λ i, visits (S i)) e1).
  destruct (launch.commands rest (λ i, visits (S i)) e1) as [e2 cmds]. simpl in *. by rewrite IH.
Qed.

(** C9. [ConnectFromConfigs] takes the configurations one after the
    other, in order: it builds the command of a configuration, which puts
    the configuration's variables into the environment of the process and
    expands the references to variables, and connects it. When a connect
    fails after all the ones before it succeeded, that error, prefixed
    with the configuration's name, is returned at once: the registry, the
    environment and the provider side are as that failed connect left
    them, and nothing after it has been built or dialed. When every
    connect succeeds, no error is returned and the session of every
    configuration is registered. *)
Theorem connect_from_configs_stops_at_first_failure :
  (∀ c pre cfg post visits e w e0 cmds w1 c1 errs e1 cmd w2 c2 err,
     launch.commands pre visits e = (e0, cmds) →
     connect_all c cmds w = (w1, c1, errs) →
     Forall (λ e, e = None) errs →
     config.CreateCommand cfg (visits (length pre)) e0 = (e1, cmd) →
     ConnectWithCommand c1 cmd w1 = (w2, c2, Some err) →
     launch.ConnectFromConfigs c (pre ++ cfg :: post) visits (e, w)
     = ((e1, w2), c2, Some ("failed to connect to server " +:+ cfg_Name cfg +:+ ": " +:+ err))
     ∧ dialed (past w2) = dialed (past w) ++ cmds ++ [cmd])
  ∧ (∀ c configs visits e w e' cmds w' c' errs,
       launch.commands configs visits e = (e', cmds) →
       connect_all c cmds w = (w', c', errs) →
       Forall (λ e, e = None) errs →
       launch.ConnectFromConfigs c configs visits (e, w) = ((e', w'), c', None)
       ∧ size (servers c') = size (servers c) + length configs
       ∧ (∀ i, i < length configs → is_Some (serverIDs c' !! (sessions (past w) + i)))
       ∧ dialed (past w') = dialed (past w) ++ cmds).
Proof.
  split.
  - intros c pre cfg post visits e w e0 cmds w1 c1 errs e1 cmd w2 c2 err
      Hcmds Hpre Hall Hcmd Hfail.
    split; [by eapply ConnectFromConfigs_abort|].
    apply connect_all_dialed in Hpre.
    apply connectWithTransport_dialed in Hfail. rewrite Hfail, Hpre.
    by rewrite <- app_assoc.
  - intros c configs visits e w e' cmds w' c' errs Hcmds Hrun Hall.
    pose proof (commands_length configs visits e) as Hlen'. rewrite Hcmds in Hlen'. simpl in Hlen'.
    split; [by eapply ConnectFromConfigs_all|].
    split; [|split].
    + destruct (connect_all_size _ _ _ _ _ _ Hrun) as [Hsize Hlen].
      rewrite Hsize. f_equal. rewrite <- Hlen', <- Hlen.
      clear -Hall. induction Hall as [|e errs -> _ IH]; [done|].
      rewrite filter_cons_True by done. simpl. by rewrite IH.
    + destruct (connect_all_registers _ _ _ _ _ _ Hrun Hall) as [Hrange _].
      intros i Hi. apply Hrange. by rewrite Hlen'.
    + by apply connect_all_dialed in Hrun.
Qed.

Lemma connect_from_configs_stops_at_first_failure_witness :
  (launch.ConnectFromConfigs NewClient [launch.cfg_first; launch.cfg_broken; launch.cfg_last]
     launch.visits (launch.home, initial Demo.provider)).2
  = Some "failed to connect to server broken: failed to connect to MCP server: exec: not found"
  ∧ dialed (past (launch.ConnectFromConfigs NewClient
                    [launch.cfg_first; launch.cfg_broken; launch.cfg_last]
                    launch.visits (launch.home, initial Demo.provider)).1.1.2)
    = [ {| Path := "A"; Args := []; Env := Some ["HOME=/home/u"; "BIN=bad"; "BIN=bad"] |};
        {| Path := "bad"; Args := ["--root"; "/home/u/x"]; Env := None |} ]
  ∧ (launch.ConnectFromConfigs NewClient [launch.cfg_first; launch.cfg_last]
       launch.visits (launch.home, initial Demo.provider)).2 = None
  ∧ size (servers Demo.client_AB) = 2
  ∧ is_Some (serverIDs Demo.client_AB !! 0) ∧ is_Some (serverIDs Demo.client_AB !! 1).
Proof.
  pose (cmd_first := {| Path := "A"; Args := []; Env := Some ["HOME=/home/u"; "BIN=bad"; "BIN=bad"] |}).
  pose (cmd_broken := {| Path := "bad"; Args := ["--root"; "/home/u/x"]; Env := None |}).
  pose (e1 := [("HOME", "/home/u"); ("BIN", "bad")]).
  destruct (proj1 connect_from_configs_stops_at_first_failure NewClient
              [launch.cfg_first] launch.cfg_broken [launch.cfg_last] launch.visits launch.home
              (initial Demo.provider) e1 [cmd_first]
              (connect_all NewClient [cmd_first] (initial Demo.provider)).1.1
              (connect_all NewClient [cmd_first] (initial Demo.provider)).1.2
              [None] e1 cmd_broken
              (ConnectWithCommand (connect_all NewClient [cmd_first] (initial Demo.provider)).1.2
                 cmd_broken (connect_all NewClient [cmd_first] (initial Demo.provider)).1.1).1.1
              (ConnectWithCommand (connect_all NewClient [cmd_first] (initial Demo.provider)).1.2
                 cmd_broken (connect_all NewClient [cmd_first] (initial Demo.provider)).1.1).1.2
              "failed to connect to MCP server: exec: not found"
              ltac:(vm_compute; reflexivity)
              ltac:(vm_compute; reflexivity)
              ltac:(repeat constructor)
              ltac:(vm_compute; reflexivity)
              ltac:(vm_compute; reflexivity)) as [Habort Hdialed].
  destruct (proj2 connect_from_configs_stops_at_first_failure NewClient
              [launch.cfg_first; launch.cfg_last] launch.visits launch.home
              (initial Demo.provider) e1 [cmd_first; Demo.cmd "B"]
              (connect_all NewClient [cmd_first; Demo.cmd "B"] (initial Demo.provider)).1.1
              Demo.client_AB [None; None]
              ltac:(vm_compute; reflexivity)
              ltac:(vm_compute; reflexivity)
              ltac:(repeat constructor)) as (Hok & Hsize & Hreg & _).
  split; [exact (f_equal snd Habort)|].
  split; [exact (eq_trans (f_equal (λ r, dialed (past r.1.1.2)) Habort) Hdialed)|].
  split; [exact (f_equal snd Hok)|]. split; [exact Hsize|].
  split; [exact (Hreg 0 ltac:(simpl; lia)) | exact (Hreg 1 ltac:(simpl; lia))].
Defined.

Lemma registry_maps_inverse_witness :
  (connectWithTransport Demo.client_AB (Demo.cmd "A") Demo.world_AB).2
  = Some "server with ID A already exists"
  ∧ (∀ id ss, servers Demo.client_AB !! id = Some ss ↔ serverIDs Demo.client_AB !! ss = Some id)
  ∧ servers (connectWithTransport Demo.client_AB (Demo.cmd "A") Demo.world_AB).1.2
    = servers Demo.client_AB
  ∧ serverIDs (connectWithTransport Demo.client_AB (Demo.cmd "A") Demo.world_AB).1.2
    = serverIDs Demo.client_AB.
Proof.
  destruct (registry_maps_inverse Demo.provider [Demo.cmd "A"; Demo.cmd "B"]
              Demo.world_AB Demo.client_AB Demo.connected_AB.2 (Demo.cmd "A")
              (connectWithTransport Demo.client_AB (Demo.cmd "A") Demo.world_AB).1.1
              (connectWithTransport Demo.client_AB (Demo.cmd "A") Demo.world_AB).1.2
              (connectWithTransport Demo.client_AB (Demo.cmd "A") Demo.world_AB).2
              ltac:(vm_compute; reflexivity) ltac:(vm_compute; reflexivity))
    as (Hinv & _ & Hsame).
  split; [vm_compute; reflexivity|]. split; [exact Hinv|].
  apply Hsame. vm_compute. eauto.
Defined.

Lemma duplicate_id_rejected_witness :
  size (servers Demo.client_AB) = 2
  ∧ connectWithTransport Demo.client_AB (Demo.cmd "A") Demo.world_AB
    = (Close 2 (sdk_Connect (Demo.cmd "A") Demo.world_AB).1, Demo.client_AB,
       Some "server with ID A already exists")
  ∧ closed (past (Close 2 (sdk_Connect (Demo.cmd "A") Demo.world_AB).1)) = [2]
  ∧ 0 ≠ 2
  ∧ 0 ∉ closed (past (Close 2 (sdk_Connect (Demo.cmd "A") Demo.world_AB).1)).
Proof.
  destruct (duplicate_id_rejected Demo.provider [Demo.cmd "A"; Demo.cmd "B"]
              Demo.world_AB Demo.client_AB Demo.connected_AB.2
              ltac:(vm_compute; reflexivity)) as [Hsize Hdup].
  split; [exact Hsize|].
  exact (Hdup (Demo.cmd "A") (sdk_Connect (Demo.cmd "A") Demo.world_AB).1 2 "A" 0
           ltac:(vm_compute; reflexivity) ltac:(vm_compute; reflexivity)).
Defined.

(** ** The identifier of a connection *)

Section Stamp.

Import GoTime.
Local Open Scope Z_scope.

Lemma check_range_spec check n : ∀ lo x,
  check_range check n lo = true → lo ≤ x < lo + Z.of_nat n → check x = true.
Proof.
  induction n as [|n IH]; intros lo x Hall Hx; [lia|].
  simpl in Hall. apply andb_prop in Hall as [Hlo Hrest].
  destruct (decide (x = lo)) as [->|Hne]; [done|].
  apply (IH (lo + 1)); [done|lia].
Qed.

Lemma month_day_range days y m d :
  civil_from_days days = (y, m, d) → 1 ≤ m ≤ 12 ∧ 1 ≤ d ≤ 31.
Proof.
  unfold civil_from_days.
  set (z := days + 719468). set (doe := z - z / 146097 * 146097).
  assert (0 ≤ doe < 0 + Z.of_nat (Z.to_nat 146097)) as Hdoe.
  { subst doe. pose proof (Z.mod_pos_bound z 146097 ltac:(lia)) as Hb.
    rewrite Z.mod_eq in Hb by lia. lia. }
  assert (check_range month_day_ok (Z.to_nat 146097) 0 = true) as Hall
    by (vm_compute; reflexivity).
  pose proof (check_range_spec _ _ _ _ Hall Hdoe) as Hok.
  unfold month_day_ok, civil_of_doe in *. intros [= <- <- <-].
  repeat (apply andb_prop in Hok as [Hok ?]). lia.
Qed.

Lemma prints_two x : 0 ≤ x ≤ 99 → prints_as_digits 2 x = true.
Proof.
  intros Hx. apply (check_range_spec _ (Z.to_nat 100) 0); [vm_compute; reflexivity|lia].
Qed.

Lemma prints_four x : 0 ≤ x ≤ 9999 → prints_as_digits 4 x = true.
Proof.
  intros Hx. apply (check_range_spec _ (Z.to_nat 10000) 0); [vm_compute; reflexivity|lia].
Qed.

Lemma prints_as_digits_spec width x :
  prints_as_digits width x = true →
  String.length (appendInt x width) = width ∧ string_forall is_digit (appendInt x width) = true.
Proof.
  unfold prints_as_digits. intros H. apply andb_prop in H as [Hlen Hall].
  by apply Nat.eqb_eq in Hlen.
Qed.

Lemma string_forall_app p (s t : string) :
  string_forall p (s +:+ t) = string_forall p s && string_forall p t.
Proof. induction s as [|c s IH]; simpl; [done|]. by rewrite IH, andb_assoc. Qed.

Lemma append_assoc (s t u : string) : (s +:+ t) +:+ u = s +:+ t +:+ u.
Proof.
  induction s as [|c s IH]; [done|].
  change (String c ((s +:+ t) +:+ u) = String c (s +:+ t +:+ u)). by rewrite IH.
Qed.

Lemma clock_range t :
  0 ≤ hour (civil t) ≤ 99 ∧ 0 ≤ minute (civil t) ≤ 99 ∧ 0 ≤ second (civil t) ≤ 99
  ∧ 0 ≤ month (civil t) ≤ 99 ∧ 0 ≤ day (civil t) ≤ 99.
Proof.
  unfold civil.
  destruct (civil_from_days ((unix t + zone_offset t) / 86400)) as [[y m] d] eqn:Hdate.
  apply month_day_range in Hdate. simpl.
  pose proof (Z.mod_pos_bound (unix t + zone_offset t) 86400 ltac:(lia)) as Hsod.
  set (sod := (unix t + zone_offset t) mod 86400) in *.
  pose proof (Z.mod_pos_bound sod 3600 ltac:(lia)).
  pose proof (Z.mod_pos_bound sod 60 ltac:(lia)).
  assert (0 ≤ sod / 3600 < 24) by (split; [apply Z.div_pos; lia | apply Z.div_lt_upper_bound; lia]).
  assert (0 ≤ sod mod 3600 / 60 < 60)
    by (split; [apply Z.div_pos; lia | apply Z.div_lt_upper_bound; lia]).
  lia.
Qed.

(** For a clock reading in the years 0 to 9999, [Format] gives eight
    digits, a dash and six digits. *)
Lemma Format_shape t :
  0 ≤ year (civil t) ≤ 9999 →
  ∃ date time, Format t = date +:+ "-" +:+ time
    ∧ String.length date = 8%nat ∧ string_forall is_digit date = true
    ∧ String.length time = 6%nat ∧ string_forall is_digit time = true.
Proof.
  intros Hyear. destruct (clock_range t) as (Hh & Hmi & Hs & Hmo & Hd).
  destruct (prints_as_digits_spec _ _ (prints_four _ Hyear)) as [Ly Dy].
  destruct (prints_as_digits_spec _ _ (prints_two _ Hmo)) as [Lmo Dmo].
  destruct (prints_as_digits_spec _ _ (prints_two _ Hd)) as [Ld Dd].
  destruct (prints_as_digits_spec _ _ (prints_two _ Hh)) as [Lh Dh].
  destruct (prints_as_digits_spec _ _ (prints_two _ Hmi)) as [Lmi Dmi].
  destruct (prints_as_digits_spec _ _ (prints_two _ Hs)) as [Ls Ds].
  exists (appendInt (year (civil t)) 4 +:+ appendInt (month (civil t)) 2
          +:+ appendInt (day (civil t)) 2),
         (appendInt (hour (civil t)) 2 +:+ appendInt (minute (civil t)) 2
          +:+ appendInt (second (civil t)) 2).
  split; [unfold Format; by rewrite !append_assoc|].
  rewrite !append_length, !string_forall_app, Ly, Lmo, Ld, Lh, Lmi, Ls, Dy, Dmo, Dd, Dh, Dmi, Ds.
  done.
Qed.

End Stamp.

Lemma nibble_hex (b : Byte.byte) :
  hex.is_hex_digit (hex.nibble (N.shiftr (Byte.to_N b) 4)) = true
  ∧ hex.is_hex_digit (hex.nibble (N.land (Byte.to_N b) 15)) = true.
Proof. destruct b; split; reflexivity. Qed.

Lemma EncodeToString_hex (src : list Byte.byte) :
  String.length (hex.EncodeToString src) = 2 * length src
  ∧ hex.all_hex (hex.EncodeToString src) = true.
Proof.
  unfold hex.all_hex. induction src as [|b rest [IHlen IHhex]]; simpl; [done|].
  destruct (nibble_hex b) as [-> ->]. rewrite IHlen, IHhex. split; [lia|done].
Qed.

Lemma generated_suffix (src : entropy) :
  prefix 8 (generateUUID src) = hex.EncodeToString (rand_Read src 4).
Proof. reflexivity. Qed.

(** C8 (amended). When the handshake succeeds, the connect runs under the
    identifier [id]: it registers the new session under [id], or rejects
    it as a duplicate of [id]. [id] is the id the provider furnished when
    that is not empty. Otherwise it is "mcp-server-", the local wall-clock
    time printed as YYYYMMDD-HHMMSS (eight digits, a dash, six digits for
    the years 0 to 9999), a dash, and eight lower-case hexadecimal digits:
    the first four of sixteen random bytes. *)
Theorem connection_id_furnished_or_generated c ct w w1 ss originalID :
  sdk_Connect ct w = (w1, Ok (ss, originalID)) →
  ∃ id,
    (servers c !! id = None →
       connectWithTransport c ct w
       = (w1, {| servers := <[id := ss]> (servers c); serverIDs := <[ss := id]> (serverIDs c) |},
          None))
    ∧ (is_Some (servers c !! id) →
         connectWithTransport c ct w
         = (Close ss w1, c, Some ("server with ID " +:+ id +:+ " already exists")))
    ∧ (originalID ≠ "" → id = originalID)
    ∧ (originalID = "" →
         ∃ suffix,
           id = "mcp-server-" +:+ GoTime.Format (now (env w1) (past w1)) +:+ "-" +:+ suffix
           ∧ suffix = hex.EncodeToString (rand_Read (random (env w1) (past w1)) 4)
           ∧ String.length suffix = 8 ∧ hex.all_hex suffix = true
           ∧ ((0 ≤ GoTime.year (GoTime.civil (now (env w1) (past w1))) ≤ 9999)%Z →
                ∃ date time,
                  GoTime.Format (now (env w1) (past w1)) = date +:+ "-" +:+ time
                  ∧ String.length date = 8 ∧ GoTime.string_forall GoTime.is_digit date = true
                  ∧ String.length time = 6 ∧ GoTime.string_forall GoTime.is_digit time = true)).
Proof.
  intros Hsdk.
  exists (generateServerID originalID (now (env w1) (past w1)) (random (env w1) (past w1))).
  split; [|split; [|split]].
  - intros Hnone. unfold connectWithTransport. by rewrite Hsdk, Hnone.
  - intros [old Hold]. unfold connectWithTransport. by rewrite Hsdk, Hold.
  - intros Hne. unfold generateServerID. by rewrite bool_decide_eq_true_2.
  - intros ->. unfold generateServerID. rewrite bool_decide_eq_false_2 by (by intros []).
    exists (hex.EncodeToString (rand_Read (random (env w1) (past w1)) 4)).
    split; [by rewrite generated_suffix|]. split; [done|].
    destruct (EncodeToString_hex (rand_Read (random (env w1) (past w1)) 4)) as [Hlen Hhex].
    split; [by rewrite Hlen|]. split; [done|]. apply Format_shape.
Qed.

Lemma connection_id_furnished_or_generated_witness :
  ∃ id w1,
    id = "mcp-server-19700101-010000-00000000"
    ∧ connectWithTransport NewClient (Demo.cmd "") (initial Demo.provider)
      = (w1, {| servers := <[id := 0]> ∅; serverIDs := <[0 := id]> ∅ |}, None).
Proof.
  destruct (connection_id_furnished_or_generated NewClient (Demo.cmd "") (initial Demo.provider)
              (sdk_Connect (Demo.cmd "") (initial Demo.provider)).1 0 ""
              ltac:(vm_compute; reflexivity))
    as (id & Hreg & _ & _ & Hgen).
  destruct (Hgen eq_refl) as (suffix & Hid & Hsuffix & _).
  exists id, (sdk_Connect (Demo.cmd "") (initial Demo.provider)).1.
  split; [by rewrite Hid, Hsuffix|].
  apply Hreg. apply lookup_empty.
Defined.

(** C8, as stated, fails whenever the local zone is not UTC: read one hour
    east of Greenwich at the epoch, the clock gives the id the stamp
    19700101-010000, and the UTC stamp 19700101-000000 is not the one the
    connection is registered under. *)
Lemma generated_id_uses_local_time :
  now Demo.provider (past (sdk_Connect (Demo.cmd "") (initial Demo.provider)).1)
  = {| GoTime.unix := 0; GoTime.zone_offset := 3600 |}
  ∧ GoTime.Format (GoTime.UTC {| GoTime.unix := 0; GoTime.zone_offset := 3600 |}) = "19700101-000000"
  ∧ generateServerID "" {| GoTime.unix := 0; GoTime.zone_offset := 3600 |} (λ _, Byte.x00)
    = "mcp-server-19700101-010000-00000000"
  ∧ servers Demo.connected_anonymous.1.2 !! "mcp-server-19700101-010000-00000000" = Some 0
  ∧ servers Demo.connected_anonymous.1.2 !! "mcp-server-19700101-000000-00000000" = None.
Proof. repeat split; vm_compute; reflexivity. Qed.

(** ** Transcoding parameter schemas *)

Section Transcoding.

Import json.

Lemma unmarshal_fields_app {S} (set : string → value → S → result S) l1 : ∀ l2 to,
  unmarshal_fields set (l1 ++ l2) to
  = (to' ← unmarshal_fields set l1 to; unmarshal_fields set l2 to').
Proof.
  induction l1 as [|[k v] l1 IH]; intros l2 to; simpl; [done|].
  destruct (set k v to) as [to'|e]; simpl; [apply IH|done].
Qed.

Lemma unmarshal_elems_any vs : ∀ old, unmarshal_elems unmarshal_any Null vs old = Ok vs.
Proof. induction vs as [|v vs IH]; intros old; simpl; [done|]. by rewrite IH. Qed.

Lemma unmarshal_elems_strings l : ∀ old, unmarshal_elems unmarshal_string "" (map Str l) old = Ok l.
Proof. induction l as [|s l IH]; intros old; simpl; [done|]. by rewrite IH. Qed.

(** Decoding the members of an object whose keys are distinct. *)
Lemma unmarshal_members_spec {V} (dec : value → V → result V) (zero : V) (g : value → V) kvs :
  ∀ m0, (∀ k x, (k, x) ∈ kvs → dec x zero = Ok (g x)) → NoDup kvs.*1 →
  unmarshal_members dec zero kvs m0 = Ok (list_to_map (prod_map id g <$> kvs) ∪ m0).
Proof.
  induction kvs as [|[k x] kvs IH]; intros m0 Hdec Hnd.
  - simpl. by rewrite (left_id_L ∅ (∪)).
  - rewrite fmap_cons in Hnd. apply NoDup_cons in Hnd as [Hk Hnd].
    cbn [unmarshal_members]. rewrite (Hdec k x) by apply list_elem_of_here.
    cbn [mbind result_bind].
    rewrite IH; [|intros k' x' Hin; apply (Hdec k' x'); by apply list_elem_of_further|done].
    f_equal. rewrite fmap_cons. cbn [list_to_map foldr prod_map fst snd id uncurry].
    rewrite <- insert_union_l. symmetry. apply insert_union_r.
    apply not_elem_of_list_to_map_1. rewrite <- list_fmap_compose.
    by rewrite (list_fmap_ext (fst ∘ prod_map id g) fst kvs) by done.
Qed.

(** What the encoder writes for strings that are valid UTF-8. *)
Lemma valid_coerce s : valid s = true → coerce s = s.
Proof. unfold valid. apply String.eqb_eq. Qed.

Lemma marshal_string_valid s : valid s = true → marshal_string s = Str s.
Proof. intros H. unfold marshal_string. by rewrite valid_coerce. Qed.

Lemma marshal_any_valid : ∀ v, valid_any v = true → marshal_any v = v.
Proof.
  fix IH 1. intros [| | |s|items|members]; cbn [valid_any marshal_any]; try done.
  - apply marshal_string_valid.
  - intros H. f_equal. induction items as [|x l IHl]; [done|].
    cbn [forallb] in H. apply andb_true_iff in H as [Hx Hl].
    cbn [map]. by rewrite (IH x Hx), (IHl Hl).
  - intros H. f_equal. induction members as [|[k x] l IHl]; [done|].
    cbn [forallb fst snd] in H. apply andb_true_iff in H as [Hkx Hl].
    apply andb_true_iff in Hkx as [Hk Hx].
    cbn [map fst snd]. by rewrite (valid_coerce k Hk), (IH x Hx), (IHl Hl).
Qed.

Lemma marshal_strings_valid (req : slice string) :
  forallb valid (elems req) = true →
  marshal_strings req = match req with None => Null | Some l => Array (map Str l) end.
Proof.
  destruct req as [l|]; [|done]. cbn [elems default from_option Datatypes.id marshal_strings].
  intros H. f_equal. induction l as [|x l IHl]; [done|].
  cbn [forallb] in H. apply andb_true_iff in H as [Hx Hl].
  cbn [map]. by rewrite (marshal_string_valid x Hx), (IHl Hl).
Qed.

Lemma marshal_anys_valid (enum : slice any) :
  forallb valid_any (elems enum) = true →
  marshal_anys enum = match enum with None => Null | Some l => Array l end.
Proof.
  destruct enum as [l|]; [|done]. cbn [elems default from_option Datatypes.id marshal_anys].
  intros H. f_equal. induction l as [|x l IHl]; [done|].
  cbn [forallb] in H. apply andb_true_iff in H as [Hx Hl].
  cbn [map]. by rewrite (marshal_any_valid x Hx), (IHl Hl).
Qed.

Lemma marshal_map_valid {V} (enc : V → value) (m : gmap string V) :
  (∀ k u, m !! k = Some u → valid k = true) →
  marshal_map enc m = Object (merge_sort key_le (map_to_list (enc <$> m))).
Proof.
  intros Hkeys. unfold marshal_map. f_equal.
  assert (Forall (λ kv, valid kv.1 = true) (merge_sort key_le (map_to_list (enc <$> m)))) as Hall.
  { rewrite merge_sort_Permutation. apply Forall_forall. intros [k x] Hin.
    apply elem_of_map_to_list in Hin. rewrite lookup_fmap in Hin.
    destruct (m !! k) as [u|] eqn:Hl; [|done]. by apply (Hkeys k u). }
  induction Hall as [|[k x] l Hk _ IHl]; [done|].
  rewrite fmap_cons, IHl. simpl in *. by rewrite (valid_coerce k Hk).
Qed.

(** What the validity of a schema says of its parts. *)
Lemma valid_PropertyDefinition_parts p :
  tool.valid_PropertyDefinition p = true →
  valid (tool.prop_Type p) = true ∧ valid (tool.prop_Description p) = true
  ∧ valid_any (tool.prop_Items p) = true ∧ forallb valid_any (elems (tool.prop_Enum p)) = true.
Proof.
  unfold tool.valid_PropertyDefinition. rewrite !andb_true_iff. tauto.
Qed.

Lemma valid_ParameterSchema_parts s :
  tool.valid_ParameterSchema s = true →
  valid (tool.Type_ s) = true ∧ forallb valid (elems (tool.Required s)) = true
  ∧ (∀ k p, entries (tool.Properties s) !! k = Some p →
       valid k = true ∧ tool.valid_PropertyDefinition p = true)
  ∧ valid_any (tool.Defs s) = true ∧ valid_any (tool.Items s) = true.
Proof.
  unfold tool.valid_ParameterSchema. rewrite !andb_true_iff.
  intros [[[[Hty Hreq] Hprops] Hdefs] Hitems]. repeat (split; [done|]). split; [|done].
  intros k p Hl. rewrite forallb_forall in Hprops.
  apply (andb_true_iff (valid k)). apply (Hprops (k, p)).
  apply list_elem_of_In. by apply elem_of_map_to_list.
Qed.

(** A map written by [marshal_map] is read back entry by entry. *)
Lemma unmarshal_marshal_map {U V} (enc : U → value) (dec : value → V → result V) (zero : V)
    (f : U → V) ty (m : gmap string U) to :
  (∀ k u, m !! k = Some u → valid k = true ∧ dec (enc u) zero = Ok (f u)) → entries to = ∅ →
  unmarshal_map dec zero ty (marshal_map enc m) to = Ok (Some (f <$> m)).
Proof.
  intros Hm Hto.
  rewrite marshal_map_valid by (intros k u Hl; by apply (Hm k u)).
  assert (∀ k u, m !! k = Some u → dec (enc u) zero = Ok (f u)) as Hdec
    by (intros k u Hl; by apply (Hm k u)).
  unfold unmarshal_map. rewrite Hto.
  set (g := λ x, match dec x zero with Ok y => y | Err _ => zero end).
  set (kvs := merge_sort key_le (map_to_list (enc <$> m))).
  assert (kvs ≡ₚ map_to_list (enc <$> m)) as Hperm by apply merge_sort_Permutation.
  rewrite (unmarshal_members_spec dec zero g).
  - simpl. do 2 f_equal. rewrite (right_id_L ∅ (∪)).
    rewrite (list_to_map_proper _ (prod_map id g <$> map_to_list (enc <$> m))).
    + rewrite list_to_map_fmap, list_to_map_to_list, <- map_fmap_compose.
      apply map_fmap_ext. intros k u Hl. unfold g. simpl. by rewrite (Hdec k u Hl).
    + rewrite <- list_fmap_compose, Hperm. apply NoDup_fst_map_to_list.
    + by rewrite Hperm.
  - intros k x Hin. rewrite Hperm in Hin. apply elem_of_map_to_list in Hin.
    rewrite lookup_fmap in Hin. destruct (m !! k) as [u|] eqn:Hl; [|done].
    injection Hin as <-. unfold g. by rewrite (Hdec k u Hl).
  - rewrite Hperm. apply NoDup_fst_map_to_list.
Qed.

Lemma is_nil_true v : is_nil v = true → v = Null.
Proof. by destruct v. Qed.

(** Runs the decoders on an object whose keys are known. *)
Ltac json_eval :=
  repeat first
    [ progress simpl
    | rewrite unmarshal_elems_any
    | rewrite unmarshal_elems_strings
    | progress unfold api.set_Property, api.set_Parameters,
        tool.set_PropertyDefinition, tool.set_ParameterSchema ].

(** Writes what the encoder gives for the valid parts of a schema. *)
Ltac plain :=
  rewrite ?marshal_string_valid, ?marshal_any_valid, ?marshal_strings_valid,
    ?marshal_anys_valid by assumption.

Lemma transcode_property p :
  tool.valid_PropertyDefinition p = true →
  api.unmarshal_Property (tool.marshal_PropertyDefinition p) api.zero_Property
  = Ok (transcoded_property p).
Proof.
  intros (Hty & Hdesc & Hitems & Henum)%valid_PropertyDefinition_parts.
  destruct p as [ty desc items enum]. unfold tool.marshal_PropertyDefinition, transcoded_property.
  cbn [tool.prop_Type tool.prop_Description tool.prop_Items tool.prop_Enum] in *. plain.
  unfold api.unmarshal_Property, unmarshal_struct.
  destruct desc as [|c d]; destruct (is_nil items) eqn:Hi; destruct enum as [[|e es]|];
    try (apply is_nil_true in Hi as ->); json_eval; reflexivity.
Qed.

Lemma forallb_nonempty {A} (P : A → bool) (s : slice A) :
  forallb P (elems s) = true → forallb P (elems (nonempty s)) = true.
Proof. by destruct s as [[|x l]|]. Qed.

Lemma return_property p :
  tool.valid_PropertyDefinition p = true →
  tool.unmarshal_PropertyDefinition (api.marshal_Property (transcoded_property p))
    tool.zero_PropertyDefinition
  = Ok (returned_property p).
Proof.
  intros (Hty & Hdesc & Hitems & Henum)%valid_PropertyDefinition_parts.
  destruct p as [ty desc items enum]. unfold api.marshal_Property, transcoded_property, returned_property.
  cbn [api.prop_Type api.prop_Description api.prop_Items api.prop_Enum api.marshal_PropertyType
       tool.prop_Type tool.prop_Description tool.prop_Items tool.prop_Enum] in *.
  apply forallb_nonempty in Henum. plain.
  unfold tool.unmarshal_PropertyDefinition, unmarshal_struct.
  destruct (is_nil items) eqn:Hi; destruct enum as [[|e es]|];
    try (apply is_nil_true in Hi as ->); json_eval; reflexivity.
Qed.

#[local] Arguments unmarshal_map : simpl never.
#[local] Arguments marshal_map : simpl never.

Lemma transcode_schema s :
  tool.valid_ParameterSchema s = true →
  Unmarshal (tool.marshal_ParameterSchema s) api.zero_Parameters = Ok (transcoded s).
Proof.
  intros (Hty & Hreq & Hprops_ok & Hdefs & Hitems)%valid_ParameterSchema_parts.
  destruct s as [ty req props defs items].
  unfold Unmarshal, api.Parameters_unmarshal, unmarshal_struct,
    tool.marshal_ParameterSchema, transcoded.
  cbn [tool.Type_ tool.Required tool.Properties tool.Defs tool.Items] in *. plain.
  destruct req as [[|r rs]|]; case_bool_decide as Hprops;
    destruct (is_nil defs) eqn:Hd; destruct (is_nil items) eqn:Hi;
    try (apply is_nil_true in Hd as ->); try (apply is_nil_true in Hi as ->);
    json_eval;
    rewrite ?(unmarshal_marshal_map _ _ _ transcoded_property)
      by (done || (intros k u Hl; destruct (Hprops_ok k u Hl); split;
                   [done|by apply transcode_property]));
    json_eval; reflexivity.
Qed.

Lemma marshal_map_fmap {U V} (enc : V → value) (h : U → V) (m : gmap string U) :
  marshal_map enc (h <$> m) = marshal_map (enc ∘ h) m.
Proof. unfold marshal_map. by rewrite <- map_fmap_compose. Qed.

Lemma return_schema s :
  tool.valid_ParameterSchema s = true →
  Unmarshal (api.marshal_Parameters (transcoded s)) tool.zero_ParameterSchema = Ok (returned s).
Proof.
  intros (Hty & Hreq & Hprops_ok & Hdefs & Hitems)%valid_ParameterSchema_parts.
  destruct s as [ty req props defs items].
  unfold Unmarshal, tool.ParameterSchema_unmarshal, unmarshal_struct,
    api.marshal_Parameters, transcoded, returned.
  cbn [tool.Type_ tool.Required tool.Properties tool.Defs tool.Items
       api.Type_ api.Required api.Properties api.Defs api.Items] in *.
  apply forallb_nonempty in Hreq. plain.
  destruct req as [[|r rs]|]; case_bool_decide as Hprops;
    destruct (is_nil defs) eqn:Hd; destruct (is_nil items) eqn:Hi;
    try (apply is_nil_true in Hd as ->); try (apply is_nil_true in Hi as ->);
    json_eval; rewrite ?marshal_map_fmap;
    rewrite ?(unmarshal_marshal_map _ _ _ returned_property)
      by (done || (intros k u Hl; destruct (Hprops_ok k u Hl); split;
                   [done|by apply return_property]));
    json_eval; reflexivity.
Qed.

Lemma elems_nonempty {A} (s : option (list A)) : elems (nonempty s) = elems s.
Proof. by destruct s as [[|x l]|]. Qed.

Lemma returned_property_facets p : property_facets (returned_property p) = property_facets p.
Proof. unfold property_facets. simpl. by rewrite elems_nonempty. Qed.

Lemma returned_facets s : schema_facets (returned s) = schema_facets s.
Proof.
  unfold schema_facets, returned. simpl. rewrite elems_nonempty.
  case_bool_decide as Hempty; simpl.
  - by rewrite Hempty, fmap_empty.
  - rewrite <- map_fmap_compose.
    by rewrite (map_fmap_ext (property_facets ∘ returned_property) property_facets)
      by (intros; apply returned_property_facets).
Qed.

(** C5 (amended). Transcoding a parameter schema whose strings are all
    valid UTF-8 through [ConvertViaJSON] into the parameter shape of the
    inference API and back succeeds and gives a schema with the same
    required-field list, the same named property definitions (type,
    description, nested item schema and enum values of each), and the
    same nested item schema; the schema that comes back is the original
    one with its allocated but empty slices and maps nil. *)
Theorem schema_round_trip (s : tool.ParameterSchema) :
  tool.valid_ParameterSchema s = true →
  ∃ o s',
    ConvertViaJSON s api.zero_Parameters = Ok o
    ∧ ConvertViaJSON o tool.zero_ParameterSchema = Ok s'
    ∧ elems (tool.Required s') = elems (tool.Required s)
    ∧ property_facets <$> entries (tool.Properties s')
      = property_facets <$> entries (tool.Properties s)
    ∧ tool.Items s' = tool.Items s
    ∧ schema_facets s' = schema_facets s
    ∧ s' = returned s.
Proof.
  intros Hvalid. exists (transcoded s), (returned s).
  pose proof (returned_facets s) as Hfacets.
  split; [|split].
  - unfold ConvertViaJSON, Marshal, tool.ParameterSchema_marshal. cbv beta iota.
    by rewrite transcode_schema.
  - unfold ConvertViaJSON, Marshal, api.Parameters_marshal. cbv beta iota.
    by rewrite return_schema.
  - split; [exact (f_equal (λ f, f.1.1.1.2) Hfacets)|].
    split; [exact (f_equal (λ f, f.1.1.2) Hfacets)|].
    done.
Qed.

Lemma schema_round_trip_witness :
  ∃ o s',
    ConvertViaJSON Demo.schema api.zero_Parameters = Ok o
    ∧ ConvertViaJSON o tool.zero_ParameterSchema = Ok s'
    ∧ elems (tool.Required s') = ["mode"; "tags"]
    ∧ tool.Items s' = Object [("type", Str "integer")]
    ∧ schema_facets s' = schema_facets Demo.schema.
Proof.
  destruct (schema_round_trip Demo.schema ltac:(vm_compute; reflexivity))
    as (o & s' & Hthere & Hback & Hreq & _ & Hitems & Hfacets & _).
  exists o, s'. repeat (split; [assumption|]). assumption.
Defined.

(** C5, as stated, fails for a schema with a string that is not valid
    UTF-8: the encoder writes U+FFFD for the offending byte, so the
    required name [a\xff] comes back as [a] followed by the three bytes
    of U+FFFD. *)
Lemma invalid_utf8_name_is_not_preserved :
  ∃ o s',
    ConvertViaJSON Demo.misnamed api.zero_Parameters = Ok o
    ∧ ConvertViaJSON o tool.zero_ParameterSchema = Ok s'
    ∧ elems (tool.Required Demo.misnamed) = ["mode"; String "a" (String "255" EmptyString)]
    ∧ elems (tool.Required s')
      = ["mode"; String "a" (String "239" (String "191" (String "189" EmptyString)))]
    ∧ elems (tool.Required s') ≠ elems (tool.Required Demo.misnamed).
Proof.
  eexists _, _. split; [vm_compute; reflexivity|]. split; [vm_compute; reflexivity|].
  split; [reflexivity|]. split; [reflexivity|]. discriminate.
Qed.

(** A schema with all four facets comes back as it was. *)
Example demo_schema_comes_back :
  (o ← ConvertViaJSON Demo.schema api.zero_Parameters; ConvertViaJSON o tool.zero_ParameterSchema)
  = Ok Demo.schema.
Proof. vm_compute. reflexivity. Qed.

End Transcoding.

(** * Further properties of the code *)

(** ** The registry over time *)

Lemma connectWithTransport_keeps c ct w w' c' err :
  consistent c w → connectWithTransport c ct w = (w', c', err) →
  ∀ id ss, servers c !! id = Some ss →
    servers c' !! id = Some ss ∧ serverIDs c' !! ss = Some id.
Proof.
  intros Hc Hstep id ss Hl.
  pose proof (proj1 (cons_inv _ _ Hc) _ _ Hl) as Hback.
  destruct (connectWithTransport_cases c ct w)
    as [(w0 & e & _ & Heq) | [(w0 & s0 & oid & old & _ & _ & Heq)
                             | (w0 & s0 & oid & Hsdk & Hnone & Heq)]];
    rewrite Heq in Hstep; injection Hstep as <- <- <-; [done|done|].
  apply sdk_Connect_Ok in Hsdk as (-> & _). simpl.
  rewrite !lookup_insert_ne; [done| |].
  - apply (cons_live _ _ Hc) in Hback. lia.
  - intros <-. congruence.
Qed.

Lemma connect_all_keeps cts : ∀ c w w' c' errs,
  consistent c w → connect_all c cts w = (w', c', errs) →
  ∀ id ss, servers c !! id = Some ss →
    servers c' !! id = Some ss ∧ serverIDs c' !! ss = Some id.
Proof.
  induction cts as [|ct rest IH]; intros c w w' c' errs Hc; simpl.
  - intros [= <- <- <-] id ss Hl. split; [done|]. by apply (cons_inv _ _ Hc).
  - destruct (connectWithTransport c ct w) as [[w1 c1] err] eqn:Hstep.
    destruct (connect_all c1 rest w1) as [[w2 c2] errs'] eqn:Hrest.
    intros [= <- <- <-] id ss Hl.
    destruct (connectWithTransport_keeps _ _ _ _ _ _ Hc Hstep _ _ Hl) as [Hl1 _].
    eapply IH; [|exact Hrest|exact Hl1].
    eapply connectWithTransport_consistent; eauto.
Qed.

(** The registry only grows: a connection registered after some connects
    is, after any further connects, still registered under the same id
    with the same session, which has not been closed. *)
Theorem registered_connections_stay (p : Provider) cts1 cts2 w1 c1 errs1 w2 c2 errs2 id ss :
  connect_all NewClient cts1 (initial p) = (w1, c1, errs1) →
  connect_all c1 cts2 w1 = (w2, c2, errs2) →
  servers c1 !! id = Some ss →
  servers c2 !! id = Some ss ∧ serverIDs c2 !! ss = Some id ∧ ss ∉ closed (past w2).
Proof.
  intros Hrun1 Hrun2 Hl.
  pose proof (connect_all_consistent _ _ _ _ _ _ (consistent_initial p) Hrun1) as Hc1.
  pose proof (connect_all_consistent _ _ _ _ _ _ Hc1 Hrun2) as Hc2.
  destruct (connect_all_keeps _ _ _ _ _ _ Hc1 Hrun2 _ _ Hl) as [Hs Hi].
  split; [done|]. split; [done|].
  intros Hin. apply (cons_closed _ _ Hc2) in Hin as [_ Hnone]. congruence.
Qed.

Lemma registered_connections_stay_witness :
  servers Runs.more_on_AB.1.2 !! "B" = Some 1
  ∧ serverIDs Runs.more_on_AB.1.2 !! 1 = Some "B"
  ∧ 1 ∉ closed (past Runs.more_on_AB.1.1).
Proof.
  apply (registered_connections_stay Demo.provider [Demo.cmd "A"; Demo.cmd "B"]
           [Demo.cmd "A"; Demo.cmd "bad"; Demo.cmd "C"]
           Demo.world_AB Demo.client_AB Demo.connected_AB.2
           Runs.more_on_AB.1.1 Runs.more_on_AB.1.2 Runs.more_on_AB.2 "B" 1);
    vm_compute; reflexivity.
Defined.

Lemma connectWithTransport_accounts c ct w w' c' err :
  servers c !! "" = None →
  connectWithTransport c ct w = (w', c', err) →
  sessions (past w') + size (servers c) + length (closed (past w))
  = sessions (past w) + size (servers c') + length (closed (past w'))
  ∧ servers c' !! "" = None.
Proof.
  intros Hempty Hstep.
  destruct (connectWithTransport_cases c ct w)
    as [(w0 & e & Hsdk & Heq) | [(w0 & s0 & oid & old & Hsdk & _ & Heq)
                               | (w0 & s0 & oid & Hsdk & Hnone & Heq)]];
    rewrite Heq in Hstep; injection Hstep as <- <- <-.
  - apply sdk_Connect_Err in Hsdk as (-> & -> & _). done.
  - apply sdk_Connect_Ok in Hsdk as (-> & Hs & Hcl & _). simpl.
    rewrite Hs, Hcl, length_app. simpl. split; [lia|done].
  - apply sdk_Connect_Ok in Hsdk as (-> & Hs & Hcl & _). simpl.
    rewrite Hs, Hcl, map_size_insert_None by done. split; [lia|].
    rewrite lookup_insert_ne; [done|].
    unfold generateServerID. case_bool_decide as Hid; [done|discriminate].
Qed.

(** Every session the SDK has created is accounted for: after any run of
    connects, the sessions created are as many as the registered ones and
    the closed ones together. No connection is registered under the empty
    id. *)
Theorem sessions_registered_or_closed (p : Provider) (cts : list Cmd) w c errs :
  connect_all NewClient cts (initial p) = (w, c, errs) →
  sessions (past w) = size (servers c) + length (closed (past w))
  ∧ size (serverIDs c) = size (servers c)
  ∧ servers c !! "" = None.
Proof.
  intros Hrun.
  assert (∀ cts c0 w0 w c errs,
            servers c0 !! "" = None → connect_all c0 cts w0 = (w, c, errs) →
            sessions (past w) + size (servers c0) + length (closed (past w0))
            = sessions (past w0) + size (servers c) + length (closed (past w))
            ∧ servers c !! "" = None) as Hgen.
  { clear. induction cts as [|ct rest IH]; intros c0 w0 w c errs Hempty; simpl.
    - intros [= <- <- <-]. done.
    - destruct (connectWithTransport c0 ct w0) as [[w1 c1] err] eqn:Hstep.
      destruct (connect_all c1 rest w1) as [[w2 c2] errs'] eqn:Hrest.
      intros [= <- <- <-].
      destruct (connectWithTransport_accounts _ _ _ _ _ _ Hempty Hstep) as [Hacc Hempty1].
      destruct (IH _ _ _ _ _ Hempty1 Hrest) as [Hacc' Hempty2]. split; [lia|done]. }
  destruct (Hgen _ _ _ _ _ _ (lookup_empty _) Hrun) as [Hacc Hempty].
  simpl in Hacc. rewrite map_size_empty in Hacc.
  split; [lia|]. split; [|done].
  assert (∀ cts c0 w0 w c errs,
            consistent c0 w0 → connect_all c0 cts w0 = (w, c, errs) →
            size (serverIDs c) + size (servers c0) = size (serverIDs c0) + size (servers c))
    as Hsizes.
  { clear. induction cts as [|ct rest IH]; intros c0 w0 w c errs Hc; simpl.
    - intros [= <- <- <-]. lia.
    - destruct (connectWithTransport c0 ct w0) as [[w1 c1] err] eqn:Hstep.
      destruct (connect_all c1 rest w1) as [[w2 c2] errs'] eqn:Hrest.
      intros [= <- <- <-].
      pose proof (connectWithTransport_consistent _ _ _ _ _ _ Hc Hstep) as Hc1.
      pose proof (IH _ _ _ _ _ Hc1 Hrest) as Hrec.
      destruct (connectWithTransport_cases c0 ct w0)
        as [(w3 & e & _ & Heq) | [(w3 & s0 & oid & old & _ & _ & Heq)
                                 | (w3 & s0 & oid & Hsdk & Hnone & Heq)]];
        rewrite Heq in Hstep; injection Hstep as <- <- <-; [lia|lia|].
      apply sdk_Connect_Ok in Hsdk as (-> & _). simpl in Hrec.
      rewrite map_size_insert_None in Hrec by done.
      rewrite map_size_insert_None in Hrec; [lia|].
      destruct (serverIDs c0 !! sessions (past w0)) as [id|] eqn:Hl; [|done].
      apply (cons_live _ _ Hc) in Hl. lia. }
  pose proof (Hsizes _ _ _ _ _ _ (consistent_initial p) Hrun) as Hs.
  simpl in Hs. rewrite !map_size_empty in Hs. lia.
Qed.

Lemma sessions_registered_or_closed_witness :
  sessions (past Runs.mixed_outcomes.1.1)
  = size (servers Runs.mixed_outcomes.1.2) + length (closed (past Runs.mixed_outcomes.1.1))
  ∧ size (serverIDs Runs.mixed_outcomes.1.2) = size (servers Runs.mixed_outcomes.1.2)
  ∧ servers Runs.mixed_outcomes.1.2 !! "" = None.
Proof.
  apply (sessions_registered_or_closed Demo.provider
           [Demo.cmd "A"; Demo.cmd "A"; Demo.cmd "bad"; Demo.cmd "B"]
           Runs.mixed_outcomes.1.1 Runs.mixed_outcomes.1.2 Runs.mixed_outcomes.2).
  vm_compute. reflexivity.
Defined.

(** ** Generated identifiers *)

Lemma has_colon_app (s t : string) : has_colon (s +:+ t) = has_colon s || has_colon t.
Proof.
  induction s as [|c s IH]; [done|].
  change (has_colon (String c (s +:+ t)) = has_colon (String c s) || has_colon t).
  simpl. by rewrite IH, orb_assoc.
Qed.

Lemma string_forall_no_colon (p : ascii → bool) (s : string) :
  p ":"%char = false → GoTime.string_forall p s = true → has_colon s = false.
Proof.
  intros Hp. induction s as [|c s IH]; simpl; [done|].
  intros H. apply andb_prop in H as [Hc Hs]. rewrite (IH Hs), orb_false_r.
  destruct (Ascii.eqb_spec c ":") as [->|]; [congruence|done].
Qed.

(** A generated id is 35 bytes long and has no [':'] (for clock readings
    in the years 0 to 9999), so the part of a display name before its
    first [':'] is the whole generated id. *)
Theorem generated_id_has_no_colon (clock : GoTime.Time) (src : entropy) :
  (0 ≤ GoTime.year (GoTime.civil clock) ≤ 9999)%Z →
  String.length (generateServerID "" clock src) = 35
  ∧ has_colon (generateServerID "" clock src) = false
  ∧ ∀ name, before_colon (generateServerID "" clock src +:+ ":" +:+ name)
            = generateServerID "" clock src.
Proof.
  intros Hyear.
  destruct (Format_shape clock Hyear) as (date & time & Hfmt & Ld & Dd & Lt & Dt).
  destruct (EncodeToString_hex (rand_Read src 4)) as [Lh Dh].
  assert (has_colon (generateServerID "" clock src) = false) as Hcolon.
  { unfold generateServerID. rewrite bool_decide_eq_false_2 by (by intros []).
    rewrite generated_suffix, Hfmt, !has_colon_app.
    rewrite (string_forall_no_colon _ _ eq_refl Dd), (string_forall_no_colon _ _ eq_refl Dt).
    unfold hex.all_hex in Dh. by rewrite (string_forall_no_colon _ _ eq_refl Dh). }
  split; [|split; [done|]].
  - unfold generateServerID. rewrite bool_decide_eq_false_2 by (by intros []).
    rewrite generated_suffix, Hfmt, !append_length, Ld, Lt, Lh. reflexivity.
  - intros name. by apply before_colon_display.
Qed.

Lemma generated_id_has_no_colon_witness :
  String.length (generateServerID "" {| GoTime.unix := 1700000000; GoTime.zone_offset := 32400 |}
                   (λ _, Byte.xab)) = 35
  ∧ has_colon (generateServerID "" {| GoTime.unix := 1700000000; GoTime.zone_offset := 32400 |}
                 (λ _, Byte.xab)) = false
  ∧ ∀ name, before_colon (generateServerID "" {| GoTime.unix := 1700000000; GoTime.zone_offset := 32400 |}
                            (λ _, Byte.xab) +:+ ":" +:+ name)
            = generateServerID "" {| GoTime.unix := 1700000000; GoTime.zone_offset := 32400 |}
                (λ _, Byte.xab).
Proof.
  apply (generated_id_has_no_colon {| GoTime.unix := 1700000000; GoTime.zone_offset := 32400 |}
           (λ _, Byte.xab)).
  vm_compute. split; discriminate.
Defined.

(** ** What an aborted batch leaves behind *)

(** When [ConnectFromConfigs] stops at a failing configuration, nothing is
    rolled back: the client it leaves is the one reached by the connects
    before the failure, each of whose sessions is still registered, and
    the environment of the process is as the failing configuration's
    command left it. *)
Theorem aborted_batch_keeps_earlier_connections c pre cfg post visits e w e0 cmds w1 c1 errs
    e1 cmd w2 c2 err :
  launch.commands pre visits e = (e0, cmds) →
  connect_all c cmds w = (w1, c1, errs) →
  Forall (λ e, e = None) errs →
  config.CreateCommand cfg (visits (length pre)) e0 = (e1, cmd) →
  ConnectWithCommand c1 cmd w1 = (w2, c2, Some err) →
  (launch.ConnectFromConfigs c (pre ++ cfg :: post) visits (e, w)).1.2 = c1
  ∧ (launch.ConnectFromConfigs c (pre ++ cfg :: post) visits (e, w)).1.1.1 = e1
  ∧ size (servers c1) = size (servers c) + length pre
  ∧ ∀ i, i < length pre → is_Some (serverIDs c1 !! (sessions (past w) + i)).
Proof.
  intros Hcmds Hpre Hall Hcmd Hfail.
  pose proof (commands_length pre visits e) as Hlen'. rewrite Hcmds in Hlen'. simpl in Hlen'.
  rewrite (ConnectFromConfigs_abort _ _ _ _ _ _ _ _ _ _ _ post _ _ _ _ _
             Hcmds Hpre Hall Hcmd Hfail).
  cbn [fst snd].
  split; [|split; [done|split]].
  - unfold ConnectWithCommand in Hfail.
    destruct (connectWithTransport_cases c1 cmd w1)
      as [(w0 & e' & _ & Heq) | [(w0 & s0 & oid & old & _ & _ & Heq)
                                | (w0 & s0 & oid & _ & _ & Heq)]];
      rewrite Heq in Hfail; by injection Hfail as <- <-.
  - destruct (connect_all_size _ _ _ _ _ _ Hpre) as [Hsize Hlen].
    rewrite Hsize. f_equal. rewrite <- Hlen', <- Hlen.
    clear -Hall. induction Hall as [|e errs -> _ IH]; [done|].
    rewrite filter_cons_True by done. simpl. by rewrite IH.
  - destruct (connect_all_registers _ _ _ _ _ _ Hpre Hall) as [Hrange _].
    intros i Hi. apply Hrange. by rewrite Hlen'.
Qed.

Lemma aborted_batch_keeps_earlier_connections_witness :
  (launch.ConnectFromConfigs NewClient [launch.cfg_first; launch.cfg_broken; launch.cfg_last]
     launch.visits (launch.home, initial Demo.provider)).1.2
  = (connect_all NewClient
       [ {| Path := "A"; Args := []; Env := Some ["HOME=/home/u"; "BIN=bad"; "BIN=bad"] |} ]
       (initial Demo.provider)).1.2
  ∧ (launch.ConnectFromConfigs NewClient [launch.cfg_first; launch.cfg_broken; launch.cfg_last]
       launch.visits (launch.home, initial Demo.provider)).1.1.1
    = [("HOME", "/home/u"); ("BIN", "bad")].
Proof.
  pose (cmd_first := {| Path := "A"; Args := []; Env := Some ["HOME=/home/u"; "BIN=bad"; "BIN=bad"] |}).
  pose (cmd_broken := {| Path := "bad"; Args := ["--root"; "/home/u/x"]; Env := None |}).
  pose (e1 := [("HOME", "/home/u"); ("BIN", "bad")]).
  destruct (aborted_batch_keeps_earlier_connections NewClient
              [launch.cfg_first] launch.cfg_broken [launch.cfg_last] launch.visits launch.home
              (initial Demo.provider) e1 [cmd_first]
              (connect_all NewClient [cmd_first] (initial Demo.provider)).1.1
              (connect_all NewClient [cmd_first] (initial Demo.provider)).1.2
              [None] e1 cmd_broken
              (ConnectWithCommand (connect_all NewClient [cmd_first] (initial Demo.provider)).1.2
                 cmd_broken (connect_all NewClient [cmd_first] (initial Demo.provider)).1.1).1.1
              (ConnectWithCommand (connect_all NewClient [cmd_first] (initial Demo.provider)).1.2
                 cmd_broken (connect_all NewClient [cmd_first] (initial Demo.provider)).1.1).1.2
              "failed to connect to MCP server: exec: not found"
              ltac:(vm_compute; reflexivity)
              ltac:(vm_compute; reflexivity)
              ltac:(repeat constructor)
              ltac:(vm_compute; reflexivity)
              ltac:(vm_compute; reflexivity)) as (Hclient & Henv & _).
  split; [exact Hclient|exact Henv].
Defined.

(** ** What a listing contains, and when it fails *)

Lemma server_tools_stops id yields : ∀ acc y,
  y ∈ yields → stops_listing y = true → ∃ e, server_tools id yields acc = Err e.
Proof.
  induction yields as [|[[mcpTool|] [err|]] rest IH]; intros acc y Hin Hbad; simpl.
  - by apply elem_of_nil in Hin.
  - eauto.
  - apply elem_of_cons in Hin as [->|Hin].
    + simpl in Hbad. destruct (InputSchema mcpTool) as [schema|]; [|discriminate].
      change (tool.Parameters (tool.Function (commonTool "" mcpTool)))
        with (tool.Parameters (tool.Function (commonTool id mcpTool))) in Hbad.
      destruct (ConvertViaJSON _ _) as [ps|e]; [discriminate|eauto].
    + destruct (InputSchema mcpTool) as [schema|]; [|by eapply IH].
      destruct (ConvertViaJSON _ _) as [ps|e]; [by eapply IH|eauto].
  - eauto.
  - apply elem_of_cons in Hin as [->|Hin]; [discriminate|]. by eapply IH.
Qed.

Lemma all_tools_stops c order : ∀ acc w key ss,
  (key, ss) ∈ order →
  (∀ h, ∃ y, y ∈ list_tools (env w) h ss ∧ stops_listing y = true) →
  ∃ w1 e, all_tools c order acc w = (w1, Err e).
Proof.
  induction order as [|[k s] rest IH]; intros acc w key ss Hin Hbad; simpl.
  - by apply elem_of_nil in Hin.
  - destruct (server_tools _ _ acc) as [acc'|e] eqn:Hserver; [|eauto].
    apply elem_of_cons in Hin as [[= <- <-]|Hin].
    + destruct (Hbad (past w)) as (y & Hy & Hstop).
      destruct (server_tools_stops (default "" (serverIDs c !! ss)) _ acc y Hy Hstop) as [e He].
      congruence.
    + apply (IH acc' (note_listed s w) key ss Hin). exact Hbad.
Qed.

(** [Tools] returns all tools or none: if the listing of one registered
    connection yields an error, or a tool whose input schema cannot be
    converted, the whole call fails, whatever the other connections offer
    and in whatever order the connections are visited. *)
Theorem tools_fails_when_one_listing_fails c order w id ss :
  order ≡ₚ map_to_list (servers c) →
  servers c !! id = Some ss →
  (∀ h, ∃ y, y ∈ list_tools (env w) h ss ∧ stops_listing y = true) →
  ∃ w1 e, Tools c order w = (w1, Err e).
Proof.
  intros Hperm Hl Hbad. unfold Tools. case_bool_decide; [eauto|].
  destruct (all_tools_stops c order [] w id ss) as (w1 & e & ->); [|done|eauto].
  rewrite Hperm. by apply elem_of_map_to_list.
Qed.

Lemma tools_fails_when_one_listing_fails_witness :
  ∃ w1 e, Tools connected_unreliable.1.2 (map_to_list (servers connected_unreliable.1.2))
            connected_unreliable.1.1 = (w1, Err e).
Proof.
  apply (tools_fails_when_one_listing_fails connected_unreliable.1.2
           (map_to_list (servers connected_unreliable.1.2)) connected_unreliable.1.1 "B" 1).
  - reflexivity.
  - vm_compute. reflexivity.
  - intros h. exists (None, Some "EOF"). split; [right; left|reflexivity].
Defined.

Lemma server_tools_names id yields : ∀ acc res,
  server_tools id yields acc = Ok res →
  tool.Name <$> res
  = (tool.Name <$> acc) ++ ((λ name, id +:+ ":" +:+ name) <$> native_names yields).
Proof.
  unfold native_names.
  induction yields as [|[[mcpTool|] [err|]] rest IH]; intros acc res; simpl.
  - intros [= <-]. by rewrite app_nil_r.
  - discriminate.
  - destruct (InputSchema mcpTool) as [schema|].
    + destruct (ConvertViaJSON _ _) as [ps|e]; [|discriminate].
      intros Hrec. rewrite (IH _ _ Hrec), fmap_app, <- app_assoc. done.
    + intros Hrec. rewrite (IH _ _ Hrec), fmap_app, <- app_assoc. done.
  - discriminate.
  - apply IH.
Qed.

Lemma all_tools_names c order : ∀ acc w w1 res,
  (∀ key ss, (key, ss) ∈ order → serverIDs c !! ss = Some key) →
  (∀ h ss, list_tools (env w) h ss = list_tools (env w) (past w) ss) →
  all_tools c order acc w = (w1, Ok res) →
  tool.Name <$> res
  = (tool.Name <$> acc)
    ++ (order ≫= λ kv, (λ name, kv.1 +:+ ":" +:+ name)
                         <$> native_names (list_tools (env w) (past w) kv.2)).
Proof.
  induction order as [|[key ss] rest IH]; intros acc w w1 res Hids Hstable; simpl.
  - intros [= <- <-]. by rewrite app_nil_r.
  - rewrite (Hids key ss) by left. simpl.
    destruct (server_tools key _ acc) as [acc'|e] eqn:Hserver; [|discriminate].
    intros Hrec. apply IH in Hrec.
    + rewrite Hrec, (server_tools_names _ _ _ _ Hserver), <- app_assoc. simpl.
      do 2 f_equal. apply list_bind_ext; [|done]. intros kv.
      simpl. by rewrite (Hstable _ kv.2).
    + intros k s Hin. apply Hids. by right.
    + intros h s. simpl. by rewrite !Hstable.
Qed.

(** In a registry reached by connects, with providers whose tool lists do
    not change during the call, a successful [Tools] returns every tool
    that the connections yield, each once, connection by connection in the
    order visited and in each connection's own order, named
    [<id>:<native name>]. *)
Theorem tools_lists_every_tool (p : Provider) (cts : list Cmd) w c errs order w1 res :
  connect_all NewClient cts (initial p) = (w, c, errs) →
  order ≡ₚ map_to_list (servers c) →
  (∀ h ss, list_tools (env w) h ss = list_tools (env w) (past w) ss) →
  Tools c order w = (w1, Ok res) →
  tool.Name <$> res
  = order ≫= λ kv, (λ name, kv.1 +:+ ":" +:+ name)
                     <$> native_names (list_tools (env w) (past w) kv.2).
Proof.
  intros Hrun Hperm Hstable. unfold Tools. case_bool_decide; [discriminate|].
  destruct (all_tools c order [] w) as [w2 [res'|e]] eqn:Hall; [|discriminate].
  case_bool_decide; [discriminate|]. intros [= <- <-].
  pose proof (connect_all_consistent _ _ _ _ _ _ (consistent_initial p) Hrun) as Hc.
  apply (all_tools_names c order [] w w2 res'); [|done|done].
  intros key ss Hin. rewrite Hperm in Hin. apply elem_of_map_to_list in Hin.
  by apply (cons_inv _ _ Hc).
Qed.

Lemma tools_lists_every_tool_witness :
  tool.Name <$> listed_BA
  = [("B", 1); ("A", 0)] ≫= λ kv, (λ name, kv.1 +:+ ":" +:+ name)
      <$> native_names (list_tools (env Demo.world_AB) (past Demo.world_AB) kv.2).
Proof.
  apply (tools_lists_every_tool Demo.provider [Demo.cmd "A"; Demo.cmd "B"]
           Demo.world_AB Demo.client_AB Demo.connected_AB.2 [("B", 1); ("A", 0)]
           (Tools Demo.client_AB [("B", 1); ("A", 0)] Demo.world_AB).1 listed_BA).
  - vm_compute. reflexivity.
  - replace (map_to_list (servers Demo.client_AB)) with [("A", 0); ("B", 1)]
      by (vm_compute; reflexivity).
    apply perm_swap.
  - intros h ss. reflexivity.
  - vm_compute. reflexivity.
Defined.

(** ** Schemas as [Tools] reads them and as the endpoint receives them *)

Section Decoding.

Import json.

#[local] Arguments unmarshal_map : simpl never.
#[local] Arguments marshal_map : simpl never.

(** Runs the decoders on an object whose keys are known. *)
Ltac decode :=
  repeat first
    [ progress simpl
    | rewrite unmarshal_elems_any
    | rewrite unmarshal_elems_strings
    | progress unfold api.set_Property, api.set_Parameters,
        tool.set_PropertyDefinition, tool.set_ParameterSchema ].

(** Writes what the encoder gives for the valid parts of a schema. *)
Ltac plain :=
  rewrite ?marshal_string_valid, ?marshal_any_valid, ?marshal_strings_valid,
    ?marshal_anys_valid by assumption.

Lemma reread_property p :
  tool.valid_PropertyDefinition p = true →
  tool.unmarshal_PropertyDefinition (tool.marshal_PropertyDefinition p)
    tool.zero_PropertyDefinition
  = Ok (returned_property p).
Proof.
  intros (Hty & Hdesc & Hitems & Henum)%valid_PropertyDefinition_parts.
  destruct p as [ty desc items enum].
  unfold tool.marshal_PropertyDefinition, returned_property.
  cbn [tool.prop_Type tool.prop_Description tool.prop_Items tool.prop_Enum] in *. plain.
  unfold tool.unmarshal_PropertyDefinition, unmarshal_struct.
  destruct desc as [|ch d]; destruct (is_nil items) eqn:Hi; destruct enum as [[|e es]|];
    try (apply is_nil_true in Hi as ->); decode; reflexivity.
Qed.

Lemma returned_map_facets (m : gmap string tool.PropertyDefinition) :
  property_facets <$> (returned_property <$> m) = property_facets <$> m.
Proof.
  rewrite <- map_fmap_compose. apply map_fmap_ext. intros. apply returned_property_facets.
Qed.

(** What [json.Marshal] writes for a [tool.ParameterSchema] whose strings
    are all valid UTF-8, read the way [Tools] reads an input schema (into
    the parameters it has prepared for the tool), gives the schema's
    facets back. *)
Theorem listed_schema_keeps_facets (id : string) (mcpTool : Tool) (s : tool.ParameterSchema) acc :
  tool.valid_ParameterSchema s = true →
  InputSchema mcpTool = Some (tool.marshal_ParameterSchema s) →
  ∃ t, server_tools id [(Some mcpTool, None)] acc = Ok (acc ++ [t])
    ∧ tool.Name t = id +:+ ":" +:+ tool_Name mcpTool
    ∧ schema_facets (tool.Parameters (tool.Function t)) = schema_facets s.
Proof.
  intros (Hty & Hreq & Hprops_ok & Hdefs & Hitems)%valid_ParameterSchema_parts Hschema.
  cbn [server_tools]. rewrite Hschema.
  unfold ConvertViaJSON, Marshal, value_marshal. cbv beta iota.
  unfold Unmarshal, tool.ParameterSchema_unmarshal, unmarshal_struct, tool.marshal_ParameterSchema.
  cbn [commonTool tool.Function tool.Parameters].
  destruct s as [ty req props defs items].
  cbn [tool.Type_ tool.Required tool.Properties tool.Defs tool.Items] in *. plain.
  destruct req as [[|r rs]|]; case_bool_decide as Hprops;
    destruct (is_nil defs) eqn:Hd; destruct (is_nil items) eqn:Hi;
    try (apply is_nil_true in Hd as ->); try (apply is_nil_true in Hi as ->);
    decode;
    rewrite ?(unmarshal_marshal_map _ _ _ returned_property)
      by (done || (intros k u Hl; destruct (Hprops_ok k u Hl); split;
                   [done|by apply reread_property]));
    decode;
    (eexists; split; [reflexivity|]; split; [reflexivity|]);
    unfold schema_facets; cbn [with_Parameters tool.Function tool.Parameters tool.Type_
      tool.Required tool.Properties tool.Defs tool.Items];
    rewrite ?Hprops; cbn [entries default from_option Datatypes.id];
    rewrite ?returned_map_facets; reflexivity.
Qed.

Lemma reread_converted_property p :
  tool.valid_PropertyDefinition p = true →
  tool.unmarshal_PropertyDefinition (api.marshal_Property (chat.convert_property p))
    tool.zero_PropertyDefinition
  = Ok (returned_property p).
Proof.
  intros (Hty & Hdesc & Hitems & Henum)%valid_PropertyDefinition_parts.
  destruct p as [ty desc items enum].
  unfold api.marshal_Property, chat.convert_property, returned_property.
  cbn [api.prop_Type api.prop_Description api.prop_Items api.prop_Enum api.marshal_PropertyType
       tool.prop_Type tool.prop_Description tool.prop_Items tool.prop_Enum] in *. plain.
  unfold tool.unmarshal_PropertyDefinition, unmarshal_struct.
  destruct (is_nil items) eqn:Hi; destruct enum as [[|e es]|];
    try (apply is_nil_true in Hi as ->); decode; reflexivity.
Qed.

(** [convertToOllamaTools] declares the tools in their order, one
    declaration per tool, of type "function", with the tool's name and
    description; for a tool whose parameter schema has only strings that
    are valid UTF-8, the parameters it declares, read back through
    [ConvertViaJSON], have the facets of the tool's own parameter schema. *)
Theorem declared_tools_keep_schema {E} (c : ollama.Client E) :
  length (chat.convertToOllamaTools c) = length (ollama.tools c)
  ∧ ∀ i t, ollama.tools c !! i = Some t →
      ∃ d,
        chat.convertToOllamaTools c !! i = Some d
        ∧ chat.Type_ d = "function"
        ∧ chat.Name (chat.Function d) = tool.fn_Name (tool.Function t)
        ∧ chat.Description (chat.Function d) = tool.fn_Description (tool.Function t)
        ∧ (tool.valid_ParameterSchema (tool.Parameters (tool.Function t)) = true →
           ∃ s',
             ConvertViaJSON (chat.Parameters (chat.Function d)) tool.zero_ParameterSchema = Ok s'
             ∧ schema_facets s' = schema_facets (tool.Parameters (tool.Function t))).
Proof.
  unfold chat.convertToOllamaTools. split; [by rewrite length_fmap|].
  intros i t Hl.
  exists (chat.convert_tool t).
  split; [by rewrite list_lookup_fmap, Hl|].
  do 3 (split; [reflexivity|]).
  intros (Hty & Hreq & Hprops_ok & Hdefs & Hitems)%valid_ParameterSchema_parts.
  destruct (tool.Parameters (tool.Function t)) as [ty req props defs items] eqn:Hparams.
  eexists.
  unfold chat.convert_tool. cbn [chat.Function chat.Parameters]. rewrite Hparams.
  cbn [tool.Type_ tool.Required tool.Properties tool.Defs tool.Items] in *.
  unfold ConvertViaJSON, Marshal, api.Parameters_marshal. cbv beta iota.
  unfold Unmarshal, tool.ParameterSchema_unmarshal, unmarshal_struct, api.marshal_Parameters.
  cbn [api.Type_ api.Required api.Properties api.Defs api.Items api.marshal_properties].
  rewrite marshal_map_fmap. plain.
  destruct req as [[|r rs]|];
    destruct (is_nil defs) eqn:Hd; destruct (is_nil items) eqn:Hi;
    try (apply is_nil_true in Hd as ->); try (apply is_nil_true in Hi as ->);
    decode;
    rewrite ?(unmarshal_marshal_map _ _ _ returned_property)
      by (done || (intros k u Hl'; destruct (Hprops_ok k u Hl'); split;
                   [done|by apply reread_converted_property]));
    decode;
    (split; [reflexivity|]);
    unfold schema_facets; cbn [tool.Type_ tool.Required tool.Properties tool.Defs tool.Items];
    cbn [entries default from_option Datatypes.id];
    rewrite ?returned_map_facets; reflexivity.
Qed.

(** A member that cannot be stored makes the whole object fail, wherever
    it stands among the members. *)
Lemma unmarshal_fields_fails {S} (set : string → value → S → result S) key v kvs :
  (key, v) ∈ kvs → (∀ to, ∃ e, set key v to = Err e) →
  ∀ to, ∃ e, unmarshal_fields set kvs to = Err e.
Proof.
  intros Hin Hfail. induction kvs as [|[k x] rest IH]; intros to.
  - by apply elem_of_nil in Hin.
  - cbn [unmarshal_fields]. apply elem_of_cons in Hin as [[= <- <-]|Hin].
    + destruct (Hfail to) as [e ->]. by exists e.
    + destruct (set k x to) as [to'|e]; [apply (IH Hin)|by exists e].
Qed.

(** The keys that select the member [type]: the name in any letter case. *)
Lemma find_field_type key :
  foldName key = "type" →
  find_field ["type"; "required"; "properties"; "$defs"; "items"] key = Some 0.
Proof.
  intros Hfold. unfold find_field. cbn [index_where].
  destruct (String.eqb key "type") eqn:E0; [done|].
  destruct (String.eqb key "required") eqn:E1;
    [apply String.eqb_eq in E1; subst; discriminate|].
  destruct (String.eqb key "properties") eqn:E2;
    [apply String.eqb_eq in E2; subst; discriminate|].
  destruct (String.eqb key "$defs") eqn:E3;
    [apply String.eqb_eq in E3; subst; discriminate|].
  destruct (String.eqb key "items") eqn:E4;
    [apply String.eqb_eq in E4; subst; discriminate|].
  cbn [fmap option_fmap option_map]. by rewrite Hfold.
Qed.

(** An input schema can only be converted when every [type] member it
    has, wherever it stands in the object and in whatever letter case its
    key is written, is a string or null: a tool whose schema gives a list
    of types, as JSON Schema allows, stops the listing. *)
Theorem input_schema_type_must_be_string (mcpTool : Tool) members key (v : value) :
  InputSchema mcpTool = Some (Object members) →
  (key, v) ∈ members → foldName key = "type" →
  (∀ s, v ≠ Str s) → v ≠ Null →
  stops_listing (Some mcpTool, None) = true.
Proof.
  intros Hschema Hin Hkey Hstr Hnull. unfold stops_listing. rewrite Hschema.
  unfold ConvertViaJSON, Marshal, value_marshal. cbv beta iota.
  unfold Unmarshal, tool.ParameterSchema_unmarshal, unmarshal_struct.
  destruct (unmarshal_fields_fails tool.set_ParameterSchema key v members Hin) with
    (to := tool.Parameters (tool.Function (commonTool "" mcpTool))) as [e ->]; [|done].
  intros to. unfold tool.set_ParameterSchema. rewrite (find_field_type key Hkey).
  destruct v; simpl; eauto; [by destruct Hnull | by destruct (Hstr s)].
Qed.

Lemma input_schema_type_must_be_string_witness :
  stops_listing (Some typed_late, None) = true.
Proof.
  apply (input_schema_type_must_be_string typed_late
           [("description", Str "a probe"); ("Type", Array [Str "object"; Str "null"])]
           "Type" (Array [Str "object"; Str "null"]));
    [reflexivity|apply list_elem_of_further, list_elem_of_here|reflexivity
    |discriminate|discriminate].
Defined.

End Decoding.

(** ** Chatting and dispatching by name *)

Lemma append_nil_r (s : string) : s +:+ "" = s.
Proof.
  induction s as [|c s IH]; [done|].
  change (String c (s +:+ "") = String c s). by rewrite IH.
Qed.

Lemma foldl_keep responses : ∀ finalResponse responseContent,
  foldl chat.keep (finalResponse, responseContent) responses
  = (default finalResponse (last responses),
     responseContent +:+ join (api.resp_Content <$> responses)).
Proof.
  induction responses as [|resp rest IH]; intros finalResponse responseContent.
  - simpl. by rewrite append_nil_r.
  - cbn [foldl]. unfold chat.keep at 2. cbn [snd]. rewrite IH.
    f_equal.
    + rewrite last_cons. by destruct (last rest).
    + rewrite fmap_cons. unfold join. cbn [foldr]. case_bool_decide as Hc.
      * by rewrite append_assoc.
      * rewrite Hc. done.
Qed.

(** [Chat] sends the model, the messages as given, streaming switched off,
    and the tool declarations when the adapter has tools. If the endpoint
    returns an error, [Chat] fails with "chat request failed: " and that
    error. Otherwise its response holds the contents of all the responses
    received, concatenated in order, and the tool calls of the last
    response only. *)
Theorem chat_joins_streamed_content {E} (endpoint : chat.Endpoint) (c : ollama.Client E)
    (messages : list api.Message) responses err :
  endpoint {| chat.Model := ollama.model c;
              chat.Messages := messages;
              chat.Stream := Some false;
              chat.Tools := match ollama.tools c with
                            | [] => None
                            | _ => Some (chat.convertToOllamaTools c)
                            end |} = (responses, err) →
  chat.Chat endpoint c messages
  = match err with
    | Some err => Err ("chat request failed: " +:+ err)
    | None =>
        Ok {| api.resp_Content := join (api.resp_Content <$> responses);
              api.ToolCalls := match last responses with
                               | Some resp => api.ToolCalls resp
                               | None => []
                               end |}
    end.
Proof.
  intros Hendpoint. unfold chat.Chat.
  assert ((if bool_decide (0 < length (ollama.tools c))
           then Some (chat.convertToOllamaTools c) else None)
          = match ollama.tools c with
            | [] => None
            | _ => Some (chat.convertToOllamaTools c)
            end) as ->.
  { destruct (ollama.tools c); [done|]. by rewrite bool_decide_eq_true_2 by (simpl; lia). }
  rewrite Hendpoint, foldl_keep. destruct err as [e|]; [done|].
  simpl. by destruct (last responses).
Qed.

Lemma append_inj_r (s t1 t2 : string) : s +:+ t1 = s +:+ t2 → t1 = t2.
Proof.
  induction s as [|c s IH]; [done|].
  change (String c (s +:+ t1) = String c (s +:+ t2) → t1 = t2).
  intros [= H]. by apply IH.
Qed.

Lemma after_colon_display (id name : string) :
  has_colon id = false → after_colon (id +:+ ":" +:+ name) = name.
Proof.
  induction id as [|ch id IH]; [done|].
  change (String ch id +:+ ":" +:+ name) with (String ch (id +:+ ":" +:+ name)).
  simpl. destruct (Ascii.eqb ch ":"); [discriminate|]. apply IH.
Qed.

(** What executing a call that names a listed tool comes to, when no
    registered id has a [':']. *)
Lemma ExecuteToolCall_listed c order w w1 res model t arguments w2 :
  registry_inv c →
  order ≡ₚ map_to_list (servers c) →
  Tools c order w = (w1, Ok res) →
  (∀ id ss, servers c !! id = Some ss → has_colon id = false) →
  t ∈ res →
  ∃ id ss h mcpTool,
    servers c !! id = Some ss
    ∧ (Some mcpTool, None) ∈ list_tools (env w) h ss
    ∧ tool.Name t = id +:+ ":" +:+ tool_Name mcpTool
    ∧ ollama.ExecuteToolCall {| ollama.model := model; ollama.tools := res |}
        {| api.call_Function :=
             {| api.call_Name := tool.Name t; api.call_Arguments := arguments |} |}
        (c, w2)
      = ((c, (CallTool ss {| Name := tool_Name mcpTool; Arguments := arguments |} w2).1),
         match call_tool (env w2) (past w2) ss
                 {| Name := tool_Name mcpTool; Arguments := arguments |} with
         | Err err =>
             Err ("tool execution failed: failed to call tool " +:+ tool_Name mcpTool
                  +:+ ": " +:+ err)
         | Ok result =>
             Ok match Content_ result with
                | Some content => content_string content
                | None => "Tool executed successfully"
                end
         end).
Proof.
  intros Hinv Hperm Htools Hcolon Hin.
  pose proof (Tools_sound _ _ _ _ _ Hinv Hperm Htools) as Hsound.
  destruct (Hsound t Hin) as (id & ss & h & mcpTool & Hl & Hm & Hname & Hfn & Hex).
  exists id, ss, h, mcpTool. do 3 (split; [done|]).
  unfold ollama.ExecuteToolCall.
  cbn [api.call_Function api.call_Name api.call_Arguments ollama.tools].
  destruct (find _ res) as [t'|] eqn:Hfind.
  - apply find_some in Hfind as [Hin' Heq]. apply list_elem_of_In in Hin'.
    apply String.eqb_eq in Heq.
    destruct (Hsound t' Hin') as (id' & ss' & h' & mcpTool' & Hl' & Hm' & Hname' & Hfn' & Hex').
    rewrite Hfn', Hname in Heq.
    assert (id' = id) as ->.
    { apply (f_equal before_colon) in Heq.
      rewrite !before_colon_display in Heq by eauto. done. }
    apply append_inj_r in Heq. apply (append_inj_r ":") in Heq.
    assert (ss' = ss) as -> by congruence.
    unfold tool.Tool_Execute. rewrite Hex'.
    unfold tool.Execute, MCPToolExecutor_ToolExecutor, Execute.
    cbn [fst snd serverID toolName]. rewrite Hl, Heq.
    unfold CallTool. cbn [fst snd].
    destruct (call_tool _ _ _ _) as [result|err]; [|done].
    by destruct (Content_ result).
  - exfalso. pose proof (find_none _ _ Hfind t) as Hno. cbv beta in Hno.
    rewrite Hfn, Hname, String.eqb_refl in Hno.
    by specialize (Hno ltac:(by apply list_elem_of_In)).
Qed.

(** A tool call is resolved by name among the listed tools. When no
    registered id has a [':'], a call naming a listed tool sends exactly
    one request, to the connection that owns the tool, with the tool's
    native name and the call's arguments. A call naming no listed tool
    fails with "tool <name> not found" and reaches no provider. *)
Theorem tool_call_reaches_owner (p : Provider) (cts : list Cmd) w c errs order w1 res model :
  connect_all NewClient cts (initial p) = (w, c, errs) →
  order ≡ₚ map_to_list (servers c) →
  Tools c order w = (w1, Ok res) →
  (∀ id ss, servers c !! id = Some ss → has_colon id = false) →
  (∀ t arguments w2, t ∈ res →
     ∃ id ss h mcpTool w3 r,
       servers c !! id = Some ss
       ∧ (Some mcpTool, None) ∈ list_tools (env w) h ss
       ∧ tool.Name t = id +:+ ":" +:+ tool_Name mcpTool
       ∧ ollama.ExecuteToolCall {| ollama.model := model; ollama.tools := res |}
           {| api.call_Function :=
                {| api.call_Name := tool.Name t; api.call_Arguments := arguments |} |}
           (c, w2) = ((c, w3), r)
       ∧ calls (past w3)
         = calls (past w2) ++ [(ss, {| Name := tool_Name mcpTool; Arguments := arguments |})])
  ∧ (∀ name arguments w2,
       (∀ t, t ∈ res → tool.fn_Name (tool.Function t) ≠ name) →
       ollama.ExecuteToolCall {| ollama.model := model; ollama.tools := res |}
         {| api.call_Function := {| api.call_Name := name; api.call_Arguments := arguments |} |}
         (c, w2) = ((c, w2), Err ("tool " +:+ name +:+ " not found"))).
Proof.
  intros Hrun Hperm Htools Hcolon.
  pose proof (connect_all_consistent _ _ _ _ _ _ (consistent_initial p) Hrun) as Hc.
  split.
  - intros t arguments w2 Hin.
    destruct (ExecuteToolCall_listed c order w w1 res model t arguments w2
                (cons_inv _ _ Hc) Hperm Htools Hcolon Hin)
      as (id & ss & h & mcpTool & Hl & Hm & Hname & Hexec).
    exists id, ss, h, mcpTool. eexists _, _. by repeat (split; [done|]).
  - intros name arguments w2 Hnone.
    unfold ollama.ExecuteToolCall. cbn [api.call_Function api.call_Name api.call_Arguments ollama.tools].
    destruct (find _ res) as [t'|] eqn:Hfind; [|done].
    apply find_some in Hfind as [Hin' Heq]. apply list_elem_of_In in Hin'.
    apply String.eqb_eq in Heq. by destruct (Hnone t' Hin').
Qed.

Lemma listed_schema_keeps_facets_witness :
  ∃ t, server_tools "B" [(Some Samples.tagger, None)] [] = Ok ([] ++ [t])
    ∧ tool.Name t = "B" +:+ ":" +:+ tool_Name Samples.tagger
    ∧ schema_facets (tool.Parameters (tool.Function t)) = schema_facets Demo.schema.
Proof.
  apply (listed_schema_keeps_facets "B" Samples.tagger Demo.schema []);
    [vm_compute; reflexivity|reflexivity].
Defined.

Lemma declared_tools_keep_schema_witness :
  ∃ d s',
    chat.convertToOllamaTools Demo.adapter !! 2 = Some d
    ∧ chat.Type_ d = "function"
    ∧ chat.Name (chat.Function d) = "B:status"
    ∧ chat.Description (chat.Function d) = "reports"
    ∧ ConvertViaJSON (chat.Parameters (chat.Function d)) tool.zero_ParameterSchema = Ok s'
    ∧ elems (tool.Required s') = ["verbose"].
Proof.
  destruct (proj2 (declared_tools_keep_schema Demo.adapter) 2
              (nth 2 (ollama.tools Demo.adapter) (commonTool "" Demo.ping))
              ltac:(vm_compute; reflexivity))
    as (d & Hd & Hty & Hname & Hdesc & Hread).
  destruct (Hread ltac:(vm_compute; reflexivity)) as (s' & Hconv & Hfacets).
  exists d, s'. repeat (split; [done|]).
  exact (f_equal (λ f, f.1.1.1.2) Hfacets).
Defined.

Lemma chat_joins_streamed_content_witness :
  chat.Chat Samples.endpoint Demo.adapter Samples.question
  = Ok {| api.resp_Content := "Hello"; api.ToolCalls := [Demo.call "B:ping"] |}.
Proof.
  exact (chat_joins_streamed_content Samples.endpoint Demo.adapter Samples.question
           Samples.pieces None eq_refl).
Defined.

Lemma tool_call_reaches_owner_witness :
  ∃ id ss h mcpTool w3 r,
    servers Demo.client_AB !! id = Some ss
    ∧ (Some mcpTool, None) ∈ list_tools (env Demo.world_AB) h ss
    ∧ "B:ping" = id +:+ ":" +:+ tool_Name mcpTool
    ∧ ollama.ExecuteToolCall {| ollama.model := "qwen3:14b"; ollama.tools := listed_BA |}
        (Demo.call "B:ping") (Demo.client_AB, Demo.world_AB) = ((Demo.client_AB, w3), r)
    ∧ calls (past w3)
      = calls (past Demo.world_AB) ++ [(ss, {| Name := tool_Name mcpTool; Arguments := ∅ |})].
Proof.
  apply (proj1 (tool_call_reaches_owner Demo.provider [Demo.cmd "A"; Demo.cmd "B"]
                  Demo.world_AB Demo.client_AB Demo.connected_AB.2 [("B", 1); ("A", 0)]
                  (Tools Demo.client_AB [("B", 1); ("A", 0)] Demo.world_AB).1 listed_BA "qwen3:14b"
                  ltac:(vm_compute; reflexivity)
                  ltac:(replace (map_to_list (servers Demo.client_AB)) with [("A", 0); ("B", 1)]
                          by (vm_compute; reflexivity); apply perm_swap)
                  ltac:(vm_compute; reflexivity)
                  ltac:(intros id ss Hl;
                        destruct (decide (id = "A")) as [->|];
                        [reflexivity|];
                        destruct (decide (id = "B")) as [->|];
                        [reflexivity|];
                        exfalso; revert Hl;
                        change (servers Demo.client_AB) with
                          (<["B" := 1]> (<["A" := 0]> (∅ : gmap string nat)));
                        rewrite !lookup_insert_ne, lookup_empty by done; discriminate))
           (commonTool "B" Demo.ping) ∅ Demo.world_AB).
  left.
Defined.

(** ** Loading the configuration *)

Section Loading.

Import config.

Implicit Types (host : Host) (servers : list Config).

Lemma validate_None servers : ∀ i,
  validate i servers = None
  ↔ Forall (λ config, cfg_Name config ≠ "" ∧ Command config ≠ "") servers.
Proof.
  induction servers as [|config rest IH]; intros i; simpl.
  - split; [constructor|done].
  - rewrite Forall_cons.
    case_bool_decide as Hn; [split; [discriminate|tauto]|].
    case_bool_decide as Hc; [split; [discriminate|tauto]|].
    rewrite IH. tauto.
Qed.

Lemma validate_app pre rest : ∀ i,
  Forall (λ config, cfg_Name config ≠ "" ∧ Command config ≠ "") pre →
  validate i (pre ++ rest) = validate (i + length pre) rest.
Proof.
  induction pre as [|config pre IH]; intros i Hall; simpl.
  - by rewrite Nat.add_0_r.
  - apply Forall_cons in Hall as [[Hn Hc] Hall].
    rewrite !bool_decide_eq_false_2 by done. rewrite IH by done. f_equal. lia.
Qed.

(** [LoadConfigFromFile] succeeds exactly when the file can be read, parses,
    and every server in it has a name and a command; it then returns the
    servers as parsed. *)
Theorem load_config_succeeds_iff host filePath servers :
  LoadConfigFromFile host filePath = Ok servers
  ↔ ∃ data configFile,
      ReadFile host filePath = Ok data
      ∧ yaml_Unmarshal host data = Ok configFile
      ∧ Servers configFile = servers
      ∧ Forall (λ config, cfg_Name config ≠ "" ∧ Command config ≠ "") servers.
Proof.
  unfold LoadConfigFromFile. split.
  - destruct (ReadFile host filePath) as [data|e] eqn:Hread; [|discriminate].
    destruct (yaml_Unmarshal host data) as [configFile|e] eqn:Hparse; [|discriminate].
    destruct (validate 0 (Servers configFile)) as [e|] eqn:Hv; [discriminate|].
    intros [= <-]. exists data, configFile.
    split; [done|]. split; [done|]. split; [done|]. by apply (validate_None _ 0).
  - intros (data & configFile & -> & -> & <- & Hall).
    by rewrite (proj2 (validate_None _ 0) Hall).
Qed.

(** The servers are checked in order, the name before the command: the
    error names the index of the first server without a name, or the name
    of the first server without a command, whichever server comes first. *)
Theorem load_config_reports_first_invalid host filePath data configFile pre bad post :
  ReadFile host filePath = Ok data →
  yaml_Unmarshal host data = Ok configFile →
  Servers configFile = pre ++ bad :: post →
  Forall (λ config, cfg_Name config ≠ "" ∧ Command config ≠ "") pre →
  (cfg_Name bad = "" →
     LoadConfigFromFile host filePath
     = Err ("server at index " +:+ itoa (length pre) +:+ " has empty name"))
  ∧ (cfg_Name bad ≠ "" → Command bad = "" →
       LoadConfigFromFile host filePath
       = Err ("server " +:+ cfg_Name bad +:+ " has empty command")).
Proof.
  intros Hread Hparse Hservers Hpre. unfold LoadConfigFromFile.
  rewrite Hread, Hparse, Hservers, validate_app by done. simpl.
  split.
  - intros Hname. by rewrite bool_decide_eq_true_2.
  - intros Hname Hcmd. by rewrite bool_decide_eq_false_2, bool_decide_eq_true_2.
Qed.

Lemma LoadConfigFromFile_fst host filePath :
  LoadConfigFromFile host filePath = fst <$> LoadConfigWithOllamaFromFile host filePath.
Proof.
  unfold LoadConfigWithOllamaFromFile, LoadConfigFromFile.
  destruct (ReadFile host filePath) as [data|e]; [|done].
  destruct (yaml_Unmarshal host data) as [configFile|e]; [|done].
  by destruct (validate 0 (Servers configFile)).
Qed.

(** The two loaders agree: [LoadConfigWithOllamaFromFile] fails with the
    error of [LoadConfigFromFile] and succeeds with its servers; the
    Ollama settings it adds never have an empty URL or model, "llama3.2"
    and the local endpoint standing in for what the file leaves out. *)
Theorem loaders_agree host filePath :
  match LoadConfigWithOllamaFromFile host filePath with
  | Err err => LoadConfigFromFile host filePath = Err err
  | Ok (servers, ollamaConfig) =>
      LoadConfigFromFile host filePath = Ok servers
      ∧ URL ollamaConfig ≠ "" ∧ Model ollamaConfig ≠ ""
      ∧ ∀ data configFile,
          ReadFile host filePath = Ok data → yaml_Unmarshal host data = Ok configFile →
          (URL (Ollama configFile) ≠ "" → URL ollamaConfig = URL (Ollama configFile))
          ∧ (URL (Ollama configFile) = "" → URL ollamaConfig = "http://localhost:11434")
          ∧ (Model (Ollama configFile) ≠ "" → Model ollamaConfig = Model (Ollama configFile))
          ∧ (Model (Ollama configFile) = "" → Model ollamaConfig = "llama3.2")
  end.
Proof.
  unfold LoadConfigWithOllamaFromFile, LoadConfigFromFile.
  destruct (ReadFile host filePath) as [data|e] eqn:Hread; [|done].
  destruct (yaml_Unmarshal host data) as [configFile|e] eqn:Hparse; [|done].
  destruct (validate 0 (Servers configFile)) as [e|]; [done|].
  split; [done|]. simpl.
  split; [by case_bool_decide|]. split; [by case_bool_decide|].
  intros data' configFile' [= <-] Hparse'. rewrite Hparse in Hparse'.
  injection Hparse' as <-. repeat case_bool_decide; tauto.
Qed.

Lemma first_found_skips host pre : ∀ rest,
  Forall (λ path, Stat host path = false) pre →
  first_found host (pre ++ rest) = first_found host rest.
Proof.
  induction pre as [|path pre IH]; intros rest Hall; [done|].
  apply Forall_cons in Hall as [Hpath Hall]. simpl. rewrite Hpath. by apply IH.
Qed.

(** [LoadConfigFromDefaultPath] loads the first of its paths that exists
    and nothing else: if that file does not load, its error is returned
    and the later paths are not tried. The four relative paths come before
    those in the home directory. Without any existing path it fails with
    "no MCP configuration file found in default paths". *)
Theorem default_path_loads_first_existing host :
  (∀ pre path post,
     possiblePaths host = pre ++ path :: post →
     Forall (λ path, Stat host path = false) pre → Stat host path = true →
     LoadConfigFromDefaultPath host = LoadConfigFromFile host path)
  ∧ (Forall (λ path, Stat host path = false) (possiblePaths host) →
       LoadConfigFromDefaultPath host = Err "no MCP configuration file found in default paths")
  ∧ (Stat host "mcp.yaml" = true →
       LoadConfigFromDefaultPath host = LoadConfigFromFile host "mcp.yaml").
Proof.
  unfold LoadConfigFromDefaultPath. split; [|split].
  - intros pre path post -> Hpre Hpath.
    rewrite first_found_skips by done. simpl. by rewrite Hpath.
  - intros Hall. rewrite <- (app_nil_r (possiblePaths host)).
    by rewrite first_found_skips.
  - intros Hpath. unfold possiblePaths. simpl. by rewrite Hpath.
Qed.

(** At the start of [main], on a machine that answers a second reading of
    a file as it answered the first: when [mcp.yaml] exists but does not
    load, no other configuration file is consulted; the program runs with
    the configuration written into it and the model "qwen3:14b". When
    [mcp.yaml] loads, its servers and its Ollama settings are used. *)
Theorem settings_with_existing_file host hardcoded :
  Stat host "mcp.yaml" = true →
  match LoadConfigWithOllamaFromFile host "mcp.yaml" with
  | Ok loaded => settings host hardcoded = loaded
  | Err _ =>
      settings host hardcoded
      = (hardcoded, {| URL := "http://localhost:11434"; Model := "qwen3:14b" |})
  end.
Proof.
  intros Hstat. unfold settings.
  pose proof (LoadConfigFromFile_fst host "mcp.yaml") as Hagree.
  destruct (LoadConfigWithOllamaFromFile host "mcp.yaml") as [[servers ollamaConfig]|e]; [done|].
  unfold LoadConfigFromDefaultPath, possiblePaths. simpl. by rewrite Hstat, Hagree.
Qed.

End Loading.

Lemma load_config_succeeds_iff_witness :
  config.LoadConfigFromFile Hosts.host "mcp.yml"
  = Ok [Demo.config "first" "A"; Demo.config "last" "B"].
Proof.
  apply (proj2 (load_config_succeeds_iff Hosts.host "mcp.yml"
                  [Demo.config "first" "A"; Demo.config "last" "B"])).
  exists "good", Hosts.good_file.
  split; [reflexivity|]. split; [reflexivity|]. split; [reflexivity|].
  repeat constructor; discriminate.
Defined.

Lemma load_config_reports_first_invalid_witness :
  config.LoadConfigFromFile Hosts.host "mcp.yaml" = Err "server at index 1 has empty name".
Proof.
  apply (proj1 (load_config_reports_first_invalid Hosts.host "mcp.yaml" "bad" Hosts.bad_file
                  [Demo.config "first" "A"] (Demo.config "" "B") [Demo.config "third" ""]
                  eq_refl eq_refl eq_refl
                  ltac:(repeat constructor; discriminate))).
  reflexivity.
Defined.

Lemma loaders_agree_witness :
  config.LoadConfigFromFile Hosts.host "mcp.yml"
  = Ok [Demo.config "first" "A"; Demo.config "last" "B"]
  ∧ config.URL {| config.URL := "http://localhost:11434"; config.Model := "qwen3:8b" |} ≠ "".
Proof.
  split.
  - exact (proj1 (loaders_agree Hosts.host "mcp.yml")).
  - exact (proj1 (proj2 (loaders_agree Hosts.host "mcp.yml"))).
Defined.

Lemma default_path_loads_first_existing_witness :
  config.LoadConfigFromDefaultPath Hosts.host_yml = config.LoadConfigFromFile Hosts.host_yml "mcp.yml"
  ∧ config.LoadConfigFromDefaultPath Hosts.host = config.LoadConfigFromFile Hosts.host "mcp.yaml".
Proof.
  split.
  - apply (proj1 (default_path_loads_first_existing Hosts.host_yml) ["mcp.yaml"] "mcp.yml"
             ["config/mcp.yaml"; "config/mcp.yml"; "/home/u/.mcp.yaml"; "/home/u/.mcp.yml";
              "/home/u/.config/mcp.yaml"; "/home/u/.config/mcp.yml"]);
      [reflexivity | repeat constructor | reflexivity].
  - apply (proj2 (proj2 (default_path_loads_first_existing Hosts.host))). reflexivity.
Defined.

Lemma settings_with_existing_file_witness :
  config.settings Hosts.host config.memory_server
  = (config.memory_server,
     {| config.URL := "http://localhost:11434"; config.Model := "qwen3:14b" |}).
Proof.
  exact (settings_with_existing_file Hosts.host config.memory_server eq_refl).
Defined.

(** ** Expanding environment variables *)

Section Expanding.

Import config.

Variable getenv : string → string.

Lemma has_char_app x (s t : string) : has_char x (s +:+ t) = has_char x s || has_char x t.
Proof.
  induction s as [|c s IH]; [done|].
  change (has_char x (String c (s +:+ t)) = has_char x (String c s) || has_char x t).
  simpl. by rewrite IH, orb_assoc.
Qed.

Lemma expand_braces_plain fuel : ∀ s,
  has_char "$" s = false → expand_braces fuel getenv s = s.
Proof.
  induction fuel as [|fuel IH]; intros [|c r]; simpl; try done.
  intros H. apply orb_false_elim in H as [-> Hr]. by rewrite IH.
Qed.

Lemma expand_names_plain fuel : ∀ s,
  has_char "$" s = false → expand_names fuel getenv s = s.
Proof.
  induction fuel as [|fuel IH]; intros [|c r]; simpl; try done.
  intros H. apply orb_false_elim in H as [-> Hr]. by rewrite IH.
Qed.

(** A value without ['$'] is left as it is. *)
Theorem expand_without_dollar (value : string) :
  has_char "$" value = false → expandEnvironmentVariables getenv value = value.
Proof.
  intros H. unfold expandEnvironmentVariables.
  by rewrite (expand_braces_plain _ _ H), expand_names_plain.
Qed.

Lemma expand_braces_prefix pre : ∀ fuel t,
  has_char "$" pre = false →
  expand_braces (String.length pre + fuel) getenv (pre +:+ t)
  = pre +:+ expand_braces fuel getenv t.
Proof.
  induction pre as [|c pre IH]; intros fuel t; [done|].
  change (String c pre +:+ t) with (String c (pre +:+ t)).
  simpl. intros H. apply orb_false_elim in H as [-> Hr]. by rewrite IH.
Qed.

Lemma expand_names_prefix pre : ∀ fuel t,
  has_char "$" pre = false →
  expand_names (String.length pre + fuel) getenv (pre +:+ t)
  = pre +:+ expand_names fuel getenv t.
Proof.
  induction pre as [|c pre IH]; intros fuel t; [done|].
  change (String c pre +:+ t) with (String c (pre +:+ t)).
  simpl. intros H. apply orb_false_elim in H as [-> Hr]. by rewrite IH.
Qed.

Lemma until_brace_name name post :
  has_char "}" name = false → until_brace (name +:+ "}" +:+ post) = Some (name, post).
Proof.
  induction name as [|c name IH]; [done|].
  change (String c name +:+ "}" +:+ post) with (String c (name +:+ "}" +:+ post)).
  simpl. intros H. apply orb_false_elim in H as [-> Hr]. by rewrite IH.
Qed.

Lemma name_run_name name : ∀ post,
  GoTime.string_forall is_name_char name = true →
  (∀ c r, post = String c r → is_name_char c = false) →
  name_run (name +:+ post) = (name, post).
Proof.
  induction name as [|c name IH]; intros post Hname Hpost.
  - destruct post as [|c r]; [done|]. simpl. by rewrite (Hpost c r).
  - change (String c name +:+ post) with (String c (name +:+ post)).
    simpl in *. apply andb_prop in Hname as [-> Hname]. by rewrite IH.
Qed.

Lemma expand_braces_at fuel name post :
  name ≠ "" → has_char "}" name = false →
  expand_braces (S fuel) getenv (String "$" (String "{" (name +:+ "}" +:+ post)))
  = getenv name +:+ expand_braces fuel getenv post.
Proof.
  intros Hne Hbrace. cbn [expand_braces Ascii.eqb Bool.eqb].
  rewrite until_brace_name by done. by destruct name.
Qed.

Lemma expand_braces_not_at fuel first rest :
  Ascii.eqb first "{" = false →
  expand_braces (S fuel) getenv (String "$" (String first rest))
  = String "$" (expand_braces fuel getenv (String first rest)).
Proof. intros H. cbn [expand_braces Ascii.eqb Bool.eqb]. by rewrite H. Qed.

Lemma expand_names_at fuel first name post :
  is_name_start first = true → GoTime.string_forall is_name_char name = true →
  (∀ c r, post = String c r → is_name_char c = false) →
  expand_names (S fuel) getenv (String "$" (String first (name +:+ post)))
  = getenv (String first name) +:+ expand_names fuel getenv post.
Proof.
  intros Hfirst Hname Hend. cbn [expand_names Ascii.eqb Bool.eqb].
  rewrite Hfirst. by rewrite name_run_name.
Qed.

(** A reference [${NAME}] standing between texts without ['$'] is replaced
    by the value of [NAME] (empty when the variable is not set), for any
    non-empty name without ['}'] whose value has no ['$'] itself. *)
Theorem expand_braced_variable (pre name post : string) :
  name ≠ "" → has_char "}" name = false →
  has_char "$" pre = false → has_char "$" post = false → has_char "$" (getenv name) = false →
  expandEnvironmentVariables getenv (pre +:+ "${" +:+ name +:+ "}" +:+ post)
  = pre +:+ getenv name +:+ post.
Proof.
  intros Hne Hbrace Hpre Hpost Hval. unfold expandEnvironmentVariables.
  assert (expand_braces (String.length (pre +:+ "${" +:+ name +:+ "}" +:+ post)) getenv
            (pre +:+ "${" +:+ name +:+ "}" +:+ post)
          = pre +:+ getenv name +:+ post) as ->.
  { rewrite append_length, expand_braces_prefix by done. f_equal.
    change ("${" +:+ name +:+ "}" +:+ post)
      with (String "$" (String "{" (name +:+ "}" +:+ post))).
    cbn [String.length]. rewrite expand_braces_at by done.
    by rewrite expand_braces_plain. }
  apply expand_names_plain. by rewrite !has_char_app, Hpre, Hpost, Hval.
Qed.

(** A reference [$NAME] standing between texts without ['$'] is replaced
    by the value of [NAME], the name being the letter or underscore after
    the dollar and all the letters, digits and underscores that follow. *)
Theorem expand_named_variable (pre : string) (first : ascii) (name post : string) :
  is_name_start first = true → GoTime.string_forall is_name_char name = true →
  (∀ c r, post = String c r → is_name_char c = false) →
  has_char "$" pre = false → has_char "$" post = false →
  has_char "$" (getenv (String first name)) = false →
  expandEnvironmentVariables getenv (pre +:+ "$" +:+ String first name +:+ post)
  = pre +:+ getenv (String first name) +:+ post.
Proof.
  intros Hfirst Hname Hend Hpre Hpost Hval. unfold expandEnvironmentVariables.
  assert (Ascii.eqb first "{" = false) as Hnotbrace.
  { destruct (Ascii.eqb_spec first "{") as [->|]; [discriminate Hfirst|done]. }
  assert (expand_braces (String.length (pre +:+ "$" +:+ String first name +:+ post)) getenv
            (pre +:+ "$" +:+ String first name +:+ post)
          = pre +:+ "$" +:+ String first name +:+ post) as ->.
  { rewrite append_length, expand_braces_prefix by done. f_equal.
    change ("$" +:+ String first name +:+ post)
      with (String "$" (String first (name +:+ post))).
    cbn [String.length]. rewrite expand_braces_not_at by done.
    rewrite expand_braces_plain; [done|].
    change (has_char "$" (String first (name +:+ post)) = false).
    assert (∀ c, is_name_char c = true → Ascii.eqb c "$" = false) as Hnames.
    { intros c Hc. destruct (Ascii.eqb_spec c "$") as [->|]; [discriminate Hc|done]. }
    simpl. rewrite Hnames by (unfold is_name_char; by rewrite Hfirst).
    rewrite has_char_app, Hpost, orb_false_r. clear -Hname Hnames.
    induction name as [|c name IH]; [done|]. simpl in *.
    apply andb_prop in Hname as [Hc Hname]. by rewrite (Hnames c Hc), IH. }
  rewrite append_length, expand_names_prefix by done. f_equal.
  change ("$" +:+ String first name +:+ post)
    with (String "$" (String first (name +:+ post))).
  cbn [String.length]. rewrite expand_names_at by done.
  by rewrite expand_names_plain.
Qed.

End Expanding.

Lemma expand_without_dollar_witness :
  config.expandEnvironmentVariables (config.Getenv Hosts.host) "/usr/bin/env" = "/usr/bin/env".
Proof.
  apply (expand_without_dollar (config.Getenv Hosts.host) "/usr/bin/env"). reflexivity.
Defined.

Lemma expand_braced_variable_witness :
  config.expandEnvironmentVariables (config.Getenv Hosts.host) ("--root=" +:+ "${" +:+ "HOME" +:+ "}" +:+ "/data")
  = "--root=" +:+ config.Getenv Hosts.host "HOME" +:+ "/data".
Proof.
  apply (expand_braced_variable (config.Getenv Hosts.host) "--root=" "HOME" "/data");
    [discriminate | reflexivity | reflexivity | reflexivity | reflexivity].
Defined.

Lemma expand_named_variable_witness :
  config.expandEnvironmentVariables (config.Getenv Hosts.host)
    ("--root=" +:+ "$" +:+ String "H" "OME" +:+ "/data")
  = "--root=" +:+ config.Getenv Hosts.host (String "H" "OME") +:+ "/data".
Proof.
  apply (expand_named_variable (config.Getenv Hosts.host) "--root=" "H" "OME" "/data");
    [reflexivity | reflexivity | intros c r [= <- <-]; reflexivity
    | reflexivity | reflexivity | reflexivity].
Defined.

(** ** The requests behind a response *)

Lemma tool_messages_requests c order w w1 res model :
  registry_inv c →
  order ≡ₚ map_to_list (servers c) →
  Tools c order w = (w1, Ok res) →
  (∀ id ss, servers c !! id = Some ss → has_colon id = false) →
  ∀ toolCalls acc w2,
    (∀ toolCall, toolCall ∈ toolCalls →
       ∃ t, t ∈ res ∧ tool.Name t = api.call_Name (api.call_Function toolCall)) →
    ∃ w3 msgs,
      ollama.tool_messages {| ollama.model := model; ollama.tools := res |} toolCalls acc (c, w2)
      = ((c, w3), msgs)
      ∧ calls (past w3) = calls (past w2) ++ omap (request_of c) toolCalls.
Proof.
  intros Hinv Hperm Htools Hcolon.
  induction toolCalls as [|[[name arguments]] rest IH]; intros acc w2 Hlisted.
  - exists w2, acc. simpl. by rewrite app_nil_r.
  - destruct (Hlisted {| api.call_Function :=
                           {| api.call_Name := name; api.call_Arguments := arguments |} |})
      as (t & Hin & Hname); [left|]. simpl in Hname.
    destruct (ExecuteToolCall_listed c order w w1 res model t arguments w2
                Hinv Hperm Htools Hcolon Hin)
      as (id & ss & h & mcpTool & Hl & Hm & Hdisplay & Hexec).
    rewrite Hname in Hexec. cbn [ollama.tool_messages]. rewrite Hexec.
    match goal with
    | |- context [ollama.tool_messages _ rest ?acc' (c, ?w')] =>
        destruct (IH acc' w') as (w3 & msgs & Hrun & Hcalls)
    end.
    { intros toolCall Hrest. apply Hlisted. by right. }
    exists w3, msgs. split; [exact Hrun|].
    assert (request_of c {| api.call_Function :=
                              {| api.call_Name := name; api.call_Arguments := arguments |} |}
            = Some (ss, {| Name := tool_Name mcpTool; Arguments := arguments |})) as Hreq.
    { unfold request_of. cbn [api.call_Function api.call_Name api.call_Arguments].
      by rewrite <- Hname, Hdisplay, before_colon_display, after_colon_display, Hl by eauto. }
    rewrite Hcalls. cbn [omap list_omap]. rewrite Hreq.
    simpl. by rewrite <- app_assoc.
Qed.

(** When no registered id has a [':'], handling a response whose tool
    calls all name listed tools sends one request per call, in the order
    of the calls, each to the session registered under the part of the
    call's name before the first [':'], for the part after it, with the
    call's arguments. *)
Theorem handled_calls_become_requests (p : Provider) (cts : list Cmd) w c errs order w1 res
    model (response : api.ChatResponse) w2 :
  connect_all NewClient cts (initial p) = (w, c, errs) →
  order ≡ₚ map_to_list (servers c) →
  Tools c order w = (w1, Ok res) →
  (∀ id ss, servers c !! id = Some ss → has_colon id = false) →
  (∀ toolCall, toolCall ∈ api.ToolCalls response →
     ∃ t, t ∈ res ∧ tool.Name t = api.call_Name (api.call_Function toolCall)) →
  ∃ w3 msgs,
    ollama.HandleToolCallsInResponse {| ollama.model := model; ollama.tools := res |}
      response (c, w2) = ((c, w3), (msgs, None))
    ∧ calls (past w3) = calls (past w2) ++ omap (request_of c) (api.ToolCalls response)
    ∧ length (omap (request_of c) (api.ToolCalls response)) = length (api.ToolCalls response).
Proof.
  intros Hrun Hperm Htools Hcolon Hlisted.
  pose proof (connect_all_consistent _ _ _ _ _ _ (consistent_initial p) Hrun) as Hc.
  destruct (tool_messages_requests c order w w1 res model (cons_inv _ _ Hc) Hperm Htools Hcolon
              (api.ToolCalls response) [] w2 Hlisted) as (w3 & msgs & Hmsgs & Hcalls).
  assert (length (omap (request_of c) (api.ToolCalls response)) = length (api.ToolCalls response))
    as Hlen.
  { apply (f_equal length) in Hcalls. rewrite length_app in Hcalls.
    clear -Hlisted Hc Hperm Htools Hcolon.
    induction (api.ToolCalls response) as [|toolCall rest IH]; [done|].
    destruct (Hlisted toolCall) as (t & Hin & Hname); [left|].
    destruct (Tools_sound _ _ _ _ _ (cons_inv _ _ Hc) Hperm Htools t Hin)
      as (id & ss & h & mcpTool & Hl & _ & Hdisplay & _).
    assert (is_Some (request_of c toolCall)) as [req Hreq].
    { unfold request_of. rewrite <- Hname, Hdisplay, before_colon_display, Hl by eauto. eauto. }
    cbn [omap list_omap]. rewrite Hreq. simpl.
    rewrite IH; [done|]. intros tc Htc. apply Hlisted. by right. }
  unfold ollama.HandleToolCallsInResponse.
  destruct (api.ToolCalls response) as [|toolCall rest] eqn:Hcallsv.
  - exists w2, None. simpl. by rewrite app_nil_r.
  - rewrite Hmsgs. exists w3, (Some msgs). done.
Qed.

Lemma handled_calls_become_requests_witness :
  ∃ w3 msgs,
    ollama.HandleToolCallsInResponse {| ollama.model := "qwen3:14b"; ollama.tools := listed_BA |}
      {| api.resp_Content := ""; api.ToolCalls := [Demo.call "B:ping"; Demo.call "A:ping"] |}
      (Demo.client_AB, Demo.world_AB) = ((Demo.client_AB, w3), (msgs, None))
    ∧ calls (past w3)
      = calls (past Demo.world_AB)
        ++ [(1, {| Name := "ping"; Arguments := ∅ |}); (0, {| Name := "ping"; Arguments := ∅ |})].
Proof.
  destruct (handled_calls_become_requests Demo.provider [Demo.cmd "A"; Demo.cmd "B"]
              Demo.world_AB Demo.client_AB Demo.connected_AB.2 [("B", 1); ("A", 0)]
              (Tools Demo.client_AB [("B", 1); ("A", 0)] Demo.world_AB).1 listed_BA "qwen3:14b"
              {| api.resp_Content := ""; api.ToolCalls := [Demo.call "B:ping"; Demo.call "A:ping"] |}
              Demo.world_AB
              ltac:(vm_compute; reflexivity)
              ltac:(replace (map_to_list (servers Demo.client_AB)) with [("A", 0); ("B", 1)]
                      by (vm_compute; reflexivity); apply perm_swap)
              ltac:(vm_compute; reflexivity)
              ltac:(intros id ss Hl;
                    destruct (decide (id = "A")) as [->|];
                    [reflexivity|];
                    destruct (decide (id = "B")) as [->|];
                    [reflexivity|];
                    exfalso; revert Hl;
                    change (servers Demo.client_AB) with
                      (<["B" := 1]> (<["A" := 0]> (∅ : gmap string nat)));
                    rewrite !lookup_insert_ne, lookup_empty by done; discriminate)
              ltac:(intros toolCall Hin;
                    apply elem_of_cons in Hin as [->|Hin];
                    [exists (commonTool "B" Demo.ping); split; [left|reflexivity]|];
                    apply elem_of_cons in Hin as [->|Hin];
                    [exists (commonTool "A" Demo.ping); split; [right; right; left|reflexivity]|];
                    by apply elem_of_nil in Hin))
    as (w3 & msgs & Hrun & Hcalls & _).
  exists w3, msgs. split; [exact Hrun|exact Hcalls].
Defined.

(** When the provider fails a call to a listed tool, the message handed
    back for the model says so, naming the native tool and carrying the
    provider's error, and the caller gets no error. *)
Theorem provider_failure_reaches_the_model (p : Provider) (cts : list Cmd) w c errs order w1 res
    model t arguments w2 :
  connect_all NewClient cts (initial p) = (w, c, errs) →
  order ≡ₚ map_to_list (servers c) →
  Tools c order w = (w1, Ok res) →
  (∀ id ss, servers c !! id = Some ss → has_colon id = false) →
  t ∈ res →
  ∃ id ss h mcpTool,
    servers c !! id = Some ss
    ∧ (Some mcpTool, None) ∈ list_tools (env w) h ss
    ∧ tool.Name t = id +:+ ":" +:+ tool_Name mcpTool
    ∧ ∀ err,
        call_tool (env w2) (past w2) ss {| Name := tool_Name mcpTool; Arguments := arguments |}
        = Err err →
        (ollama.HandleToolCallsInResponse {| ollama.model := model; ollama.tools := res |}
           {| api.resp_Content := "";
              api.ToolCalls :=
                [ {| api.call_Function :=
                       {| api.call_Name := tool.Name t; api.call_Arguments := arguments |} |} ] |}
           (c, w2)).2
        = (Some [ {| api.Role := "tool";
                     api.Content :=
                       "Tool execution failed: tool execution failed: failed to call tool "
                       +:+ tool_Name mcpTool +:+ ": " +:+ err |} ],
           None).
Proof.
  intros Hrun Hperm Htools Hcolon Hin.
  pose proof (connect_all_consistent _ _ _ _ _ _ (consistent_initial p) Hrun) as Hc.
  destruct (ExecuteToolCall_listed c order w w1 res model t arguments w2
              (cons_inv _ _ Hc) Hperm Htools Hcolon Hin)
    as (id & ss & h & mcpTool & Hl & Hm & Hname & Hexec).
  exists id, ss, h, mcpTool. do 3 (split; [done|]).
  intros err Hfail. rewrite Hfail in Hexec.
  unfold ollama.HandleToolCallsInResponse. cbn [api.ToolCalls ollama.tool_messages].
  by rewrite Hexec.
Qed.

Lemma provider_failure_reaches_the_model_witness :
  (ollama.HandleToolCallsInResponse {| ollama.model := "qwen3:14b"; ollama.tools := listed_BA |}
     {| api.resp_Content := ""; api.ToolCalls := [Demo.call "B:status"] |}
     (Demo.client_AB, Demo.world_AB)).2
  = (Some [ {| api.Role := "tool";
               api.Content :=
                 "Tool execution failed: tool execution failed: failed to call tool "
                 +:+ "status" +:+ ": " +:+ "connection closed" |} ],
     None).
Proof.
  destruct (provider_failure_reaches_the_model Demo.provider [Demo.cmd "A"; Demo.cmd "B"]
              Demo.world_AB Demo.client_AB Demo.connected_AB.2 [("B", 1); ("A", 0)]
              (Tools Demo.client_AB [("B", 1); ("A", 0)] Demo.world_AB).1 listed_BA "qwen3:14b"
              (nth 1 listed_BA (commonTool "" Demo.ping)) ∅ Demo.world_AB
              ltac:(vm_compute; reflexivity)
              ltac:(replace (map_to_list (servers Demo.client_AB)) with [("A", 0); ("B", 1)]
                      by (vm_compute; reflexivity); apply perm_swap)
              ltac:(vm_compute; reflexivity)
              ltac:(intros id ss Hl;
                    destruct (decide (id = "A")) as [->|];
                    [reflexivity|];
                    destruct (decide (id = "B")) as [->|];
                    [reflexivity|];
                    exfalso; revert Hl;
                    change (servers Demo.client_AB) with
                      (<["B" := 1]> (<["A" := 0]> (∅ : gmap string nat)));
                    rewrite !lookup_insert_ne, lookup_empty by done; discriminate)
              ltac:(right; left))
    as (id & ss & h & mcpTool & Hl & Hm & Hname & Hfail).
  assert (id = "B" ∧ tool_Name mcpTool = "status") as [-> Hnative].
  { change (tool.Name (nth 1 listed_BA (commonTool "" Demo.ping))) with ("B" +:+ ":" +:+ "status")
      in Hname.
    assert (before_colon ("B" +:+ ":" +:+ "status") = before_colon (id +:+ ":" +:+ tool_Name mcpTool))
      as Hb by (by rewrite Hname).
    assert (has_colon id = false) as Hid.
    { destruct (decide (id = "A")) as [->|]; [reflexivity|].
      destruct (decide (id = "B")) as [->|]; [reflexivity|].
      exfalso. revert Hl.
      change (servers Demo.client_AB) with (<["B" := 1]> (<["A" := 0]> (∅ : gmap string nat))).
      rewrite !lookup_insert_ne, lookup_empty by done. discriminate. }
    rewrite (before_colon_display id _ Hid) in Hb. subst id.
    split; [reflexivity|]. apply (append_inj_r "B:"). exact (eq_sym Hname). }
  assert (ss = 1) as ->.
  { revert Hl. vm_compute. by intros [= <-]. }
  rewrite Hnative in Hfail. exact (Hfail "connection closed" eq_refl).
Defined.

(** ** What a listing does on the provider side *)

Lemma all_tools_log c order : ∀ acc w w1 r,
  all_tools c order acc w = (w1, r) →
  env w1 = env w
  ∧ sessions (past w1) = sessions (past w) ∧ dialed (past w1) = dialed (past w)
  ∧ closed (past w1) = closed (past w) ∧ calls (past w1) = calls (past w)
  ∧ ((∃ res, r = Ok res ∧ listed (past w1) = listed (past w) ++ order.*2)
     ∨ (∃ pre key ss post wp acc' e,
          order = pre ++ (key, ss) :: post
          ∧ all_tools c pre acc w = (wp, Ok acc')
          ∧ server_tools (default "" (serverIDs c !! ss)) (list_tools (env wp) (past wp) ss) acc'
            = Err e
          ∧ r = Err e
          ∧ listed (past w1) = listed (past w) ++ pre.*2 ++ [ss])).
Proof.
  induction order as [|[key ss] rest IH]; intros acc w w1 r; cbn [all_tools].
  - intros [= <- <-]. repeat (split; [done|]). left. exists acc. by rewrite app_nil_r.
  - destruct (server_tools _ _ acc) as [acc1|e] eqn:Hserver.
    + intros Hrec.
      apply IH in Hrec
        as (-> & -> & -> & -> & -> &
            [(res & -> & Hlisted)
            |(pre & key' & ss' & post & wp & acc' & e & -> & Hpre & Hfail & -> & Hlisted)]).
      * repeat (split; [done|]). left. exists res. split; [done|].
        rewrite Hlisted. simpl. by rewrite <- app_assoc.
      * repeat (split; [done|]). right.
        exists ((key, ss) :: pre), key', ss', post, wp, acc', e.
        split; [done|]. split; [cbn [all_tools]; by rewrite Hserver|].
        split; [done|]. split; [done|].
        rewrite Hlisted. simpl. by rewrite <- app_assoc.
    + intros [= <- <-]. repeat (split; [done|]). right.
      exists [], key, ss, rest, w, acc, e. by repeat (split; [done|]).
Qed.

(** [Tools] only lists: it dials nothing, closes no session and calls no
    tool. With an empty registry it asks nobody. Otherwise it asks the
    connections for their tools one after the other in the order visited:
    either the listing of every connection goes through, and every
    connection has been asked exactly once; or the listings of the
    connections before some connection went through, the listing of that
    one fails, its error is the one returned, and no connection after it
    has been asked. *)
Theorem tools_only_lists c order w w1 r :
  Tools c order w = (w1, r) →
  sessions (past w1) = sessions (past w) ∧ dialed (past w1) = dialed (past w)
  ∧ closed (past w1) = closed (past w) ∧ calls (past w1) = calls (past w)
  ∧ (size (servers c) = 0 → listed (past w1) = listed (past w))
  ∧ (size (servers c) ≠ 0 →
       (∃ res, all_tools c order [] w = (w1, Ok res)
               ∧ listed (past w1) = listed (past w) ++ order.*2)
       ∨ (∃ pre key ss post wp acc e,
            order = pre ++ (key, ss) :: post
            ∧ all_tools c pre [] w = (wp, Ok acc)
            ∧ server_tools (default "" (serverIDs c !! ss))
                (list_tools (env wp) (past wp) ss) acc = Err e
            ∧ r = Err e
            ∧ listed (past w1) = listed (past w) ++ pre.*2 ++ [ss]))
  ∧ (∀ res, r = Ok res → listed (past w1) = listed (past w) ++ order.*2).
Proof.
  unfold Tools. case_bool_decide as Hsize.
  { intros [= <- <-]. repeat (split; [done|]). discriminate. }
  destruct (all_tools c order [] w) as [w2 r2] eqn:Hall.
  pose proof Hall as Hlog.
  apply all_tools_log in Hlog
    as (_ & Hs & Hd & Hc & Hcalls &
        [(res & -> & Hlisted)
        |(pre & key & ss & post & wp & acc & e & Horder & Hpre & Hfail & -> & Hlisted)]).
  - intros Hrun.
    assert (w2 = w1) as -> by (revert Hrun; case_bool_decide; by intros [= <- <-]).
    repeat (split; [done|]). split; [|done].
    intros _. left. by exists res.
  - intros [= <- <-]. repeat (split; [done|]). split; [|discriminate].
    intros _. right. by exists pre, key, ss, post, wp, acc, e.
Qed.

Lemma tools_only_lists_witness :
  calls (past (Tools Demo.client_AB [("B", 1); ("A", 0)] Demo.world_AB).1)
  = calls (past Demo.world_AB)
  ∧ listed (past (Tools Demo.client_AB [("B", 1); ("A", 0)] Demo.world_AB).1)
    = listed (past Demo.world_AB) ++ [1; 0].
Proof.
  destruct (tools_only_lists Demo.client_AB [("B", 1); ("A", 0)] Demo.world_AB
              (Tools Demo.client_AB [("B", 1); ("A", 0)] Demo.world_AB).1
              (Ok listed_BA) ltac:(vm_compute; reflexivity))
    as (_ & _ & _ & Hcalls & _ & _ & Hlisted).
  split; [exact Hcalls|]. exact (Hlisted listed_BA eq_refl).
Defined.

(** [generateUUID] gives 32 lower-case hexadecimal digits, whatever the
    random bytes. *)
Theorem generateUUID_is_hex (src : entropy) :
  String.length (generateUUID src) = 32 ∧ hex.all_hex (generateUUID src) = true.
Proof.
  unfold generateUUID.
  destruct (EncodeToString_hex (rand_Read src 16)) as [Hlen Hhex].
  split; [|done]. rewrite Hlen. unfold rand_Read. by rewrite length_map, length_seq.
Qed.

(** ** Executing a listed tool in a later registry *)

Lemma Tools_consistent c order w w1 r :
  consistent c w → Tools c order w = (w1, r) → consistent c w1.
Proof.
  intros [Hinv Hlive Hclosed] Hrun.
  assert (sessions (past w1) = sessions (past w) ∧ closed (past w1) = closed (past w))
    as [Hs Hc].
  { revert Hrun. unfold Tools. case_bool_decide; [by intros [= <- <-]|].
    destruct (all_tools c order [] w) as [w2 r2] eqn:Hall.
    apply all_tools_log in Hall as (_ & Hs & _ & Hc & _).
    destruct r2 as [res|e]; [case_bool_decide|]; by intros [= <- <-]. }
  split; [done| |]; rewrite ?Hs, ?Hc; done.
Qed.

(** C6 (amended). A tool that [Tools] has returned carries the id of its
    connection. The client has nothing that takes a connection out of the
    registry: in every registry reached from the listing's by further
    connects, that id is still registered with the same session, which
    has not been closed by the client. Executing the tool there sends
    one call to that session and does not fail with "server <id> not
    found"; when the call fails, as on a connection the provider has
    closed, the error returned is "failed to call tool <native name>: "
    and the call's error. Only against a registry without the id does
    executing the tool make no call and fail with "server <id> not
    found". *)
Theorem execute_after_removal (p : Provider) (cts : list Cmd) w c errs order w1 res t :
  connect_all NewClient cts (initial p) = (w, c, errs) →
  order ≡ₚ map_to_list (servers c) →
  Tools c order w = (w1, Ok res) →
  t ∈ res →
  ∃ e ss, tool.Executor t = Some e ∧ servers c !! serverID e = Some ss
    ∧ (∀ cts2 w2 c2 errs2,
         connect_all c cts2 w1 = (w2, c2, errs2) →
         servers c2 !! serverID e = Some ss
         ∧ (ss ∉ closed (past w2))
         ∧ ∀ arguments w3,
             ∃ w4 r,
               tool.Tool_Execute t arguments (c2, w3) = ((c2, w4), r)
               ∧ calls (past w4)
                 = calls (past w3) ++ [(ss, {| Name := toolName e; Arguments := arguments |})]
               ∧ r ≠ Err ("server " +:+ serverID e +:+ " not found")
               ∧ ∀ err,
                   call_tool (env w3) (past w3) ss
                     {| Name := toolName e; Arguments := arguments |} = Err err →
                   r = Err ("failed to call tool " +:+ toolName e +:+ ": " +:+ err))
    ∧ (∀ c' w2 arguments,
         servers c' !! serverID e = None →
         tool.Tool_Execute t arguments (c', w2)
         = ((c', w2), Err ("server " +:+ serverID e +:+ " not found"))).
Proof.
  intros Hrun Hperm Htools Hin.
  pose proof (connect_all_consistent _ _ _ _ _ _ (consistent_initial p) Hrun) as Hc.
  pose proof (Tools_consistent _ _ _ _ _ Hc Htools) as Hc1.
  destruct (Tools_sound _ _ _ _ _ (cons_inv _ _ Hc) Hperm Htools t Hin)
    as (id & ss & h & mcpTool & Hl & Hm & Hname & Hfn & Hex).
  eexists _, ss. split; [exact Hex|]. cbn [serverID toolName]. split; [done|]. split.
  - intros cts2 w2 c2 errs2 Hmore.
    destruct (connect_all_keeps _ _ _ _ _ _ Hc1 Hmore _ _ Hl) as [Hl2 Hback].
    pose proof (connect_all_consistent _ _ _ _ _ _ Hc1 Hmore) as Hc2.
    split; [done|]. split.
    { intros Hclosed. apply (cons_closed _ _ Hc2) in Hclosed as [_ Hnone]. congruence. }
    intros arguments w3. unfold tool.Tool_Execute. rewrite Hex.
    unfold tool.Execute, MCPToolExecutor_ToolExecutor, Execute. cbn [fst snd serverID toolName].
    rewrite Hl2. unfold CallTool.
    destruct (call_tool (env w3) (past w3) ss _) as [result|err] eqn:Hcall.
    + destruct (Content_ result); eexists _, _;
        (split; [reflexivity|]); (split; [reflexivity|]); (split; [discriminate|discriminate]).
    + eexists _, _. split; [reflexivity|]. split; [reflexivity|]. split.
      * intros Heq. vm_compute in Heq. discriminate Heq.
      * by intros err' [= <-].
  - intros c' w2 arguments Hgone.
    unfold tool.Tool_Execute. rewrite Hex.
    unfold tool.Execute, MCPToolExecutor_ToolExecutor, Execute. simpl in *.
    by rewrite Hgone.
Qed.

Lemma execute_after_removal_witness :
  ∃ ss w4,
    servers Runs.later_on_AB.1.2 !! "B" = Some ss
    ∧ tool.Tool_Execute (commonTool "B" Demo.ping) ∅ (Runs.later_on_AB.1.2, Demo.world_AB)
      = ((Runs.later_on_AB.1.2, w4), Ok "pong")
    ∧ calls (past w4) = calls (past Demo.world_AB) ++ [(ss, {| Name := "ping"; Arguments := ∅ |})].
Proof.
  destruct (execute_after_removal Demo.provider [Demo.cmd "A"; Demo.cmd "B"]
              Demo.world_AB Demo.client_AB Demo.connected_AB.2
              (map_to_list (servers Demo.client_AB)) Runs.listed_AB
              [commonTool "A" Demo.ping; commonTool "B" Demo.ping;
               with_Parameters (commonTool "B" Demo.status)
                 {| tool.Type_ := "object"; tool.Required := Some ["verbose"];
                    tool.Properties :=
                      Some {["verbose" := {| tool.prop_Type := "boolean"; tool.prop_Description := "";
                                             tool.prop_Items := json.Null; tool.prop_Enum := None |}]};
                    tool.Defs := json.Null; tool.Items := json.Null |}]
              (commonTool "B" Demo.ping)
              ltac:(vm_compute; reflexivity) ltac:(reflexivity) ltac:(vm_compute; reflexivity)
              ltac:(right; left))
    as (e & ss & Hex & Hl & Hlater & _).
  injection Hex as <-. cbn [serverID toolName] in *.
  destruct (Hlater [Demo.cmd "B"; Demo.cmd "bad"; Demo.cmd "C"]
              Runs.later_on_AB.1.1 Runs.later_on_AB.1.2 Runs.later_on_AB.2
              ltac:(vm_compute; reflexivity))
    as (Hl2 & _ & Hexec).
  destruct (Hexec ∅ Demo.world_AB) as (w4 & r & Hrun & Hcalls & _).
  exists ss, w4. split; [exact Hl2|]. split; [|exact Hcalls].
  rewrite Hrun. f_equal.
  apply (f_equal snd) in Hrun. vm_compute in Hrun. symmetry. exact Hrun.
Defined.

(** C6, as stated, supposes that a connection which has closed is no
    longer registered. It is: the provider of [B] answers the call of
    [status] with "connection closed", and executing [B:status] reaches
    the session still registered as [B] and returns that failure, not
    "server B not found"; and no further connects make [B] unregistered. *)
Lemma closed_connection_stays_registered :
  servers Demo.client_AB !! "B" = Some 1
  ∧ call_tool Demo.provider (past Demo.world_AB) 1 {| Name := "status"; Arguments := ∅ |}
    = Err "connection closed"
  ∧ (tool.Tool_Execute (commonTool "B" Demo.status) ∅ (Demo.client_AB, Demo.world_AB)).2
    = Err "failed to call tool status: connection closed"
  ∧ (tool.Tool_Execute (commonTool "B" Demo.status) ∅ (Demo.client_AB, Demo.world_AB)).2
    ≠ Err "server B not found"
  ∧ ∀ cts2 w2 c2 errs2,
      connect_all Demo.client_AB cts2 Demo.world_AB = (w2, c2, errs2) →
      servers c2 !! "B" = Some 1.
Proof.
  split; [vm_compute; reflexivity|]. split; [reflexivity|].
  split; [vm_compute; reflexivity|]. split; [vm_compute; discriminate|].
  intros cts2 w2 c2 errs2 Hmore.
  assert (consistent Demo.client_AB Demo.world_AB) as Hc.
  { apply (connect_all_consistent [Demo.cmd "A"; Demo.cmd "B"] NewClient (initial Demo.provider)
             _ _ Demo.connected_AB.2 (consistent_initial Demo.provider)).
    vm_compute. reflexivity. }
  apply (connect_all_keeps _ _ _ _ _ _ Hc Hmore "B" 1). vm_compute. reflexivity.
Qed.

(** ** Commands built from configurations *)

Lemma value_of_put e : ∀ key value k',
  config.value_of k' (config.put key value e)
  = if String.eqb key k' then value else config.value_of k' e.
Proof.
  induction e as [|[k v] rest IH]; intros key value k'; simpl.
  - by destruct (String.eqb key k').
  - destruct (String.eqb_spec k key) as [->|Hk]; simpl.
    + by destruct (String.eqb key k').
    + rewrite IH. destruct (String.eqb_spec k k') as [->|Hk']; [|done].
      destruct (String.eqb_spec key k') as [<-|]; done.
Qed.

Lemma os_Getenv_Setenv e key value k' :
  config.settable key value = true →
  config.os_Getenv (config.os_Setenv key value e) k'
  = if String.eqb key k' then value else config.os_Getenv e k'.
Proof.
  intros Hset. unfold config.os_Setenv, config.os_Getenv. rewrite Hset.
  case_bool_decide as Hk'; [|apply value_of_put].
  subst k'. destruct (String.eqb_spec key "") as [->|]; [|done].
  unfold config.settable in Hset. by rewrite bool_decide_eq_true_2 in Hset.
Qed.

Lemma expandEnvironmentVariables_plain getenv value :
  config.has_char "$" value = false → config.expandEnvironmentVariables getenv value = value.
Proof.
  intros H. unfold config.expandEnvironmentVariables.
  by rewrite (expand_braces_plain _ _ _ H), expand_names_plain.
Qed.

(** The loop of [applyEnvironment] over entries with distinct names that
    [os.Setenv] accepts and whose values have no ['$']. *)
Lemma applyEnvironment_loop visit : ∀ e k',
  Forall (λ kv, config.settable kv.1 kv.2 = true ∧ config.has_char "$" kv.2 = false) visit →
  NoDup visit.*1 →
  config.os_Getenv
    (foldl (λ e kv, config.os_Setenv kv.1
                      (config.expandEnvironmentVariables (config.os_Getenv e) kv.2) e) e visit) k'
  = default (config.os_Getenv e k') ((list_to_map visit : gmap string string) !! k').
Proof.
  induction visit as [|[k v] rest IH]; intros e k' Hok Hnd; [done|].
  apply Forall_cons in Hok as [[Hset Hplain] Hok].
  rewrite fmap_cons in Hnd. apply NoDup_cons in Hnd as [Hk Hnd].
  cbn [foldl fst snd] in *. rewrite IH by done.
  rewrite (expandEnvironmentVariables_plain _ _ Hplain), (os_Getenv_Setenv _ _ _ _ Hset).
  cbn [list_to_map foldr uncurry].
  destruct (String.eqb_spec k k') as [<-|Hne].
  - rewrite lookup_insert_eq. by rewrite (not_elem_of_list_to_map_1 _ _ Hk).
  - by rewrite lookup_insert_ne.
Qed.

(** [CreateCommand] on a configuration with an environment whose names
    [os.Setenv] accepts and whose values have no ['$'], in whatever order
    its loops visit the entries: afterwards every variable of the
    configuration is set in the process to the configuration's value and
    every other variable is as before; the command and the arguments are
    expanded against that environment, so they can refer to the
    configuration's own variables; and the command's environment is that
    of the process followed by one [name=value] for each entry. *)
Theorem create_command_sets_variables (c : Config) m visits e :
  Environment c = Some m →
  config.visits_of c visits →
  (∀ k v, m !! k = Some v →
     config.settable k v = true ∧ config.has_char "$" v = false) →
  ∃ e1 cmd,
    config.CreateCommand c visits e = (e1, cmd)
    ∧ (∀ k v, m !! k = Some v → config.os_Getenv e1 k = v)
    ∧ (∀ k, m !! k = None → config.os_Getenv e1 k = config.os_Getenv e k)
    ∧ Path cmd = config.expandEnvironmentVariables (config.os_Getenv e1) (Command c)
    ∧ Args cmd = (config.expandEnvironmentVariables (config.os_Getenv e1) <$> cfg_Args c)
    ∧ Env cmd = Some (config.os_Environ e1 ++ ((λ kv, kv.1 +:+ "=" +:+ kv.2) <$> visits.2)).
Proof.
  intros Henv [Hv1 Hv2] Hok. rewrite Henv in Hv1, Hv2. cbn in Hv1, Hv2.
  eexists _, _. split; [reflexivity|].
  assert (∀ visit, visit ≡ₚ map_to_list m →
            Forall (λ kv, config.settable kv.1 kv.2 = true ∧ config.has_char "$" kv.2 = false)
              visit) as Hall.
  { intros visit Hperm. apply Forall_forall. intros [k v] Hin. rewrite Hperm in Hin.
    apply elem_of_map_to_list in Hin. exact (Hok k v Hin). }
  assert (∀ k', config.os_Getenv (config.applyEnvironment c visits.1 e) k'
                = default (config.os_Getenv e k') (m !! k')) as Hget.
  { intros k'. unfold config.applyEnvironment. rewrite Henv.
    rewrite applyEnvironment_loop; [|by apply Hall|rewrite Hv1; apply NoDup_fst_map_to_list].
    by rewrite <- (list_to_map_proper _ _ (NoDup_fst_map_to_list m) (symmetry Hv1)),
      list_to_map_to_list. }
  split; [intros k v Hl; by rewrite Hget, Hl|].
  split; [intros k Hl; by rewrite Hget, Hl|].
  split; [reflexivity|]. split; [reflexivity|].
  cbn [Env]. rewrite Henv. do 2 f_equal.
  apply Forall_fmap_ext_1. eapply Forall_impl; [apply (Hall visits.2 Hv2)|].
  intros [k v] [_ Hplain]. cbn [fst snd] in *.
  by rewrite (expandEnvironmentVariables_plain _ _ Hplain).
Qed.

Lemma create_command_sets_variables_witness :
  ∃ e1 cmd,
    config.CreateCommand launch.cfg_first (launch.visits 0) launch.home = (e1, cmd)
    ∧ config.os_Getenv e1 "BIN" = "bad"
    ∧ config.os_Getenv e1 "HOME" = "/home/u"
    ∧ Env cmd = Some (config.os_Environ e1 ++ ["BIN=bad"]).
Proof.
  destruct (create_command_sets_variables launch.cfg_first {["BIN" := "bad"]}
              (launch.visits 0) launch.home eq_refl
              ltac:(split; vm_compute; reflexivity)
              ltac:(intros k v [<- <-]%lookup_singleton_Some; split; reflexivity))
    as (e1 & cmd & Hcmd & Hset & Hkeep & _ & _ & Henv).
  exists e1, cmd. split; [exact Hcmd|].
  split; [apply Hset, lookup_singleton_eq|].
  split; [exact (Hkeep "HOME" ltac:(reflexivity))|exact Henv].
Defined.

(** [CreateCommand] on a configuration without an environment and
    without ['$'] in its command and arguments: the environment of the
    process stays as it is, the command and the arguments are taken as
    written, and the command's own environment is left nil, so that the
    launched process inherits that of the process. *)
Theorem create_command_plain (c : Config) visits e :
  Environment c = None →
  config.has_char "$" (Command c) = false →
  Forall (λ arg, config.has_char "$" arg = false) (cfg_Args c) →
  config.CreateCommand c visits e
  = (e, {| Path := Command c; Args := cfg_Args c; Env := None |}).
Proof.
  intros Henv Hcommand Hargs. unfold config.CreateCommand, config.applyEnvironment.
  rewrite Henv, (expandEnvironmentVariables_plain _ _ Hcommand). do 2 f_equal.
  induction Hargs as [|arg args Harg _ IH]; [done|].
  rewrite fmap_cons, IH. by rewrite (expandEnvironmentVariables_plain _ _ Harg).
Qed.

Lemma create_command_plain_witness :
  config.CreateCommand launch.cfg_last (launch.visits 2) launch.home
  = (launch.home, Demo.cmd "B").
Proof.
  exact (create_command_plain launch.cfg_last (launch.visits 2) launch.home
           eq_refl eq_refl (Forall_nil_2 _)).
Defined.
